(** * cytoscape-compound-manager: the collapse / expand / projection engine

    A shallow embedding of [src/core.js] and the properties of its
    specification.

    - The Cytoscape graph store is an external collaborator.  The part of it
      that [core.js] calls (element lookup, parent / children / descendants /
      ancestors, connected edges, positions, [data] flags, [add], [remove],
      [emit], [animate]) is the record [Cy] with the functions of
      [Section Store].  Elements are live references in JavaScript; here a
      reference is the element's id and every read goes through the store.
    - The per-instance state of [getState] is the record [State]: its [Set]s
      are [gset string], its [Map]s are [gmap string _].  A graph instance
      and its state travel together as a [World]; every engine function
      takes a world and returns the new one.
    - JavaScript numbers are IEEE doubles.  The engine only adds, subtracts,
      halves, compares and takes minima and maxima of coordinates, so the
      development is parametric in a type of numbers with these operations
      (class [Number]); no arithmetic law is assumed unless a statement says
      so.  [Q] is the instance used to run the model on the test fixtures;
      binary64 with Rocq's primitive floats is the arithmetic of the program
      itself.
    - [style] and [addClass] / [removeClass] calls only feed the renderer
      and are left out.
    - [runLayout] and [runLocalLayout] hand over to a layout of Cytoscape
      and finish in the handler of its [layoutstop] event.  The layout
      algorithm is a parameter: the store as it is when the layout stops.
      The debounced layout trigger of the public wrappers is kept as the
      pending request, and the expiry of its timer is a step of its own.

    The file has the embedding first, then the vocabulary of the statements
    and the test fixtures, then the lemmas and theorems, and last the
    scenarios that run the model on the fixtures. *)

From Stdlib Require Import Ascii String QArith Qminmax Sorted.
From Corelib Require PrimFloat.
From stdpp Require Import gmap strings list fin_maps pretty.

Local Open Scope string_scope.
Local Open Scope list_scope.

(** ** Numbers *)

Class Number (R : Type) := {
  nadd : R -> R -> R;
  nsub : R -> R -> R;
  nmul : R -> R -> R;
  ndiv : R -> R -> R;
  nmin : R -> R -> R;          (* Math.min *)
  nmax : R -> R -> R;          (* Math.max *)
  nltb : R -> R -> bool;       (* a < b *)
  nleb : R -> R -> bool;       (* a <= b *)
  nfalsy : R -> bool;          (* 0 and NaN are falsy: the [x || d] idiom *)
  nconst : Z -> R              (* integer literals *)
}.

Definition ngtb {R} `{Number R} (a b : R) : bool := nltb b a.
Definition ngeb {R} `{Number R} (a b : R) : bool := nleb b a.

(** Exact rational arithmetic, the instance used to run the model. *)
#[export] Instance Number_Q : Number Q := {
  nadd := Qplus;
  nsub := Qminus;
  nmul := Qmult;
  ndiv := Qdiv;
  nmin := Qmin;
  nmax := Qmax;
  nltb := fun a b => negb (Qle_bool b a);
  nleb := Qle_bool;
  nfalsy := fun a => Qeq_bool a 0;
  nconst := inject_Z
}.

(** IEEE 754 binary64 with rounding to nearest even, the numbers of
    JavaScript.  An integer literal is built from its binary digits, which
    is exact below 2^53 and at every power of two. *)
Fixpoint float_of_pos (p : positive) : PrimFloat.float :=
  match p with
  | xH => PrimFloat.one
  | xO p => PrimFloat.mul PrimFloat.two (float_of_pos p)
  | xI p => PrimFloat.add (PrimFloat.mul PrimFloat.two (float_of_pos p)) PrimFloat.one
  end.

Definition float_of_Z (z : Z) : PrimFloat.float :=
  match z with
  | Z0 => PrimFloat.zero
  | Zpos p => float_of_pos p
  | Zneg p => PrimFloat.opp (float_of_pos p)
  end.

(** [Math.min] and [Math.max]: NaN when an argument is NaN, and -0 below +0. *)
Definition float_min (a b : PrimFloat.float) : PrimFloat.float :=
  if PrimFloat.is_nan a then a
  else if PrimFloat.is_nan b then b
  else if PrimFloat.ltb a b then a
  else if PrimFloat.ltb b a then b
  else if PrimFloat.get_sign a then a else b.

Definition float_max (a b : PrimFloat.float) : PrimFloat.float :=
  if PrimFloat.is_nan a then a
  else if PrimFloat.is_nan b then b
  else if PrimFloat.ltb a b then b
  else if PrimFloat.ltb b a then a
  else if PrimFloat.get_sign a then b else a.

#[export] Instance Number_float : Number PrimFloat.float := {
  nadd := PrimFloat.add;
  nsub := PrimFloat.sub;
  nmul := PrimFloat.mul;
  ndiv := PrimFloat.div;
  nmin := float_min;
  nmax := float_max;
  nltb := PrimFloat.ltb;
  nleb := PrimFloat.leb;
  nfalsy := fun a => PrimFloat.is_zero a || PrimFloat.is_nan a;
  nconst := float_of_Z
}.

(** ** Strings: template literals and [split] *)

(** [s.split(sep)] for a one-character separator. *)
Fixpoint split_go (sep : ascii) (cur : string) (s : string) : list string :=
  match s with
  | EmptyString => [String.rev cur]
  | String c s' =>
      if Ascii.eqb c sep then String.rev cur :: split_go sep EmptyString s'
      else split_go sep (String c cur) s'
  end.

Definition split (sep : ascii) (s : string) : list string :=
  split_go sep EmptyString s.

Definition colon : ascii := ":"%char.

(** The two group keys of [createProjections]: [`out:${id}`], [`in:${id}`]. *)
Definition out_key (targetId : string) : string := "out:" ++ targetId.
Definition in_key (sourceId : string) : string := "in:" ++ sourceId.

(** [`_proj_${parentId}_${projCounter}`] *)
Definition proj_id (parentId : string) (projCounter : nat) : string :=
  "_proj_" ++ parentId ++ "_" ++ pretty projCounter.

(** An id without the key separator. *)
Fixpoint colonFree (s : string) : bool :=
  match s with
  | EmptyString => true
  | String c s' => negb (Ascii.eqb c colon) && colonFree s'
  end.

(** Source and target [createProjections] reads back from a group key. *)
Definition projectionEnds (parentId key : string) : string * string :=
  let parts := split colon key in
  let direction := nth 0 parts "" in
  let externalId := nth 1 parts "" in
  (if String.eqb direction "out" then parentId else externalId,
   if String.eqb direction "out" then externalId else parentId).

(** ** Data model *)

Section Model.
Context {R : Type} `{Number R}.

Record point := Point { px : R; py : R }.

(** [{lx, ly}] of [saveLocalPositions]. *)
Record local := Local { lx : R; ly : R }.

Record node := Node {
  n_id : string;
  n_parent : option string;      (* data.parent *)
  n_position : point;
  n_hidden : bool                (* data('_hidden') === true *)
}.

Record edge := Edge {
  e_id : string;
  e_source : string;
  e_target : string;
  e_hidden : bool;               (* data('_hidden') === true *)
  e_isProjection : bool          (* data('_isProjection') *)
}.

Inductive event :=
| EvCollapse (nodeId : string)          (* 'compoundmanager.collapse' *)
| EvExpand (nodeId : string)            (* 'compoundmanager.expand' *)
| EvLayoutResetRequired.                (* 'compoundmanager.layoutResetRequired' *)

(** A queued [child.animate({ position, duration })]. *)
Record animation := Animation {
  an_node : string;
  an_position : point;
  an_duration : N
}.

(** The graph instance.  Nodes and edges are kept in insertion order. *)
Record Cy := MkCy {
  cy_nodes : list node;
  cy_edges : list edge;
  cy_emitted : list event;
  cy_animations : list animation
}.

(** [{ projIds, originalIds }] *)
Record projData := ProjData {
  projIds : list string;
  originalIds : list string
}.

(** The per-instance state created by [getState]. *)
Record State := MkState {
  collapsedIds : gset string;
  hiddenElementsMap : gmap string (list string);
  savedPositionsMap : gmap string (gmap string local);
  projectionEdgesMap : gmap string projData;
  hiddenIds : gset string
}.

Definition initState : State :=
  MkState ∅ ∅ ∅ ∅ ∅.

(** A graph instance together with its engine state. *)
Record World := MkWorld { cy : Cy; state : State }.

(** Options read by the engine ([opts]). *)
Record Opts := MkOpts {
  animate : bool;
  animationDuration : option N;
  maxIterations : option nat;
  overlapPadding : option R
}.

End Model.

#[export] Instance edge_eq_dec : EqDecision edge.
Proof. solve_decision. Defined.

Arguments point R : clear implicits.
Arguments local R : clear implicits.
Arguments node R : clear implicits.
Arguments animation R : clear implicits.
Arguments Cy R : clear implicits.
Arguments State R : clear implicits.
Arguments World R : clear implicits.
Arguments Opts R : clear implicits.

(** ** The graph store

    What [core.js] asks of Cytoscape.  A store is well formed when ids are
    unique and the parent relation has no cycle; Cytoscape refuses elements
    that would break either.  [descendants] and [ancestors] walk the
    hierarchy with the number of nodes as fuel, which is enough on a
    well-formed store; every function is total on any store. *)

Section Store.
Context {R : Type} `{Number R}.

Implicit Types (g : Cy R) (id : string).

(** Keep the first occurrence of every key ([spawn(eles, true)], and the
    [seenEdges] set of [createProjections]). *)
Fixpoint uniqBy {A} (key : A -> string) (seen : gset string) (l : list A) : list A :=
  match l with
  | [] => []
  | x :: l' =>
      if decide (key x ∈ seen) then uniqBy key seen l'
      else x :: uniqBy key ({[key x]} ∪ seen) l'
  end.

Definition getNode g id : option (node R) :=
  List.find (fun n => String.eqb (n_id n) id) (cy_nodes g).

Definition getEdge g id : option edge :=
  List.find (fun e => String.eqb (e_id e) id) (cy_edges g).

Definition isNode g id : bool := bool_decide (is_Some (getNode g id)).
Definition isEdge g id : bool := bool_decide (is_Some (getEdge g id)).

(** [cy.$id(id).nonempty()] *)
Definition hasElementWithId g id : bool := isNode g id || isEdge g id.

(** [ele.parent()]: [None] is the empty collection. *)
Definition parent g id : option string :=
  n ← getNode g id; n_parent n.

Definition children g id : list string :=
  n_id <$> List.filter (fun n => bool_decide (n_parent n = Some id)) (cy_nodes g).

(** [node.isParent()] *)
Definition isParent g id : bool :=
  match children g id with [] => false | _ => true end.

Fixpoint descendants_go g (fuel : nat) (eles : list string) : list string :=
  match fuel with
  | O => []
  | S fuel' =>
      flat_map (fun ele => ele :: descendants_go g fuel' (children g ele)) eles
  end.

(** [node.descendants()]: depth first, children in store order. *)
Definition descendants g id : list string :=
  uniqBy (fun x => x) ∅ (descendants_go g (length (cy_nodes g)) (children g id)).

Fixpoint ancestors_go g (fuel : nat) id : list string :=
  match fuel with
  | O => []
  | S fuel' =>
      match parent g id with
      | None => []
      | Some p => p :: ancestors_go g fuel' p
      end
  end.

(** [node.ancestors()] *)
Definition ancestors g id : list string :=
  ancestors_go g (length (cy_nodes g)) id.

Definition touches (e : edge) id : bool :=
  String.eqb (e_source e) id || String.eqb (e_target e) id.

(** [node.connectedEdges()] *)
Definition nodeEdges g id : list edge :=
  List.filter (fun e => touches e id) (cy_edges g).

(** [collection.connectedEdges()] *)
Definition connectedEdges g (eles : list string) : list edge :=
  uniqBy e_id ∅ (flat_map (nodeEdges g) eles).

(** [node.position()] *)
Definition position g id : option (point R) :=
  n_position <$> getNode g id.

(** [node.position(p)] *)
Definition setPosition g id (p : point R) : Cy R :=
  MkCy
    (List.map (fun n => if String.eqb (n_id n) id
                        then Node (n_id n) (n_parent n) p (n_hidden n) else n)
              (cy_nodes g))
    (cy_edges g) (cy_emitted g) (cy_animations g).

(** [ele.data('_hidden', true)] and [ele.removeData('_hidden')] *)
Definition setHiddenData g id (b : bool) : Cy R :=
  MkCy
    (List.map (fun n => if String.eqb (n_id n) id
                        then Node (n_id n) (n_parent n) (n_position n) b else n)
              (cy_nodes g))
    (List.map (fun e => if String.eqb (e_id e) id
                        then Edge (e_id e) (e_source e) (e_target e) b (e_isProjection e)
                        else e)
              (cy_edges g))
    (cy_emitted g) (cy_animations g).

(** [ele.data('_hidden') === true] *)
Definition dataHidden g id : bool :=
  match getNode g id with
  | Some n => n_hidden n
  | None => match getEdge g id with Some e => e_hidden e | None => false end
  end.

(** [edge.data('_isProjection')] *)
Definition dataIsProjection g id : bool :=
  match getEdge g id with Some e => e_isProjection e | None => false end.

(** [cy.add({ group: 'edges', data: { id, source, target, _isProjection: true } })].
    Cytoscape reports an error and adds nothing when the id is taken or an
    endpoint does not exist. *)
Definition addProjectionEdge g (id source target : string) : Cy R :=
  if hasElementWithId g id || negb (isNode g source) || negb (isNode g target)
  then g
  else MkCy (cy_nodes g)
            (cy_edges g ++ [Edge id source target false true])
            (cy_emitted g) (cy_animations g).

(** [cy.remove(ele)]: an edge is removed alone; a node is removed with its
    descendants and with every edge incident to a removed node. *)
Definition remove g id : Cy R :=
  if isNode g id then
    let gone : gset string := list_to_set (id :: descendants g id) in
    MkCy
      (List.filter (fun n => bool_decide (n_id n ∉ gone)) (cy_nodes g))
      (List.filter (fun e => bool_decide (e_source e ∉ gone)
                          && bool_decide (e_target e ∉ gone)) (cy_edges g))
      (cy_emitted g) (cy_animations g)
  else
    MkCy (cy_nodes g)
         (List.filter (fun e => negb (String.eqb (e_id e) id)) (cy_edges g))
         (cy_emitted g) (cy_animations g).

(** [cy.emit(name, payload)] *)
Definition emit g (ev : event) : Cy R :=
  MkCy (cy_nodes g) (cy_edges g) (cy_emitted g ++ [ev]) (cy_animations g).

(** [child.animate({ position, duration })]: queued, the position is not
    written by the call. *)
Definition animateTo g id (p : point R) (duration : N) : Cy R :=
  MkCy (cy_nodes g) (cy_edges g) (cy_emitted g)
       (cy_animations g ++ [Animation id p duration]).

End Store.

(** ** The engine: visibility, position memory, projections, collapse, expand *)

Section Engine.
Context {R : Type} `{Number R}.

Implicit Types (w : World R) (g : Cy R) (s : State R) (id nodeId parentId : string).

Definition withCy w g : World R := MkWorld g (state w).

Definition withHiddenIds w (h : gset string) : World R :=
  let s := state w in
  MkWorld (cy w)
    (MkState (collapsedIds s) (hiddenElementsMap s) (savedPositionsMap s)
             (projectionEdgesMap s) h).

Definition withCollapsedIds w (c : gset string) : World R :=
  let s := state w in
  MkWorld (cy w)
    (MkState c (hiddenElementsMap s) (savedPositionsMap s)
             (projectionEdgesMap s) (hiddenIds s)).

Definition withHiddenElementsMap w (m : gmap string (list string)) : World R :=
  let s := state w in
  MkWorld (cy w)
    (MkState (collapsedIds s) m (savedPositionsMap s)
             (projectionEdgesMap s) (hiddenIds s)).

Definition withSavedPositionsMap w (m : gmap string (gmap string (local R))) : World R :=
  let s := state w in
  MkWorld (cy w)
    (MkState (collapsedIds s) (hiddenElementsMap s) m
             (projectionEdgesMap s) (hiddenIds s)).

Definition withProjectionEdgesMap w (m : gmap string projData) : World R :=
  let s := state w in
  MkWorld (cy w)
    (MkState (collapsedIds s) (hiddenElementsMap s) (savedPositionsMap s)
             m (hiddenIds s)).

(** *** Visibility helpers *)

Definition hideElement w id : World R :=
  withHiddenIds (withCy w (setHiddenData (cy w) id true))
                ({[id]} ∪ hiddenIds (state w)).

Definition showElement w id : World R :=
  withHiddenIds (withCy w (setHiddenData (cy w) id false))
                (hiddenIds (state w) ∖ {[id]}).

Definition isHiddenEle w id : bool :=
  bool_decide (id ∈ hiddenIds (state w)) || dataHidden (cy w) id.

Definition isCollapsedNode w nodeId : bool :=
  bool_decide (nodeId ∈ collapsedIds (state w)).

(** *** Position management

    A node reference always has a position; the [None] branches below cover
    ids that name no node of the store, and write nothing. *)

Definition saveLocalPositions w parentId (descendants : list string) : World R :=
  match position (cy w) parentId with
  | None => w
  | Some parentPos =>
      let positions :=
        fold_left
          (fun (positions : gmap string (local R)) child =>
             match position (cy w) child with
             | Some childPos =>
                 <[child := Local (nsub (px childPos) (px parentPos))
                                  (nsub (py childPos) (py parentPos))]> positions
             | None => positions
             end)
          descendants ∅ in
      withSavedPositionsMap w (<[parentId := positions]> (savedPositionsMap (state w)))
  end.

(** [opts.animationDuration || 300] *)
Definition durationOr300 (opts : Opts R) : N :=
  match animationDuration opts with
  | Some d => if N.eqb d 0 then 300%N else d
  | None => 300%N
  end.

Definition restoreLocalPositions w (opts : Opts R) parentId : World R :=
  match savedPositionsMap (state w) !! parentId with
  | None => w
  | Some positions =>
      let g1 :=
        match position (cy w) parentId with
        | None => cy w
        | Some parentPos =>
            fold_left
              (fun g child =>
                 match positions !! child with
                 | Some localPos =>
                     let newPos := Point (nadd (px parentPos) (lx localPos))
                                         (nadd (py parentPos) (ly localPos)) in
                     if animate opts
                     then animateTo g child newPos (durationOr300 opts)
                     else setPosition g child newPos
                 | None => g
                 end)
              (children (cy w) parentId) (cy w)
        end in
      withSavedPositionsMap (withCy w g1) (delete parentId (savedPositionsMap (state w)))
  end.

(** *** Edge projection *)

Record scan := Scan {
  seenEdges : gset string;
  externalEdges : list edge;
  internalEdges : list edge
}.

Definition scanEdge (descendantIds : gset string) (sc : scan) (e : edge) : scan :=
  if decide (e_id e ∈ seenEdges sc) then sc
  else
    let seen := {[e_id e]} ∪ seenEdges sc in
    let sourceIn := bool_decide (e_source e ∈ descendantIds) in
    let targetIn := bool_decide (e_target e ∈ descendantIds) in
    if sourceIn && targetIn then
      Scan seen (externalEdges sc) (internalEdges sc ++ [e])
    else if negb (Bool.eqb sourceIn targetIn) then
      Scan seen (externalEdges sc ++ [e]) (internalEdges sc)
    else Scan seen (externalEdges sc) (internalEdges sc).

Definition scanEdges g (descendantIds : gset string) (descendants : list string) : scan :=
  fold_left
    (fun sc nodeId => fold_left (scanEdge descendantIds) (nodeEdges g nodeId) sc)
    descendants (Scan ∅ [] []).

(** The key of an external edge; [None] is the [return] of the last branch. *)
Definition groupKey (descendantIds : gset string) (e : edge) : option string :=
  let sourceIn := bool_decide (e_source e ∈ descendantIds) in
  let targetIn := bool_decide (e_target e ∈ descendantIds) in
  if sourceIn && negb targetIn then Some (out_key (e_target e))
  else if negb sourceIn && targetIn then Some (in_key (e_source e))
  else None.

(** [groups] is a [Map]: iteration follows first insertion of each key. *)
Fixpoint pushGroup (key : string) (e : edge) (groups : list (string * list edge))
  : list (string * list edge) :=
  match groups with
  | [] => [(key, [e])]
  | (k, es) :: rest =>
      if String.eqb k key then (k, es ++ [e]) :: rest
      else (k, es) :: pushGroup key e rest
  end.

Definition groupEdges (descendantIds : gset string) (external : list edge)
  : list (string * list edge) :=
  fold_left
    (fun groups e =>
       match groupKey descendantIds e with
       | Some key => pushGroup key e groups
       | None => groups
       end)
    external [].

(** One iteration of [groups.forEach]: the pending store, the projection
    ids pushed so far and [projCounter]. *)
Definition projectGroup parentId (acc : Cy R * list string * nat)
    (entry : string * list edge) : Cy R * list string * nat :=
  let '(g, ids, projCounter) := acc in
  let parts := split colon (fst entry) in
  let direction := nth 0 parts "" in
  let externalId := nth 1 parts "" in
  let projId := proj_id parentId projCounter in
  let source := if String.eqb direction "out" then parentId else externalId in
  let target := if String.eqb direction "out" then externalId else parentId in
  (addProjectionEdge g projId source target, ids ++ [projId], S projCounter).

Definition descendantIdSet parentId (descendants : list string) : gset string :=
  {[parentId]} ∪ list_to_set descendants.

Definition createProjections w parentId (descendants : list string) : World R :=
  let descendantIds := descendantIdSet parentId descendants in
  let sc := scanEdges (cy w) descendantIds descendants in
  let w1 := fold_left (fun w e => hideElement w (e_id e)) (internalEdges sc) w in
  let groups := groupEdges descendantIds (externalEdges sc) in
  let '(g2, ids, _) := fold_left (projectGroup parentId) groups (cy w1, [], O) in
  withProjectionEdgesMap (withCy w1 g2)
    (<[parentId := ProjData ids (e_id <$> externalEdges sc)]>
       (projectionEdgesMap (state w1))).

Definition removeProjections w parentId : World R :=
  match projectionEdgesMap (state w) !! parentId with
  | None => w
  | Some data =>
      let g1 :=
        fold_left
          (fun g projId => if hasElementWithId g projId then remove g projId else g)
          (projIds data) (cy w) in
      withProjectionEdgesMap (withCy w g1) (delete parentId (projectionEdgesMap (state w)))
  end.

(** *** Collapse and expand *)

Definition collapse w nodeId : World R * bool :=
  if negb (isParent (cy w) nodeId) then (w, false)
  else if decide (nodeId ∈ collapsedIds (state w)) then (w, false)
  else
    let descendants := descendants (cy w) nodeId in
    let w1 := saveLocalPositions w nodeId descendants in
    let w2 := fold_left hideElement descendants w1 in
    let w3 := fold_left (fun w e => hideElement w (e_id e))
                        (connectedEdges (cy w2) descendants) w2 in
    let w4 := withHiddenElementsMap w3
                (<[nodeId := descendants]> (hiddenElementsMap (state w3))) in
    let w5 := createProjections w4 nodeId descendants in
    let w6 := withCollapsedIds w5 ({[nodeId]} ∪ collapsedIds (state w5)) in
    (withCy w6 (emit (cy w6) (EvCollapse nodeId)), true).

(** The guard of [expand]: show when the parent is empty, is the expanding
    node, or is not collapsed. *)
Definition showable w nodeId id : bool :=
  match parent (cy w) id with
  | None => true
  | Some p => String.eqb p nodeId || negb (bool_decide (p ∈ collapsedIds (state w)))
  end.

Definition showEdgeIfVisible w (e : edge) : World R :=
  if negb (isHiddenEle w (e_source e)) && negb (isHiddenEle w (e_target e))
     && negb (e_isProjection e)
  then showElement w (e_id e)
  else w.

Definition showDescendant nodeId w id : World R :=
  if hasElementWithId (cy w) id then
    if showable w nodeId id then
      let w1 := showElement w id in
      fold_left showEdgeIfVisible (nodeEdges (cy w1) id) w1
    else w
  else w.

Definition expand w (opts : Opts R) nodeId : World R * bool :=
  if decide (nodeId ∈ collapsedIds (state w)) then
    let descendantIds := default [] (hiddenElementsMap (state w) !! nodeId) in
    let w1 := fold_left (showDescendant nodeId) descendantIds w in
    let w2 := removeProjections w1 nodeId in
    let w3 := restoreLocalPositions w2 opts nodeId in
    let w4 := withCollapsedIds w3 (collapsedIds (state w3) ∖ {[nodeId]}) in
    let w5 := withHiddenElementsMap w4 (delete nodeId (hiddenElementsMap (state w4))) in
    (withCy w5 (emit (cy w5) (EvExpand nodeId)), true)
  else (w, false).

(** *** The public API of [createCore]

    [collapse(nodes)] and [expand(nodes)] run the operation on every node
    and return the API object; with auto layout on, a successful operation
    arms the debounce timer with the node (a new call replaces the pending
    one). *)

Record Api := MkApi {
  api_world : World R;
  autoLayout : bool;
  pendingLayout : option string
}.

Definition api_step (op : World R -> string -> World R * bool) (a : Api) nodeId : Api :=
  let '(w', ok) := op (api_world a) nodeId in
  MkApi w' (autoLayout a)
        (if ok && autoLayout a then Some nodeId else pendingLayout a).

Definition api_collapse (a : Api) (nodes : list string) : Api :=
  fold_left (api_step collapse) nodes a.

Definition api_expand (opts : Opts R) (a : Api) (nodes : list string) : Api :=
  fold_left (api_step (fun w n => expand w opts n)) nodes a.

Definition api_isCollapsed (a : Api) nodeId : bool := isCollapsedNode (api_world a) nodeId.
Definition api_isHidden (a : Api) id : bool := isHiddenEle (api_world a) id.

(** [getProjectedEdges(node)]: recorded ids that still name an element. *)
Definition getProjectedEdges w nodeId : list string :=
  match projectionEdgesMap (state w) !! nodeId with
  | None => []
  | Some data => List.filter (hasElementWithId (cy w)) (projIds data)
  end.

End Engine.

(** ** The rest of the public API of [createCore] *)

Section PublicApi.
Context {R : Type} `{Number R}.

Implicit Types (w : World R) (g : Cy R) (a : @Api R) (id : string).

(** [createCore(cy, opts)]: the engine state is the one kept for the graph
    instance, no layout is pending, [autoLayout] is
    [opts.autoLayout === true]. *)
Definition createCore w (autoLayoutOption : bool) : @Api R :=
  MkApi w autoLayoutOption None.

(** [cy.nodes().filter(n => n.isParent()).toArray()] *)
Definition compounds g : list string :=
  n_id <$> List.filter (fun n => isParent g (n_id n)) (cy_nodes g).

(** [a.ancestors().length] *)
Definition depth g id : nat := length (ancestors g id).

(** [compounds.sort((a, b) => depthB - depthA)].  [Array.prototype.sort] is
    stable: the result is the list in descending depth, nodes of equal
    depth in their original order.  [insertByDepth] puts a node that came
    before all of [sorted] in front of the first node that is not deeper. *)
Fixpoint insertByDepth g (a : string) (sorted : list string) : list string :=
  match sorted with
  | [] => [a]
  | b :: rest =>
      if (depth g b <=? depth g a)%nat then a :: b :: rest
      else b :: insertByDepth g a rest
  end.

Definition sortByDepth g (nodes : list string) : list string :=
  foldr (insertByDepth g) [] nodes.

(** [collapseAll()] *)
Definition collapseAll w : World R :=
  fold_left (fun w n => fst (collapse w n)) (sortByDepth (cy w) (compounds (cy w))) w.

(** [collapsedNodes()]: [cy.nodes().filter(n => isCollapsedNode(cy, n))] *)
Definition collapsedNodes w : list string :=
  n_id <$> List.filter (fun n => isCollapsedNode w (n_id n)) (cy_nodes (cy w)).

(** [expandAll()]: the collection is filtered first, then walked. *)
Definition expandAll w (opts : Opts R) : World R :=
  fold_left (fun w n => fst (expand w opts n)) (collapsedNodes w) w.

(** Neither goes through the debounced layout. *)
Definition api_collapseAll a : @Api R :=
  MkApi (collapseAll (api_world a)) (autoLayout a) (pendingLayout a).

Definition api_expandAll (opts : Opts R) a : @Api R :=
  MkApi (expandAll (api_world a) opts) (autoLayout a) (pendingLayout a).

Definition api_collapsedNodes a : list string := collapsedNodes (api_world a).

(** [setAutoLayout(enabled)] and [isAutoLayoutEnabled()] *)
Definition setAutoLayout a (enabled : bool) : @Api R :=
  MkApi (api_world a) enabled (pendingLayout a).

Definition isAutoLayoutEnabled a : bool := autoLayout a.

End PublicApi.

(** ** Overlap detection and resolution

    [node.boundingBox()] is computed by the renderer from the position, the
    size and the label of a node; it is a parameter here. *)

Record boundingBoxOf (R : Type) := BoundingBox { x1 : R; y1 : R; x2 : R; y2 : R }.
Arguments BoundingBox {R}.
Arguments x1 {R}.
Arguments y1 {R}.
Arguments x2 {R}.
Arguments y2 {R}.

Record overlapOf (R : Type) := Overlap { overlapX : R; overlapY : R; dx : R; dy : R }.
Arguments Overlap {R}.
Arguments overlapX {R}.
Arguments overlapY {R}.
Arguments dx {R}.
Arguments dy {R}.

Section Layout.
Context {R : Type} `{Number R}.
Variable boundingBox : Cy R -> string -> boundingBoxOf R.

Implicit Types (w : World R) (g : Cy R).

(** [cy.nodes().filter(n => !isHiddenEle(cy, n))] *)
Definition getVisibleNodes w : list string :=
  n_id <$> List.filter (fun n => negb (isHiddenEle w (n_id n))) (cy_nodes (cy w)).

Definition boxesOverlap (bb1 bb2 : boundingBoxOf R) : bool :=
  negb (nltb (x2 bb1) (x1 bb2) || ngtb (x1 bb1) (x2 bb2)
        || nltb (y2 bb1) (y1 bb2) || ngtb (y1 bb1) (y2 bb2)).

Definition calculateOverlap g (n1 n2 : string) : option (overlapOf R) :=
  let bb1 := boundingBox g n1 in
  let bb2 := boundingBox g n2 in
  if negb (boxesOverlap bb1 bb2) then None
  else
    let two := nconst 2 in
    Some (Overlap
            (nsub (nmin (x2 bb1) (x2 bb2)) (nmax (x1 bb1) (x1 bb2)))
            (nsub (nmin (y2 bb1) (y2 bb2)) (nmax (y1 bb1) (y1 bb2)))
            (nsub (ndiv (nadd (x1 bb1) (x2 bb1)) two) (ndiv (nadd (x1 bb2) (x2 bb2)) two))
            (nsub (ndiv (nadd (y1 bb1) (y2 bb1)) two) (ndiv (nadd (y1 bb2) (y2 bb2)) two))).

Definition sign (d : R) : R :=
  if ngeb d (nconst 0) then nconst 1 else nconst (-1).

Definition separateNodes g (n1 n2 : string) (overlap : overlapOf R) (padding : R) : Cy R :=
  let zero := nconst 0 in
  let '(moveX, moveY) :=
    if nltb (overlapX overlap) (overlapY overlap)
    then (nmul (nadd (ndiv (overlapX overlap) (nconst 2)) padding) (sign (dx overlap)), zero)
    else (zero, nmul (nadd (ndiv (overlapY overlap) (nconst 2)) padding) (sign (dy overlap))) in
  match position g n1, position g n2 with
  | Some pos1, Some pos2 =>
      let g1 := setPosition g n1 (Point (nadd (px pos1) moveX) (nadd (py pos1) moveY)) in
      setPosition g1 n2 (Point (nsub (px pos2) moveX) (nsub (py pos2) moveY))
  | _, _ => g
  end.

(** [getVisibleNodes(cy).filter(n => !n.isParent()).toArray()] *)
Definition visibleLeaves w : list string :=
  List.filter (fun n => negb (isParent (cy w) n)) (getVisibleNodes w).

(** The [continue] of both pair loops. *)
Definition related g (ni nj : string) : bool :=
  bool_decide (nj ∈ ancestors g ni) || bool_decide (ni ∈ ancestors g nj).

(** [for (i ...) for (j = i + 1 ...)] with an early [return true]. *)
Fixpoint anyPair (test : string -> string -> bool) (nodes : list string) : bool :=
  match nodes with
  | [] => false
  | ni :: rest => existsb (test ni) rest || anyPair test rest
  end.

Definition overlapping g (ni nj : string) : bool :=
  negb (related g ni nj) && bool_decide (is_Some (calculateOverlap g ni nj)).

Definition hasOverlaps w : bool :=
  anyPair (overlapping (cy w)) (visibleLeaves w).

(** The body of the inner loop of [resolveOverlaps] for the pair
    [(nodes[i], nodes[j])]: the store and the [hasOverlap] flag. *)
Definition visitPair (padding : R) (ni : string) (acc : Cy R * bool) (nj : string)
  : Cy R * bool :=
  let '(g, hasOverlap) := acc in
  if related g ni nj then (g, hasOverlap)
  else
    match calculateOverlap g ni nj with
    | Some overlap => (separateNodes g ni nj overlap padding, true)
    | None => (g, hasOverlap)
    end.

Fixpoint visitPairs (padding : R) (nodes : list string) (acc : Cy R * bool)
  : Cy R * bool :=
  match nodes with
  | [] => acc
  | ni :: rest => visitPairs padding rest (fold_left (visitPair padding ni) rest acc)
  end.

(** One pass of the [while] loop: [hasOverlap = false], then both [for]s. *)
Definition overlapPass (padding : R) w : World R * bool :=
  let '(g, hasOverlap) := visitPairs padding (visibleLeaves w) (cy w, false) in
  (withCy w g, hasOverlap).

(** [while (hasOverlap && iterations < maxIterations)], entered with
    [hasOverlap = true]; [remaining] is [maxIterations - iterations].
    Returns the world, the last [hasOverlap] and [iterations]. *)
Fixpoint overlapLoop (padding : R) (remaining : nat) w (iterations : nat)
  : World R * bool * nat :=
  match remaining with
  | O => (w, true, iterations)
  | S remaining' =>
      let '(w1, hasOverlap) := overlapPass padding w in
      if hasOverlap then overlapLoop padding remaining' w1 (S iterations)
      else (w1, false, S iterations)
  end.

(** [opts.maxIterations || 50] *)
Definition maxIterationsOr50 (opts : Opts R) : nat :=
  match maxIterations opts with
  | Some 0 | None => 50
  | Some m => m
  end.

(** [opts.overlapPadding || 10] *)
Definition paddingOr10 (opts : Opts R) : R :=
  match overlapPadding opts with
  | Some p => if nfalsy p then nconst 10 else p
  | None => nconst 10
  end.

Definition resolveOverlaps w (opts : Opts R) : World R * bool :=
  let maxIterations := maxIterationsOr50 opts in
  let '(w1, _, iterations) := overlapLoop (paddingOr10 opts) maxIterations w O in
  if (maxIterations <=? iterations)%nat && hasOverlaps w1
  then (withCy w1 (emit (cy w1) EvLayoutResetRequired), false)
  else (w1, true).

End Layout.

(** ** Layout runs

    [runLayout] and [runLocalLayout] build the options of a layout, start
    it, and finish in the handler of its [layoutstop] event.  The layout
    algorithm belongs to Cytoscape and its extensions; here it is the
    parameter [layoutStop]: the store as it is when the layout created
    from the given options stops.  A run is one step from the call to the
    end of the handler. *)

Record layoutOptions (R : Type) := LayoutOptions {
  lo_name : string;
  lo_animate : bool;
  lo_animationDuration : N;
  lo_fit : bool;
  lo_padding : option R;
  lo_nodeDimensionsIncludeLabels : option bool;
  lo_eles : list string;
  lo_nodeSpacing : R;
  lo_edgeLength : option R
}.
Arguments LayoutOptions {R}.
Arguments lo_name {R}.
Arguments lo_animate {R}.
Arguments lo_animationDuration {R}.
Arguments lo_fit {R}.
Arguments lo_padding {R}.
Arguments lo_nodeDimensionsIncludeLabels {R}.
Arguments lo_eles {R}.
Arguments lo_nodeSpacing {R}.
Arguments lo_edgeLength {R}.

(** The options of [opts] that only the layout runs read.  [colaOptions]
    is the effect of spreading [opts.colaOptions] over the options built
    so far. *)
Record LayoutOpts (R : Type) := MkLayoutOpts {
  layoutName : option string;
  fit : option bool;
  padding : option R;
  nodeSpacing : option R;
  edgeLength : option R;
  colaOptions : layoutOptions R -> layoutOptions R
}.
Arguments MkLayoutOpts {R}.
Arguments layoutName {R}.
Arguments fit {R}.
Arguments padding {R}.
Arguments nodeSpacing {R}.
Arguments edgeLength {R}.
Arguments colaOptions {R}.

Section LayoutRuns.
Context {R : Type} `{Number R}.
Variable boundingBox : Cy R -> string -> boundingBoxOf R.
Variable layoutStop : layoutOptions R -> Cy R -> Cy R.
(** [isColaAvailable(cy)] *)
Variable colaAvailable : bool.

Implicit Types (w : World R) (g : Cy R) (opts : Opts R) (lopts : LayoutOpts R).

(** [x || d] on a number *)
Definition numberOr (x : option R) (d : Z) : R :=
  match x with
  | Some v => if nfalsy v then nconst d else v
  | None => nconst d
  end.

(** [opts.layoutName || (isColaAvailable(cy) ? 'cola' : 'cose')] *)
Definition layoutNameOr lopts : string :=
  let fallback := if colaAvailable then "cola" else "cose" in
  match layoutName lopts with
  | Some name => if String.eqb name "" then fallback else name
  | None => fallback
  end.

(** [opts.animationDuration || 200] *)
Definition durationOr200 opts : N :=
  match animationDuration opts with
  | Some d => if N.eqb d 0 then 200%N else d
  | None => 200%N
  end.

(** [opts.fit !== false] *)
Definition fitOr lopts : bool :=
  match fit lopts with Some false => false | _ => true end.

(** [a.union(b)], [a.difference(b)] on collections of ids *)
Definition collUnion (a b : list string) : list string :=
  a ++ List.filter (fun x => bool_decide (x ∉ a)) b.

Definition collDifference (a b : list string) : list string :=
  List.filter (fun x => bool_decide (x ∉ b)) a.

(** [a.edgesWith(b)]: the edges between a node of [a] and a node of [b],
    here in store order. *)
Definition edgesWith g (a b : list string) : list string :=
  e_id <$> List.filter
             (fun e => (bool_decide (e_source e ∈ a) && bool_decide (e_target e ∈ b))
                       || (bool_decide (e_source e ∈ b) && bool_decide (e_target e ∈ a)))
             (cy_edges g).

(** The node at the other end of an edge of [id]; [id] itself for a loop. *)
Definition otherEnd (id : string) (e : edge) : string :=
  if String.eqb (e_source e) id then e_target e else e_source e.

(** [node.neighborhood().nodes()] *)
Definition neighborhoodNodes g (id : string) : list string :=
  uniqBy (fun x => x) ∅ (List.filter (isNode g) (otherEnd id <$> nodeEdges g id)).

Definition runLayout w opts lopts : World R :=
  let visibleNodes := getVisibleNodes w in
  let layoutOptions :=
    colaOptions lopts
      (LayoutOptions (layoutNameOr lopts) (animate opts) (durationOr300 opts)
         (fitOr lopts) (Some (numberOr (padding lopts) 30)) (Some true)
         (collUnion visibleNodes (edgesWith (cy w) visibleNodes visibleNodes))
         (numberOr (nodeSpacing lopts) 20)
         (Some (numberOr (edgeLength lopts) 100))) in
  let g1 := layoutStop layoutOptions (cy w) in
  fst (resolveOverlaps boundingBox (withCy w g1) opts).

(** The nodes [runLocalLayout] hands to the layout. *)
Definition affectedNodes w (node : string) : list string :=
  let neighborhood :=
    List.filter (fun n => negb (isHiddenEle w n)) (neighborhoodNodes (cy w) node) in
  let affectedNodes := collUnion [node] neighborhood in
  if isParent (cy w) node
  then collUnion affectedNodes
         (List.filter (fun n => negb (isHiddenEle w n)) (children (cy w) node))
  else affectedNodes.

(** [originalPositions]: a [Map] from id to a copy of the position. *)
Definition originalPositionsOf g (unaffectedNodes : list string) : gmap string (point R) :=
  fold_left
    (fun (originalPositions : gmap string (point R)) n =>
       match position g n with
       | Some pos => <[n := pos]> originalPositions
       | None => originalPositions
       end)
    unaffectedNodes ∅.

(** The world handed to [resolveOverlaps] by the [layoutstop] handler of
    [runLocalLayout]: the layout has run, the unaffected nodes are back. *)
Definition localLayoutRestored w opts lopts (node : string) : World R :=
  let affectedNodes := affectedNodes w node in
  let unaffectedNodes := collDifference (getVisibleNodes w) affectedNodes in
  let originalPositions := originalPositionsOf (cy w) unaffectedNodes in
  let layoutOptions :=
    colaOptions lopts
      (LayoutOptions (layoutNameOr lopts) (animate opts) (durationOr200 opts)
         false None None
         (collUnion affectedNodes (edgesWith (cy w) affectedNodes affectedNodes))
         (numberOr (nodeSpacing lopts) 15)
         None) in
  let g1 := layoutStop layoutOptions (cy w) in
  withCy w
    (fold_left
       (fun g n =>
          match originalPositions !! n with
          | Some pos => setPosition g n pos
          | None => g
          end)
       unaffectedNodes g1).

Definition runLocalLayout w opts lopts (node : string) : World R :=
  if (length (affectedNodes w node) <? 2)%nat
  then fst (resolveOverlaps boundingBox w opts)
  else fst (resolveOverlaps boundingBox (localLayoutRestored w opts lopts node) opts).

(** The function handed to [debounce]: a node is always passed by the
    wrappers, so the run is a local one. *)
Definition debouncedLayoutRun w opts lopts (node : option string) : World R :=
  match node with
  | Some node => runLocalLayout w opts lopts node
  | None => runLayout w opts lopts
  end.

(** The debounce timer fires: the pending request runs and is cleared. *)
Definition timerFires opts lopts (a : @Api R) : @Api R :=
  match pendingLayout a with
  | Some node =>
      MkApi (debouncedLayoutRun (api_world a) opts lopts (Some node)) (autoLayout a) None
  | None => a
  end.

End LayoutRuns.

(** ** Vocabulary of the statements

    Well-formedness of the store, the hierarchy seen as chains of parents,
    the observations that engine steps preserve, and the intermediate
    worlds and records of [collapse] and [expand]. *)

Section Vocabulary.
Context {R : Type} `{Number R}.

Implicit Types (w : World R) (g : Cy R) (id nodeId parentId : string)
               (inside : gset string) (sc : scan) (e : edge).

(** The compound hierarchy: ids and parents, in store order. *)
Definition hierarchy g : list (string * option string) :=
  (fun n => (n_id n, n_parent n)) <$> cy_nodes g.

Definition uniqueNodeIds g : Prop := NoDup (n_id <$> cy_nodes g).
Definition uniqueEdgeIds g : Prop := NoDup (e_id <$> cy_edges g).

(** Ids are unique across nodes and edges. *)
Definition uniqueIds g : Prop :=
  NoDup ((n_id <$> cy_nodes g) ++ (e_id <$> cy_edges g)).

(** Generated projection ids start with [_proj_]; no node uses the prefix. *)
Definition reserved id : bool := String.prefix "_proj_" id.

Definition noReservedNodes g : Prop :=
  Forall (fun n => reserved (n_id n) = false) (cy_nodes g).

(** The [k]-th parent of a node. *)
Fixpoint nthParent g (k : nat) id : option string :=
  match k with
  | O => Some id
  | S k' => p ← parent g id; nthParent g k' p
  end.

(** The flag kept in [data('_hidden')] of a node. *)
Definition nodeHidden g id : option bool := n_hidden <$> getNode g id.

(** Identity, endpoints and projection tag of an edge. *)
Definition ends (e : edge) : string * string * string * bool :=
  (e_id e, e_source e, e_target e, e_isProjection e).

(** The edges of the store without their [_hidden] flag, in store order. *)
Definition edgeEnds g : list (string * string * string * bool) :=
  ends <$> cy_edges g.

(** Everything but visibility is the same in [w'] as in [w]. *)
Record onlyVisibility w w' : Prop := OnlyVisibility {
  ov_hierarchy : hierarchy (cy w') = hierarchy (cy w);
  ov_position : forall id, position (cy w') id = position (cy w) id;
  ov_edges : edgeEnds (cy w') = edgeEnds (cy w);
  ov_emitted : cy_emitted (cy w') = cy_emitted (cy w);
  ov_animations : cy_animations (cy w') = cy_animations (cy w);
  ov_collapsed : collapsedIds (state w') = collapsedIds (state w);
  ov_hiddenElements : hiddenElementsMap (state w') = hiddenElementsMap (state w);
  ov_saved : savedPositionsMap (state w') = savedPositionsMap (state w);
  ov_projections : projectionEdgesMap (state w') = projectionEdgesMap (state w)
}.

(** Both endpoints inside / exactly one endpoint inside. *)
Definition isInternal inside e : bool :=
  bool_decide (e_source e ∈ inside) && bool_decide (e_target e ∈ inside).

Definition isBoundary inside e : bool :=
  negb (Bool.eqb (bool_decide (e_source e ∈ inside)) (bool_decide (e_target e ∈ inside))).

(** What the lists of [scanEdges] hold while the scan runs. *)
Record scanInv g inside sc : Prop := ScanInv {
  si_external : forall e, e ∈ externalEdges sc ->
      e ∈ cy_edges g /\ isBoundary inside e = true /\ e_id e ∈ seenEdges sc;
  si_internal : forall e, e ∈ internalEdges sc ->
      e ∈ cy_edges g /\ isInternal inside e = true /\ e_id e ∈ seenEdges sc;
  si_seen : forall e, e ∈ cy_edges g -> e_id e ∈ seenEdges sc ->
      (isBoundary inside e = true -> e ∈ externalEdges sc)
      /\ (isInternal inside e = true -> e ∈ internalEdges sc)
}.

(** The offsets [saveLocalPositions] records. *)
Definition localsOf g (parentPos : point R) (descendants : list string)
  : gmap string (local R) :=
  fold_left
    (fun (positions : gmap string (local R)) child =>
       match position g child with
       | Some childPos =>
           <[child := Local (nsub (px childPos) (px parentPos))
                            (nsub (py childPos) (py parentPos))]> positions
       | None => positions
       end)
    descendants ∅.

(** The world [createProjections] is called on. *)
Definition beforeProjections w nodeId : World R :=
  let descendants := descendants (cy w) nodeId in
  let w1 := saveLocalPositions w nodeId descendants in
  let w2 := fold_left hideElement descendants w1 in
  let w3 := fold_left (fun w e => hideElement w (e_id e))
                      (connectedEdges (cy w2) descendants) w2 in
  withHiddenElementsMap w3 (<[nodeId := descendants]> (hiddenElementsMap (state w3))).

(** The classification and the groups computed by [collapse]. *)
Definition collapseScan w nodeId : scan :=
  let descendants := descendants (cy w) nodeId in
  scanEdges (cy (beforeProjections w nodeId))
            (descendantIdSet nodeId descendants) descendants.

Definition collapseGroups w nodeId : list (string * list edge) :=
  groupEdges (descendantIdSet nodeId (descendants (cy w) nodeId))
             (externalEdges (collapseScan w nodeId)).

(** Edge ids incident to a set of nodes. *)
Definition subtreeEdgeIds g (nodes : list string) : gset string :=
  list_to_set (e_id <$> flat_map (nodeEdges g) nodes).

(** What [collapse] has done when it reaches [createProjections]. *)
Record hiddenSubtree w nodeId (wb : World R) : Prop := HiddenSubtree {
  hs_hierarchy : hierarchy (cy wb) = hierarchy (cy w);
  hs_position : forall id, position (cy wb) id = position (cy w) id;
  hs_edges : edgeEnds (cy wb) = edgeEnds (cy w);
  hs_emitted : cy_emitted (cy wb) = cy_emitted (cy w);
  hs_animations : cy_animations (cy wb) = cy_animations (cy w);
  hs_collapsed : collapsedIds (state wb) = collapsedIds (state w);
  hs_projections : projectionEdgesMap (state wb) = projectionEdgesMap (state w);
  hs_hiddenElements :
    hiddenElementsMap (state wb)
    = <[nodeId := descendants (cy w) nodeId]> (hiddenElementsMap (state w));
  hs_saved :
    savedPositionsMap (state wb)
    = match position (cy w) nodeId with
      | Some parentPos =>
          <[nodeId := localsOf (cy w) parentPos (descendants (cy w) nodeId)]>
            (savedPositionsMap (state w))
      | None => savedPositionsMap (state w)
      end;
  hs_hiddenIds :
    hiddenIds (state wb)
    = subtreeEdgeIds (cy w) (descendants (cy w) nodeId)
      ∪ list_to_set (descendants (cy w) nodeId) ∪ hiddenIds (state w);
  hs_nodeHidden : forall id,
    id ∉ descendants (cy w) nodeId ->
    id ∉ subtreeEdgeIds (cy w) (descendants (cy w) nodeId) ->
    nodeHidden (cy wb) id = nodeHidden (cy w) id
}.

(** The store and the record that [createProjections] leaves behind. *)
Record projected w parentId (descendants : list string) (w' : World R) : Prop := Projected {
  pj_nodes :
    let sc := scanEdges (cy w) (descendantIdSet parentId descendants) descendants in
    cy_nodes (cy w')
    = cy_nodes (cy (fold_left hideElement (e_id <$> internalEdges sc) w));
  pj_hierarchy : hierarchy (cy w') = hierarchy (cy w);
  pj_position : forall id, position (cy w') id = position (cy w) id;
  pj_emitted : cy_emitted (cy w') = cy_emitted (cy w);
  pj_animations : cy_animations (cy w') = cy_animations (cy w);
  pj_collapsed : collapsedIds (state w') = collapsedIds (state w);
  pj_hiddenElements : hiddenElementsMap (state w') = hiddenElementsMap (state w);
  pj_saved : savedPositionsMap (state w') = savedPositionsMap (state w);
  pj_hiddenIds :
    let sc := scanEdges (cy w) (descendantIdSet parentId descendants) descendants in
    hiddenIds (state w') = list_to_set (e_id <$> internalEdges sc) ∪ hiddenIds (state w);
  pj_projections :
    let inside := descendantIdSet parentId descendants in
    let sc := scanEdges (cy w) inside descendants in
    let groups := groupEdges inside (externalEdges sc) in
    projectionEdgesMap (state w')
    = <[parentId := ProjData (proj_id parentId <$> seq 0 (length groups))
                             (e_id <$> externalEdges sc)]>
        (projectionEdgesMap (state w));
  pj_edges : exists old new,
    cy_edges (cy w') = old ++ new
    /\ ends <$> old = edgeEnds (cy w)
    /\ Forall (fun e => e_isProjection e = true /\ e_hidden e = false
                        /\ (e_source e = parentId \/ e_target e = parentId)
                        /\ e_id e ∉ e_id <$> cy_edges (cy w)) new
    /\ let inside := descendantIdSet parentId descendants in
       let sc := scanEdges (cy w) inside descendants in
       ((fun e => (e_source e, e_target e)) <$> new)
         `sublist_of` (projectionEnds parentId
                         <$> (fst <$> groupEdges inside (externalEdges sc)))
}.

(** The outcome of a successful [collapse]. *)
Record collapsed w nodeId (w' : World R) : Prop := Collapsed {
  cs_hierarchy : hierarchy (cy w') = hierarchy (cy w);
  cs_position : forall id, position (cy w') id = position (cy w) id;
  cs_animations : cy_animations (cy w') = cy_animations (cy w);
  cs_emitted : cy_emitted (cy w') = cy_emitted (cy w) ++ [EvCollapse nodeId];
  cs_collapsed : collapsedIds (state w') = {[nodeId]} ∪ collapsedIds (state w);
  cs_hiddenElements :
    hiddenElementsMap (state w')
    = <[nodeId := descendants (cy w) nodeId]> (hiddenElementsMap (state w));
  cs_saved :
    savedPositionsMap (state w')
    = match position (cy w) nodeId with
      | Some parentPos =>
          <[nodeId := localsOf (cy w) parentPos (descendants (cy w) nodeId)]>
            (savedPositionsMap (state w))
      | None => savedPositionsMap (state w)
      end;
  cs_projections :
    projectionEdgesMap (state w')
    = <[nodeId := ProjData (proj_id nodeId <$> seq 0 (length (collapseGroups w nodeId)))
                           (e_id <$> externalEdges (collapseScan w nodeId))]>
        (projectionEdgesMap (state w));
  cs_hiddenIds :
    hiddenIds (state w')
    = subtreeEdgeIds (cy w) (descendants (cy w) nodeId)
      ∪ list_to_set (descendants (cy w) nodeId) ∪ hiddenIds (state w);
  cs_nodeHidden : forall id,
    id ∉ descendants (cy w) nodeId ->
    id ∉ subtreeEdgeIds (cy w) (descendants (cy w) nodeId) ->
    nodeHidden (cy w') id = nodeHidden (cy w) id;
  cs_edges : exists old new,
    cy_edges (cy w') = old ++ new
    /\ ends <$> old = edgeEnds (cy w)
    /\ Forall (fun e => e_isProjection e = true /\ e_hidden e = false
                        /\ (e_source e = nodeId \/ e_target e = nodeId)
                        /\ e_id e ∉ e_id <$> cy_edges (cy w)) new
    /\ ((fun e => (e_source e, e_target e)) <$> new)
       `sublist_of` (projectionEnds nodeId <$> (fst <$> collapseGroups w nodeId))
}.

(** Visible through both sources [isHiddenEle] looks at. *)
Definition shown w id : Prop :=
  id ∉ hiddenIds (state w) /\ nodeHidden (cy w) id = Some false.

(** Nothing but projection edges is removed when the recorded ids name no node. *)
Record unprojected w nodeId (w' : World R) : Prop := Unprojected {
  up_nodes : cy_nodes (cy w') = cy_nodes (cy w);
  up_emitted : cy_emitted (cy w') = cy_emitted (cy w);
  up_animations : cy_animations (cy w') = cy_animations (cy w);
  up_collapsed : collapsedIds (state w') = collapsedIds (state w);
  up_hiddenElements : hiddenElementsMap (state w') = hiddenElementsMap (state w);
  up_saved : savedPositionsMap (state w') = savedPositionsMap (state w);
  up_hiddenIds : hiddenIds (state w') = hiddenIds (state w);
  up_projections :
    projectionEdgesMap (state w') = delete nodeId (projectionEdgesMap (state w))
}.

(** [restoreLocalPositions] writes positions (or queues animations) only. *)
Record restored w nodeId (w' : World R) : Prop := Restored {
  rs_hierarchy : hierarchy (cy w') = hierarchy (cy w);
  rs_nodeHidden : forall id, nodeHidden (cy w') id = nodeHidden (cy w) id;
  rs_edges : cy_edges (cy w') = cy_edges (cy w);
  rs_emitted : cy_emitted (cy w') = cy_emitted (cy w);
  rs_collapsed : collapsedIds (state w') = collapsedIds (state w);
  rs_hiddenElements : hiddenElementsMap (state w') = hiddenElementsMap (state w);
  rs_projections : projectionEdgesMap (state w') = projectionEdgesMap (state w);
  rs_hiddenIds : hiddenIds (state w') = hiddenIds (state w);
  rs_saved : savedPositionsMap (state w') = delete nodeId (savedPositionsMap (state w))
}.

(** Two points are close when both coordinates are, for a tolerance
    relation [close] on numbers: [close a b] reads "[a] is within tolerance
    of [b]". *)
Definition closePoint (close : R -> R -> Prop) (a b : point R) : Prop :=
  close (px a) (px b) /\ close (py a) (py b).

(** The position [restoreLocalPositions] computes for a child at [childPos]
    of a parent at [parentPos] on both sides of the round trip. *)
Definition roundTrip (parentPos childPos : point R) : point R :=
  Point (nadd (px parentPos) (nsub (px childPos) (px parentPos)))
        (nadd (py parentPos) (nsub (py childPos) (py parentPos))).

(** The descendant ids a node's collapse record refers to: the hidden
    descendant ids and the keys of the saved positions. *)
Definition recordIds w nodeId : gset string :=
  list_to_set (default [] (hiddenElementsMap (state w) !! nodeId))
  ∪ dom (default ∅ (savedPositionsMap (state w) !! nodeId)).

(** States reached from a fresh engine on store [g0] by [collapse] and
    [expand] calls. *)
Inductive reachable (g0 : Cy R) (opts : Opts R) : World R -> Prop :=
| reach_init : reachable g0 opts (MkWorld g0 initState)
| reach_collapse w nodeId :
    reachable g0 opts w -> reachable g0 opts (fst (collapse w nodeId))
| reach_expand w nodeId :
    reachable g0 opts w -> reachable g0 opts (fst (expand w opts nodeId)).

(** The invariant of reachable states: the hierarchy is the initial one,
    a record refers to descendants of its node, projection ids are
    generated ids. *)
Record engineInv (g0 : Cy R) w : Prop := EngineInv {
  ei_hierarchy : hierarchy (cy w) = hierarchy g0;
  ei_hidden : forall n l,
    hiddenElementsMap (state w) !! n = Some l -> l = descendants g0 n;
  ei_saved : forall n (m : gmap string (local R)) d,
    savedPositionsMap (state w) !! n = Some m -> is_Some (m !! d) ->
    d ∈ descendants g0 n;
  ei_projections : forall n data id,
    projectionEdgesMap (state w) !! n = Some data -> id ∈ projIds data ->
    reserved id = true
}.

(** The world after [k] passes. *)
Fixpoint afterPasses (boundingBox : Cy R -> string -> boundingBoxOf R)
    (padding : R) (k : nat) w : World R :=
  match k with
  | O => w
  | S k' => afterPasses boundingBox padding k' (fst (overlapPass boundingBox padding w))
  end.

(** Whether pass number [j + 1] finds an overlap. *)
Definition passFinds (boundingBox : Cy R -> string -> boundingBoxOf R)
    (padding : R) (j : nat) w : bool :=
  snd (overlapPass boundingBox padding (afterPasses boundingBox padding j w)).

End Vocabulary.

(** ** More vocabulary: projection ids, frames of the layout, and the
    invariants of reachable states *)

Section VocabularyMore.
Context {R : Type} `{Number R}.

Implicit Types (w : World R) (g : Cy R) (id nodeId : string).

(** No edge uses the prefix of generated projection ids. *)
Definition noReservedEdges g : Prop :=
  Forall (fun e => reserved (e_id e) = false) (cy_edges g).

(** The ids [createProjections] generates for [nodeId] are free. *)
Definition freshProjectionIds g nodeId : Prop :=
  forall k, hasElementWithId g (proj_id nodeId k) = false.

(** The projection ids recorded for a node. *)
Definition recordedProjIds w nodeId : list string :=
  match projectionEdgesMap (state w) !! nodeId with
  | Some data => projIds data
  | None => []
  end.

(** The world of [expand] after its loop over the recorded descendants. *)
Definition afterShow w nodeId : World R :=
  fold_left (showDescendant nodeId)
            (default [] (hiddenElementsMap (state w) !! nodeId)) w.

(** The position [restoreLocalPositions] leaves at [id]. *)
Definition restoredPosition w (opts : Opts R) nodeId id : option (point R) :=
  if animate opts then position (cy w) id
  else
    match savedPositionsMap (state w) !! nodeId, position (cy w) nodeId with
    | Some positions, Some parentPos =>
        match positions !! id with
        | Some lp =>
            if decide (id ∈ children (cy w) nodeId)
            then (fun _ => Point (nadd (px parentPos) (lx lp))
                                 (nadd (py parentPos) (ly lp))) <$> position (cy w) id
            else position (cy w) id
        | None => position (cy w) id
        end
    | _, _ => position (cy w) id
    end.

(** The nodes of a batch whose collapse can succeed: compound nodes that
    are not collapsed when the batch starts. *)
Definition collapsible w (n : string) : bool :=
  isParent (cy w) n && negb (isCollapsedNode w n).

End VocabularyMore.

Section VocabularyLayout.
Context {R : Type} `{Number R}.

Implicit Types (w : World R) (g : Cy R) (id : string).

(** Store [g'] differs from [g] at most in the positions of the nodes
    listed in [moved]. *)
Record positionsOnly (moved : list string) g g' : Prop := PositionsOnly {
  po_hierarchy : hierarchy g' = hierarchy g;
  po_nodeHidden : forall id, nodeHidden g' id = nodeHidden g id;
  po_edges : cy_edges g' = cy_edges g;
  po_emitted : cy_emitted g' = cy_emitted g;
  po_animations : cy_animations g' = cy_animations g;
  po_position : forall id, id ∉ moved -> position g' id = position g id
}.

End VocabularyLayout.

Section VocabularyInvariants.
Context {R : Type} `{Number R}.

Implicit Types (w : World R) (g : Cy R) (id : string).

(** A graph as Cytoscape holds it before the engine touches it: unique
    ids, no id with the prefix of generated projection ids, edges between
    nodes of the graph, no projection tag and no hidden flag. *)
Record wellFormed g : Prop := WellFormed {
  wf_ids : uniqueIds g;
  wf_nodes : noReservedNodes g;
  wf_edges : noReservedEdges g;
  wf_endpoints : forall e, e ∈ cy_edges g ->
      isNode g (e_source e) = true /\ isNode g (e_target e) = true;
  wf_plain : forall e, e ∈ cy_edges g -> e_isProjection e = false /\ e_hidden e = false;
  wf_visible : forall n, n ∈ cy_nodes g -> n_hidden n = false
}.

(** What holds of the store and of visibility at every state the engine
    reaches from a well-formed graph [g0]. *)
Record storeInv (g0 : Cy R) w : Prop := StoreInv {
  sv_ids : uniqueIds (cy w);
  sv_original :
    List.filter (fun t : string * string * string * bool => negb (reserved t.1.1.1))
                (edgeEnds (cy w))
    = edgeEnds g0;
  sv_projections : forall e, e ∈ cy_edges (cy w) -> reserved (e_id e) = true ->
      e_isProjection e = true
      /\ exists n, n ∈ collapsedIds (state w) /\ e_id e ∈ recordedProjIds w n;
  sv_edge_visible : forall e, e ∈ cy_edges g0 ->
      isHiddenEle w (e_source e) = false -> isHiddenEle w (e_target e) = false ->
      isHiddenEle w (e_id e) = false;
  sv_hidden_reason : forall x, isNode g0 x = true -> isHiddenEle w x = true ->
      exists a, a ∈ collapsedIds (state w) /\ x ∈ descendants g0 a
}.

End VocabularyInvariants.

(** ** Test fixtures

    The graphs of the repository's invariant tests, over exact rationals. *)

Module Fixtures.

Definition origin : point Q := Point 0%Q 0%Q.
Definition at_ (x y : Z) : point Q := Point (inject_Z x) (inject_Z y).

Definition mkNode (id : string) (p : option string) (pos : point Q) : node Q :=
  Node id p pos false.
Definition mkEdge (id source target : string) : edge :=
  Edge id source target false false.

Definition start (g : Cy Q) : World Q := MkWorld g initState.

Definition defaultOpts : Opts Q := MkOpts true (Some 300%N) None None.
Definition plainOpts : Opts Q := MkOpts false None None None.

(** [createTestGraph()] *)
Definition testGraph : Cy Q :=
  MkCy [ mkNode "parent1" None (at_ 50 50);
         mkNode "parent2" None origin;
         mkNode "child1" (Some "parent1") (at_ 100 200);
         mkNode "child2" (Some "parent1") origin;
         mkNode "child3" (Some "parent2") origin;
         mkNode "external1" None origin ]
       [ mkEdge "e1" "child1" "external1";
         mkEdge "e2" "child2" "external1";
         mkEdge "e3" "child3" "child1" ]
       [] [].

(** [createNestedGraph()] *)
Definition nestedGraph : Cy Q :=
  MkCy [ mkNode "grandparent" None origin;
         mkNode "parent" (Some "grandparent") origin;
         mkNode "child" (Some "parent") origin;
         mkNode "external" None origin ]
       [ mkEdge "e1" "child" "external" ]
       [] [].

(** Four levels: one more than [createNestedGraph()]. *)
Definition deepGraph : Cy Q :=
  MkCy [ mkNode "outer" None origin;
         mkNode "inner" (Some "outer") origin;
         mkNode "mid" (Some "inner") origin;
         mkNode "leaf" (Some "mid") origin ]
       [] [] [].

(** External ids that contain the key separator. *)
Definition colonGraph : Cy Q :=
  MkCy [ mkNode "P" None origin;
         mkNode "c" (Some "P") origin;
         mkNode "a" None origin;
         mkNode "a:b" None origin;
         mkNode "a:c" None origin ]
       [ mkEdge "e1" "c" "a:b";
         mkEdge "e2" "c" "a:c" ]
       [] [].

(** An edge and a loop on the compound node itself. *)
Definition parentEdgeGraph : Cy Q :=
  MkCy [ mkNode "P" None origin;
         mkNode "c" (Some "P") origin;
         mkNode "X" None origin ]
       [ mkEdge "pX" "P" "X";
         mkEdge "loop" "P" "P";
         mkEdge "cX" "c" "X";
         mkEdge "Xc" "X" "c" ]
       [] [].

(** Boxes of 10 x 10 around the position of a node. *)
Definition squareBox (g : Cy Q) (id : string) : boundingBoxOf Q :=
  match position g id with
  | Some p => BoundingBox (px p - 5)%Q (py p - 5)%Q (px p + 5)%Q (py p + 5)%Q
  | None => BoundingBox 0%Q 0%Q 0%Q 0%Q
  end.

(** Boxes that ignore the position: every pair overlaps for ever. *)
Definition fixedBox (g : Cy Q) (id : string) : boundingBoxOf Q :=
  BoundingBox 0%Q 0%Q 1%Q 1%Q.

(** Two leaves three units apart. *)
Definition overlapGraph : Cy Q :=
  MkCy [ mkNode "a" None origin; mkNode "b" None (at_ 3 0) ] [] [] [].

(** The graph of the test [edges between children of same parent are just
    hidden]. *)
Definition internalEdgeGraph : Cy Q :=
  MkCy [ mkNode "parent" None origin;
         mkNode "child1" (Some "parent") origin;
         mkNode "child2" (Some "parent") origin ]
       [ mkEdge "internal" "child1" "child2" ]
       [] [].

(** A child whose id is the first projection id of its parent. *)
Definition reservedChildGraph : Cy Q :=
  MkCy [ mkNode "P" None origin;
         mkNode "_proj_P_0" (Some "P") origin;
         mkNode "X" None origin ]
       [ mkEdge "e" "_proj_P_0" "X" ]
       [] [].

(** Over doubles: a compound node far from the origin and its child near
    the origin. *)
Definition atF (x y : Z) : point PrimFloat.float := Point (float_of_Z x) (float_of_Z y).

Definition farGraph : Cy PrimFloat.float :=
  MkCy [ Node "P" None (atF (2 ^ 70) 0) false;
         Node "c" (Some "P") (atF 100 0) false ]
       [] [] [].

Definition plainFloatOpts : Opts PrimFloat.float := MkOpts false None None None.

(** The tolerance of the repository's position test:
    [expect(Math.abs(after - before)).toBeLessThan(1)]. *)
Definition within1 (a b : PrimFloat.float) : Prop :=
  PrimFloat.ltb (PrimFloat.abs (PrimFloat.sub a b)) PrimFloat.one = true.

(** Layout options left to their defaults. *)
Definition plainLayoutOpts : LayoutOpts Q :=
  MkLayoutOpts None None None None None (fun options => options).

(** A layout that ignores [eles] and piles every node of the graph on one
    spot. *)
Definition pileLayout (options : layoutOptions Q) (g : Cy Q) : Cy Q :=
  MkCy (List.map (fun n => Node (n_id n) (n_parent n) (at_ 7 7) (n_hidden n))
                 (cy_nodes g))
       (cy_edges g) (cy_emitted g) (cy_animations g).

End Fixtures.

(** ** Invalid operations and idempotence *)

Section Controller.
Context {R : Type} `{Number R}.

Implicit Types (w : World R) (g : Cy R) (id nodeId : string).

Lemma collapse_not_parent w nodeId :
  isParent (cy w) nodeId = false -> collapse w nodeId = (w, false).
Proof. intros Hp. unfold collapse. now rewrite Hp. Qed.

Lemma collapse_already_collapsed w nodeId :
  isCollapsedNode w nodeId = true -> collapse w nodeId = (w, false).
Proof.
  unfold isCollapsedNode. intros Hc%bool_decide_eq_true.
  unfold collapse. destruct (negb (isParent (cy w) nodeId)); [reflexivity|].
  now destruct (decide (nodeId ∈ collapsedIds (state w))).
Qed.

Lemma expand_not_collapsed w opts nodeId :
  isCollapsedNode w nodeId = false -> expand w opts nodeId = (w, false).
Proof.
  unfold isCollapsedNode. intros Hc%bool_decide_eq_false.
  unfold expand. now destruct (decide (nodeId ∈ collapsedIds (state w))).
Qed.

(** A successful [collapse] leaves the node in the collapsed set. *)
Lemma collapse_true_collapsed w nodeId w' :
  collapse w nodeId = (w', true) -> isCollapsedNode w' nodeId = true.
Proof.
  unfold collapse.
  destruct (negb (isParent (cy w) nodeId)); [discriminate|].
  destruct (decide (nodeId ∈ collapsedIds (state w))); [discriminate|].
  intros [= <-]. unfold isCollapsedNode. apply bool_decide_eq_true. simpl.
  set_solver.
Qed.

Lemma collapse_false_same w nodeId w' :
  collapse w nodeId = (w', false) -> w' = w.
Proof.
  unfold collapse.
  destruct (negb (isParent (cy w) nodeId)); [now intros [= <-]|].
  destruct (decide (nodeId ∈ collapsedIds (state w))); [now intros [= <-]|].
  discriminate.
Qed.

Lemma api_collapse_invalid (a : Api) nodeId :
  collapse (api_world a) nodeId = (api_world a, false) ->
  api_collapse a [nodeId] = a.
Proof.
  intros Hc. unfold api_collapse, api_step. simpl. rewrite Hc. simpl.
  now destruct a.
Qed.

Lemma api_expand_invalid opts (a : Api) nodeId :
  expand (api_world a) opts nodeId = (api_world a, false) ->
  api_expand opts a [nodeId] = a.
Proof.
  intros Hc. unfold api_expand, api_step. simpl. rewrite Hc. simpl.
  now destruct a.
Qed.

(** C6.  Invalid operations are no-ops that return [false]: [collapse] of a
    node without children or of a node that is already collapsed, and
    [expand] of a node that is not collapsed, return the world they were
    given (graph and engine state: hidden set, collapsed set, saved
    positions, projection records) together with [false]; the functions are
    total, so nothing is raised.  For a leaf that is not collapsed,
    [isCollapsed] is still false afterwards.  The public wrappers run the
    same operations and leave the world unchanged as well. *)
Theorem invalid_operations_are_noops w opts nodeId :
  (isParent (cy w) nodeId = false \/ isCollapsedNode w nodeId = true ->
     collapse w nodeId = (w, false))
  /\ (isCollapsedNode w nodeId = false -> expand w opts nodeId = (w, false))
  /\ (isParent (cy w) nodeId = false -> isCollapsedNode w nodeId = false ->
        snd (collapse w nodeId) = false
        /\ isCollapsedNode (fst (collapse w nodeId)) nodeId = false)
  /\ (forall a : Api, api_world a = w ->
        (isParent (cy w) nodeId = false \/ isCollapsedNode w nodeId = true ->
           api_collapse a [nodeId] = a)
        /\ (isCollapsedNode w nodeId = false -> api_expand opts a [nodeId] = a)).
Proof.
  assert (Hinvalid : isParent (cy w) nodeId = false \/ isCollapsedNode w nodeId = true ->
                     collapse w nodeId = (w, false)).
  { intros [Hp|Hc]; [now apply collapse_not_parent | now apply collapse_already_collapsed]. }
  split; [exact Hinvalid|].
  split; [apply expand_not_collapsed|].
  split.
  - intros Hp Hc. now rewrite (collapse_not_parent _ _ Hp).
  - intros a Ha. split.
    + intros Hdis. apply api_collapse_invalid. rewrite Ha. now apply Hinvalid.
    + intros Hc. apply api_expand_invalid. rewrite Ha. now apply expand_not_collapsed.
Qed.

(** C7.  [collapse] is idempotent: a second [collapse] of the same node
    right after the first returns [false] and the very world the first call
    produced, so the hidden set and the projection records (and everything
    else) are those of a single call. *)
Theorem collapse_idempotent w nodeId :
  let w1 := fst (collapse w nodeId) in
  collapse w1 nodeId = (w1, false)
  /\ hiddenIds (state (fst (collapse w1 nodeId))) = hiddenIds (state w1)
  /\ projectionEdgesMap (state (fst (collapse w1 nodeId)))
     = projectionEdgesMap (state w1)
  /\ getProjectedEdges (fst (collapse w1 nodeId)) nodeId = getProjectedEdges w1 nodeId.
Proof.
  intros w1.
  assert (Hstep : collapse w1 nodeId = (w1, false)).
  { subst w1. destruct (collapse w nodeId) as [w' [|]] eqn:Hc; simpl.
    - apply collapse_already_collapsed. eapply collapse_true_collapsed; eauto.
    - apply collapse_false_same in Hc as Heq. subst w'. exact Hc. }
  rewrite Hstep. simpl. auto.
Qed.

End Controller.

(** ** Facts about the store *)

Lemma fold_left_inv {A B} (P : A -> Prop) (f : A -> B -> A) (l : list B) (a : A) :
  (forall a b, b ∈ l -> P a -> P (f a b)) -> P a -> P (fold_left f l a).
Proof.
  revert a. induction l as [|b l IH]; intros a Hstep Ha; simpl; [exact Ha|].
  apply IH.
  - intros a' b' Hb'. apply Hstep. now right.
  - apply Hstep; [left | exact Ha].
Qed.

Lemma find_map_key {A} (key : A -> string) (f : A -> A) (l : list A) id :
  (forall x, key (f x) = key x) ->
  List.find (fun x => String.eqb (key x) id) (List.map f l)
  = f <$> List.find (fun x => String.eqb (key x) id) l.
Proof.
  intros Hkey. induction l as [|x l IH]; simpl; [reflexivity|].
  rewrite Hkey. destruct (String.eqb (key x) id); [reflexivity | exact IH].
Qed.

Lemma find_some_key {A} (key : A -> string) (l : list A) id x :
  List.find (fun x => String.eqb (key x) id) l = Some x -> x ∈ l /\ key x = id.
Proof.
  intros Hf. apply List.find_some in Hf as [Hin Heq].
  split; [now apply list_elem_of_In | now apply String.eqb_eq].
Qed.

Lemma find_unique_key {A} (key : A -> string) (l : list A) x :
  NoDup (key <$> l) -> x ∈ l ->
  List.find (fun y => String.eqb (key y) (key x)) l = Some x.
Proof.
  induction l as [|y l IH]; intros Hnd Hin; [now apply elem_of_nil in Hin|].
  simpl in *. apply NoDup_cons in Hnd as [Hy Hnd].
  apply elem_of_cons in Hin as [->|Hin].
  - now rewrite String.eqb_refl.
  - destruct (String.eqb (key y) (key x)) eqn:Heq.
    + apply String.eqb_eq in Heq. exfalso. apply Hy. rewrite Heq.
      now apply list_elem_of_fmap_2.
    + now apply IH.
Qed.

Lemma elem_of_uniqBy {A} (key : A -> string) (seen : gset string) (l : list A) x :
  x ∈ uniqBy key seen l -> x ∈ l /\ key x ∉ seen.
Proof.
  revert seen. induction l as [|y l IH]; intros seen; simpl.
  - intros Hx. now apply elem_of_nil in Hx.
  - destruct (decide (key y ∈ seen)) as [Hs|Hs].
    + intros Hx. apply IH in Hx as [Hx Hk]. split; [now right | exact Hk].
    + intros [->|Hx]%elem_of_cons.
      * split; [left | exact Hs].
      * apply IH in Hx as [Hx Hk]. split; [now right | set_solver].
Qed.

Lemma uniqBy_keys {A} (key : A -> string) (seen : gset string) (l : list A) x :
  x ∈ l -> key x ∉ seen -> key x ∈ key <$> uniqBy key seen l.
Proof.
  revert seen. induction l as [|y l IH]; intros seen Hx Hk.
  - now apply elem_of_nil in Hx.
  - simpl. destruct (decide (key y ∈ seen)) as [Hs|Hs].
    + apply elem_of_cons in Hx as [->|Hx]; [contradiction | now apply IH].
    + rewrite fmap_cons. destruct (decide (key x = key y)) as [->|Hne]; [left|].
      right. apply elem_of_cons in Hx as [->|Hx]; [contradiction|].
      apply IH; [exact Hx | set_solver].
Qed.

Lemma elem_of_uniq_ids (l : list string) x :
  x ∈ uniqBy (fun y => y) ∅ l <-> x ∈ l.
Proof.
  split.
  - intros Hx. now apply elem_of_uniqBy in Hx as [Hx _].
  - intros Hx. pose proof (uniqBy_keys (fun y => y) ∅ l x Hx) as Hk.
    rewrite list_fmap_id in Hk. apply Hk. set_solver.
Qed.

Lemma NoDup_uniqBy {A} (key : A -> string) (seen : gset string) (l : list A) :
  NoDup (key <$> uniqBy key seen l).
Proof.
  revert seen. induction l as [|y l IH]; intros seen; simpl; [constructor|].
  destruct (decide (key y ∈ seen)) as [Hs|Hs]; [apply IH|].
  rewrite fmap_cons. apply NoDup_cons. split; [|apply IH].
  intros (z & Hz & Hin)%list_elem_of_fmap.
  apply elem_of_uniqBy in Hin as [_ Hk]. rewrite <- Hz in Hk. set_solver.
Qed.

Section StoreFacts.
Context {R : Type} `{Number R}.

Implicit Types (g : Cy R) (id : string).

Lemma proj_id_reserved parentId k : reserved (proj_id parentId k) = true.
Proof. unfold reserved, proj_id. simpl. now destruct (_ +:+ _). Qed.

Lemma uniqueIds_nodes g : uniqueIds g -> uniqueNodeIds g.
Proof. intros Hu. now apply NoDup_app in Hu as (Hn & _ & _). Qed.

Lemma uniqueIds_edges g : uniqueIds g -> uniqueEdgeIds g.
Proof. intros Hu. now apply NoDup_app in Hu as (_ & _ & He). Qed.

Lemma getNode_Some g id n : getNode g id = Some n -> n ∈ cy_nodes g /\ n_id n = id.
Proof. apply find_some_key. Qed.

Lemma getEdge_Some g id e : getEdge g id = Some e -> e ∈ cy_edges g /\ e_id e = id.
Proof. apply find_some_key. Qed.

Lemma getNode_unique g n :
  uniqueNodeIds g -> n ∈ cy_nodes g -> getNode g (n_id n) = Some n.
Proof. apply (find_unique_key n_id). Qed.

Lemma getEdge_unique g e :
  uniqueEdgeIds g -> e ∈ cy_edges g -> getEdge g (e_id e) = Some e.
Proof. apply (find_unique_key e_id). Qed.

Lemma getNode_None g id : getNode g id = None <-> id ∉ n_id <$> cy_nodes g.
Proof.
  unfold getNode. split.
  - intros Hf (n & -> & Hin)%list_elem_of_fmap.
    apply list_elem_of_In in Hin.
    pose proof (List.find_none _ _ Hf _ Hin) as Hn. simpl in Hn.
    now rewrite String.eqb_refl in Hn.
  - intros Hid. destruct (List.find _ _) eqn:Hf; [|reflexivity].
    apply find_some_key in Hf as [Hin <-]. exfalso. apply Hid.
    now apply list_elem_of_fmap_2.
Qed.

Lemma isNode_true g id : isNode g id = true <-> id ∈ n_id <$> cy_nodes g.
Proof.
  unfold isNode. rewrite bool_decide_eq_true. split.
  - intros [n Hn]. apply getNode_Some in Hn as [Hin <-].
    now apply list_elem_of_fmap_2.
  - intros Hid. destruct (getNode g id) eqn:Hg; [eauto|].
    now apply getNode_None in Hg.
Qed.

Lemma isEdge_true g id : isEdge g id = true <-> id ∈ e_id <$> cy_edges g.
Proof.
  unfold isEdge. rewrite bool_decide_eq_true. split.
  - intros [e He]. apply getEdge_Some in He as [Hin <-].
    now apply list_elem_of_fmap_2.
  - intros (e & -> & Hin)%list_elem_of_fmap. unfold getEdge.
    destruct (List.find _ _) eqn:Hf; [eauto|].
    apply list_elem_of_In in Hin.
    pose proof (List.find_none _ _ Hf _ Hin) as Hn. simpl in Hn.
    now rewrite String.eqb_refl in Hn.
Qed.

Lemma elem_of_children g id c :
  c ∈ children g id <-> exists n, n ∈ cy_nodes g /\ n_id n = c /\ n_parent n = Some id.
Proof.
  unfold children. rewrite list_elem_of_fmap. split.
  - intros (n & -> & Hin). apply list_elem_of_In, List.filter_In in Hin as [Hin Hp].
    apply bool_decide_eq_true in Hp. exists n. now rewrite list_elem_of_In.
  - intros (n & Hin & <- & Hp). exists n. split; [reflexivity|].
    apply list_elem_of_In, List.filter_In. rewrite <- list_elem_of_In.
    split; [exact Hin | now apply bool_decide_eq_true].
Qed.

Lemma children_parent g id c :
  uniqueNodeIds g -> (c ∈ children g id <-> parent g c = Some id).
Proof.
  intros Hu. rewrite elem_of_children. unfold parent. split.
  - intros (n & Hin & <- & Hp). now rewrite (getNode_unique g n Hu Hin).
  - destruct (getNode g c) as [n|] eqn:Hg; simpl; [|discriminate].
    intros Hp. apply getNode_Some in Hg as [Hin Hid]. eauto.
Qed.

Lemma children_isNode g id c : c ∈ children g id -> isNode g c = true.
Proof.
  intros (n & Hin & <- & _)%elem_of_children. apply isNode_true.
  now apply list_elem_of_fmap_2.
Qed.

Lemma NoDup_children g id : uniqueNodeIds g -> NoDup (children g id).
Proof.
  unfold uniqueNodeIds, children. generalize (cy_nodes g) as l.
  induction l as [|n l IH]; simpl; intros Hnd; [constructor|].
  apply NoDup_cons in Hnd as [Hn Hnd].
  destruct (bool_decide (n_parent n = Some id)); simpl; [|now apply IH].
  apply NoDup_cons. split; [|now apply IH].
  intros (m & Hm & Hin)%list_elem_of_fmap. apply Hn. rewrite Hm.
  apply list_elem_of_fmap_2.
  now apply list_elem_of_In, List.filter_In in Hin as [Hin%list_elem_of_In _].
Qed.

Lemma isParent_true g id : isParent g id = true <-> exists c, c ∈ children g id.
Proof.
  unfold isParent. destruct (children g id) as [|c l]; split.
  - discriminate.
  - intros [c Hc]. now apply elem_of_nil in Hc.
  - intros _. exists c. left.
  - reflexivity.
Qed.

End StoreFacts.

(** ** The hierarchy: descendants as chains of parents *)

Section Hierarchy.
Context {R : Type} `{Number R}.

Implicit Types (g : Cy R) (id : string).

Lemma nthParent_add g a b id :
  nthParent g (a + b) id = q ← nthParent g a id; nthParent g b q.
Proof.
  revert id. induction a as [|a IH]; intros id; simpl; [reflexivity|].
  destruct (parent g id); simpl; [apply IH | reflexivity].
Qed.

Lemma nthParent_snoc g k id :
  nthParent g (S k) id = q ← nthParent g k id; parent g q.
Proof.
  replace (S k) with (k + 1) by lia. rewrite nthParent_add.
  destruct (nthParent g k id) as [q|]; simpl; [|reflexivity].
  now destruct (parent g q).
Qed.

Lemma elem_of_flat_map {A B} (f : A -> list B) (l : list A) y :
  y ∈ flat_map f l <-> exists x, x ∈ l /\ y ∈ f x.
Proof.
  rewrite list_elem_of_In, in_flat_map. split; intros (x & Hx & Hy); exists x;
    rewrite ?list_elem_of_In in *; auto.
Qed.

Lemma descendants_go_spec g fuel id d :
  uniqueNodeIds g ->
  d ∈ descendants_go g fuel (children g id)
  <-> exists k, k < fuel /\ nthParent g (S k) d = Some id.
Proof.
  intros Hu. revert id d.
  induction fuel as [|fuel IH]; intros id d; cbn [descendants_go].
  - split; [intros Hd; now apply elem_of_nil in Hd | intros (k & Hk & _); lia].
  - rewrite elem_of_flat_map. split.
    + intros (c & Hc & Hd). apply children_parent in Hc; [|exact Hu].
      apply elem_of_cons in Hd as [->|Hd].
      * exists 0. split; [lia|]. simpl. now rewrite Hc.
      * apply IH in Hd as (k & Hk & Hn). exists (S k). split; [lia|].
        rewrite nthParent_snoc, Hn. exact Hc.
    + intros (k & Hk & Hn). rewrite nthParent_snoc in Hn.
      destruct (nthParent g k d) as [q|] eqn:Hq; simpl in Hn; [|discriminate].
      exists q. split; [now apply children_parent|].
      destruct k as [|k].
      * simpl in Hq. injection Hq as ->. left.
      * right. apply IH. exists k. split; [lia | exact Hq].
Qed.

Lemma descendants_spec g id d :
  uniqueNodeIds g ->
  d ∈ descendants g id
  <-> exists k, k < length (cy_nodes g) /\ nthParent g (S k) d = Some id.
Proof.
  intros Hu. unfold descendants. rewrite elem_of_uniq_ids.
  now apply descendants_go_spec.
Qed.

Lemma NoDup_descendants g id : NoDup (descendants g id).
Proof.
  unfold descendants.
  pose proof (NoDup_uniqBy (fun x : string => x) ∅
                (descendants_go g (length (cy_nodes g)) (children g id))) as Hnd.
  now rewrite list_fmap_id in Hnd.
Qed.

(** The parent of a descendant is the node itself or another descendant. *)
Lemma descendant_parent g id d :
  uniqueNodeIds g -> d ∈ descendants g id ->
  exists p, parent g d = Some p /\ (p = id \/ p ∈ descendants g id).
Proof.
  intros Hu (k & Hk & Hn)%descendants_spec; [|exact Hu]. simpl in Hn.
  destruct (parent g d) as [p|] eqn:Hp; simpl in Hn; [|discriminate].
  exists p. split; [reflexivity|].
  destruct k as [|k]; simpl in Hn.
  - left. congruence.
  - right. apply descendants_spec; [exact Hu|]. exists k. split; [lia | exact Hn].
Qed.

Lemma descendants_isNode g id d :
  uniqueNodeIds g -> d ∈ descendants g id -> isNode g d = true.
Proof.
  intros Hu (p & Hp & _)%descendant_parent; [|exact Hu].
  unfold parent in Hp. unfold isNode. apply bool_decide_eq_true.
  destruct (getNode g d); [eauto | discriminate].
Qed.

Lemma children_descendants g id c :
  uniqueNodeIds g -> c ∈ children g id -> c ∈ descendants g id.
Proof.
  intros Hu Hc. apply descendants_spec; [exact Hu|]. exists 0. split.
  - apply elem_of_children in Hc as (n & Hin & _).
    destruct (cy_nodes g); [now apply elem_of_nil in Hin | simpl; lia].
  - simpl. apply children_parent in Hc; [|exact Hu]. now rewrite Hc.
Qed.

(** Two nodes with a common descendant are nested. *)
Lemma descendants_nested g n m d :
  uniqueNodeIds g -> n <> m ->
  d ∈ descendants g n -> d ∈ descendants g m ->
  m ∈ descendants g n \/ n ∈ descendants g m.
Proof.
  intros Hu Hne (k & Hk & Hn)%descendants_spec (j & Hj & Hm)%descendants_spec;
    try exact Hu.
  destruct (Nat.lt_trichotomy k j) as [Hlt|[->|Hlt]].
  - right. apply descendants_spec; [exact Hu|]. exists (j - k - 1). split; [lia|].
    replace (S j) with (S k + S (j - k - 1)) in Hm by lia.
    rewrite nthParent_add, Hn in Hm. exact Hm.
  - congruence.
  - left. apply descendants_spec; [exact Hu|]. exists (k - j - 1). split; [lia|].
    replace (S k) with (S j + S (k - j - 1)) in Hn by lia.
    rewrite nthParent_add, Hm in Hn. exact Hn.
Qed.

(** Everything above depends on the hierarchy only. *)
Lemma hierarchy_getNode g g' id :
  hierarchy g = hierarchy g' ->
  (fun n => (n_id n, n_parent n)) <$> getNode g id
  = (fun n => (n_id n, n_parent n)) <$> getNode g' id.
Proof.
  unfold hierarchy, getNode.
  generalize (cy_nodes g') as l'. generalize (cy_nodes g) as l.
  induction l as [|n l IH]; intros [|n' l'] Heq; try discriminate; [reflexivity|].
  simpl in *. injection Heq as Hid Hp Hl. rewrite Hid.
  destruct (String.eqb (n_id n') id); simpl; [now rewrite Hid, Hp | now apply IH].
Qed.

Lemma hierarchy_parent g g' id :
  hierarchy g = hierarchy g' -> parent g id = parent g' id.
Proof.
  intros Hh. unfold parent. pose proof (hierarchy_getNode g g' id Hh) as Hn.
  destruct (getNode g id), (getNode g' id); simpl in *; congruence.
Qed.

Lemma hierarchy_isNode g g' id :
  hierarchy g = hierarchy g' -> isNode g id = isNode g' id.
Proof.
  intros Hh. unfold isNode. pose proof (hierarchy_getNode g g' id Hh) as Hn.
  destruct (getNode g id), (getNode g' id); simpl in *; try discriminate;
    reflexivity.
Qed.

Lemma hierarchy_children g g' id :
  hierarchy g = hierarchy g' -> children g id = children g' id.
Proof.
  unfold hierarchy, children.
  generalize (cy_nodes g') as l'. generalize (cy_nodes g) as l.
  induction l as [|n l IH]; intros [|n' l'] Heq; try discriminate; [reflexivity|].
  simpl in *. injection Heq as Hid Hp Hl. rewrite Hp.
  destruct (bool_decide (n_parent n' = Some id)); simpl;
    [rewrite Hid; f_equal|]; now apply IH.
Qed.

Lemma hierarchy_length g g' :
  hierarchy g = hierarchy g' -> length (cy_nodes g) = length (cy_nodes g').
Proof.
  intros Hh. apply (f_equal length) in Hh. unfold hierarchy in Hh.
  now rewrite !length_fmap in Hh.
Qed.

Lemma hierarchy_descendants g g' id :
  hierarchy g = hierarchy g' -> descendants g id = descendants g' id.
Proof.
  intros Hh. unfold descendants.
  rewrite (hierarchy_length g g' Hh), (hierarchy_children g g' id Hh). f_equal.
  generalize (children g' id) as l.
  induction (length (cy_nodes g')) as [|fuel IH]; intros l; simpl; [reflexivity|].
  apply flat_map_ext. intros c. now rewrite (hierarchy_children g g' c Hh), IH.
Qed.

Lemma hierarchy_isParent g g' id :
  hierarchy g = hierarchy g' -> isParent g id = isParent g' id.
Proof. intros Hh. unfold isParent. now rewrite (hierarchy_children g g' id Hh). Qed.

Lemma hierarchy_ids g : fst <$> hierarchy g = n_id <$> cy_nodes g.
Proof.
  unfold hierarchy. rewrite <- list_fmap_compose.
  now apply list_fmap_ext.
Qed.

Lemma hierarchy_uniqueNodeIds g g' :
  hierarchy g = hierarchy g' -> uniqueNodeIds g -> uniqueNodeIds g'.
Proof.
  unfold uniqueNodeIds. intros Hh. now rewrite <- !hierarchy_ids, Hh.
Qed.

Lemma hierarchy_noReservedNodes g g' :
  hierarchy g = hierarchy g' -> noReservedNodes g -> noReservedNodes g'.
Proof.
  unfold noReservedNodes. intros Hh Hr.
  apply Forall_fmap with (f := n_id) (P := fun id => reserved id = false).
  rewrite <- hierarchy_ids, <- Hh, hierarchy_ids. now apply Forall_fmap.
Qed.

End Hierarchy.

(** ** What the store updates change *)

Section Updates.
Context {R : Type} `{Number R}.

Implicit Types (g : Cy R) (id : string).

Lemma same_nodes_hierarchy g g' : cy_nodes g' = cy_nodes g -> hierarchy g' = hierarchy g.
Proof. unfold hierarchy. now intros ->. Qed.

Lemma same_nodes_getNode g g' id : cy_nodes g' = cy_nodes g -> getNode g' id = getNode g id.
Proof. unfold getNode. now intros ->. Qed.

Lemma same_nodes_position g g' id :
  cy_nodes g' = cy_nodes g -> position g' id = position g id.
Proof. unfold position, getNode. now intros ->. Qed.

Lemma same_nodes_nodeHidden g g' id :
  cy_nodes g' = cy_nodes g -> nodeHidden g' id = nodeHidden g id.
Proof. unfold nodeHidden, getNode. now intros ->. Qed.

Lemma hierarchy_setPosition g id p : hierarchy (setPosition g id p) = hierarchy g.
Proof.
  unfold hierarchy, setPosition. simpl. rewrite <- list_fmap_compose.
  apply list_fmap_ext. intros i n _. simpl. now destruct (String.eqb (n_id n) id).
Qed.

Lemma hierarchy_setHiddenData g id b : hierarchy (setHiddenData g id b) = hierarchy g.
Proof.
  unfold hierarchy, setHiddenData. simpl. rewrite <- list_fmap_compose.
  apply list_fmap_ext. intros i n _. simpl. now destruct (String.eqb (n_id n) id).
Qed.

Lemma edgeEnds_setHiddenData g id b : edgeEnds (setHiddenData g id b) = edgeEnds g.
Proof.
  unfold edgeEnds, setHiddenData. simpl. rewrite <- list_fmap_compose.
  apply list_fmap_ext. intros i e _. simpl. now destruct (String.eqb (e_id e) id).
Qed.

Lemma getNode_setPosition g id p id' :
  getNode (setPosition g id p) id'
  = (fun n => if String.eqb (n_id n) id
              then Node (n_id n) (n_parent n) p (n_hidden n) else n) <$> getNode g id'.
Proof.
  unfold getNode, setPosition. simpl. apply (find_map_key n_id).
  intros n. now destruct (String.eqb (n_id n) id).
Qed.

Lemma getNode_setHiddenData g id b id' :
  getNode (setHiddenData g id b) id'
  = (fun n => if String.eqb (n_id n) id
              then Node (n_id n) (n_parent n) (n_position n) b else n) <$> getNode g id'.
Proof.
  unfold getNode, setHiddenData. simpl. apply (find_map_key n_id).
  intros n. now destruct (String.eqb (n_id n) id).
Qed.

Lemma position_setPosition g id p id' :
  position (setPosition g id p) id'
  = if decide (id' = id) then (fun _ => p) <$> position g id' else position g id'.
Proof.
  unfold position. rewrite getNode_setPosition.
  destruct (getNode g id') as [n|] eqn:Hn; simpl; [|now destruct (decide _)].
  apply getNode_Some in Hn as [_ Hid]. rewrite Hid.
  destruct (decide (id' = id)) as [->|Hne].
  - now rewrite String.eqb_refl.
  - apply String.eqb_neq in Hne. now rewrite Hne.
Qed.

Lemma position_setHiddenData g id b id' :
  position (setHiddenData g id b) id' = position g id'.
Proof.
  unfold position. rewrite getNode_setHiddenData.
  destruct (getNode g id') as [n|]; simpl; [|reflexivity].
  now destruct (String.eqb (n_id n) id).
Qed.

Lemma nodeHidden_setPosition g id p id' :
  nodeHidden (setPosition g id p) id' = nodeHidden g id'.
Proof.
  unfold nodeHidden. rewrite getNode_setPosition.
  destruct (getNode g id') as [n|]; simpl; [|reflexivity].
  now destruct (String.eqb (n_id n) id).
Qed.

Lemma nodeHidden_setHiddenData g id b id' :
  nodeHidden (setHiddenData g id b) id'
  = if decide (id' = id) then (fun _ => b) <$> nodeHidden g id' else nodeHidden g id'.
Proof.
  unfold nodeHidden. rewrite getNode_setHiddenData.
  destruct (getNode g id') as [n|] eqn:Hn; simpl; [|now destruct (decide _)].
  apply getNode_Some in Hn as [_ Hid]. rewrite Hid.
  destruct (decide (id' = id)) as [->|Hne].
  - now rewrite String.eqb_refl.
  - apply String.eqb_neq in Hne. now rewrite Hne.
Qed.

Lemma nodes_addProjectionEdge g id s t : cy_nodes (addProjectionEdge g id s t) = cy_nodes g.
Proof. unfold addProjectionEdge. now destruct (_ || _ || _). Qed.

Lemma nodes_remove g id : isNode g id = false -> cy_nodes (remove g id) = cy_nodes g.
Proof. intros Hn. unfold remove. now rewrite Hn. Qed.

Lemma dataHidden_node g id b : nodeHidden g id = Some b -> dataHidden g id = b.
Proof.
  unfold nodeHidden, dataHidden. destruct (getNode g id); simpl; congruence.
Qed.

Lemma isNode_nodeHidden g id : isNode g id = true <-> is_Some (nodeHidden g id).
Proof.
  unfold isNode, nodeHidden. rewrite bool_decide_eq_true.
  destruct (getNode g id); simpl; split; intros [? ?]; eauto; discriminate.
Qed.

Lemma isNode_position g id : isNode g id = true <-> is_Some (position g id).
Proof.
  unfold isNode, position. rewrite bool_decide_eq_true.
  destruct (getNode g id); simpl; split; intros [? ?]; eauto; discriminate.
Qed.

(** Edges seen through their ends. *)
Lemma nodeEdges_ends g g' id :
  edgeEnds g' = edgeEnds g -> ends <$> nodeEdges g' id = ends <$> nodeEdges g id.
Proof.
  unfold edgeEnds, nodeEdges.
  generalize (cy_edges g) as l. generalize (cy_edges g') as l'.
  induction l' as [|e' l' IH]; intros [|e l] Heq; try discriminate; [reflexivity|].
  simpl in *. injection Heq as Hid Hs Ht Hp Hl.
  unfold touches. rewrite Hs, Ht.
  destruct (_ || _); simpl; [f_equal; [unfold ends; congruence|]|]; now apply IH.
Qed.

Lemma elem_of_nodeEdges g id e :
  e ∈ nodeEdges g id <-> e ∈ cy_edges g /\ touches e id = true.
Proof.
  unfold nodeEdges. now rewrite list_elem_of_In, List.filter_In, <- list_elem_of_In.
Qed.

Lemma edgeEnds_elem g g' e' :
  edgeEnds g' = edgeEnds g -> e' ∈ cy_edges g' ->
  exists e, e ∈ cy_edges g /\ ends e = ends e'.
Proof.
  intros Heq Hin.
  assert (Hends : ends e' ∈ edgeEnds g').
  { unfold edgeEnds. now apply (list_elem_of_fmap_2 ends). }
  rewrite Heq in Hends. unfold edgeEnds in Hends.
  apply list_elem_of_fmap in Hends as (e & He & Hin'). exists e. now split.
Qed.

Lemma edgeEnds_ids g : (fun x => x.1.1.1) <$> edgeEnds g = e_id <$> cy_edges g.
Proof.
  unfold edgeEnds. rewrite <- list_fmap_compose. now apply list_fmap_ext.
Qed.

Lemma edgeEnds_uniqueEdgeIds g g' :
  edgeEnds g' = edgeEnds g -> uniqueEdgeIds g -> uniqueEdgeIds g'.
Proof. unfold uniqueEdgeIds. intros Heq. now rewrite <- !edgeEnds_ids, Heq. Qed.

Lemma touches_ends e e' id : ends e = ends e' -> touches e id = touches e' id.
Proof. unfold ends, touches. now intros [= _ -> -> _]. Qed.

End Updates.

(** ** What the engine steps change *)

Section Steps.
Context {R : Type} `{Number R}.

Implicit Types (w : World R) (g : Cy R) (id nodeId parentId : string).

Lemma onlyVisibility_refl w : onlyVisibility w w.
Proof. now constructor. Qed.

Lemma onlyVisibility_trans w1 w2 w3 :
  onlyVisibility w1 w2 -> onlyVisibility w2 w3 -> onlyVisibility w1 w3.
Proof.
  intros [] []. constructor; congruence.
Qed.

Lemma hideElement_onlyVisibility w id : onlyVisibility w (hideElement w id).
Proof.
  constructor; simpl; try reflexivity.
  - apply hierarchy_setHiddenData.
  - intros id'. apply position_setHiddenData.
  - apply edgeEnds_setHiddenData.
Qed.

Lemma showElement_onlyVisibility w id : onlyVisibility w (showElement w id).
Proof.
  constructor; simpl; try reflexivity.
  - apply hierarchy_setHiddenData.
  - intros id'. apply position_setHiddenData.
  - apply edgeEnds_setHiddenData.
Qed.

Lemma fold_left_fmap_arg {A B C} (f : A -> C -> A) (k : B -> C) (l : list B) (a : A) :
  fold_left (fun a b => f a (k b)) l a = fold_left f (k <$> l) a.
Proof. revert a. induction l as [|b l IH]; intros a; simpl; [reflexivity | apply IH]. Qed.

Lemma hideAll_onlyVisibility (l : list string) w :
  onlyVisibility w (fold_left hideElement l w).
Proof.
  apply (fold_left_inv (onlyVisibility w)); [|apply onlyVisibility_refl].
  intros a b _ Ha. eapply onlyVisibility_trans; [exact Ha|].
  apply hideElement_onlyVisibility.
Qed.

Lemma hideAll_hiddenIds (l : list string) w :
  hiddenIds (state (fold_left hideElement l w)) = list_to_set l ∪ hiddenIds (state w).
Proof.
  revert w. induction l as [|x l IH]; intros w; simpl; [set_solver|].
  rewrite IH. simpl. set_solver.
Qed.

Lemma hideAll_nodeHidden (l : list string) w id :
  id ∉ l -> nodeHidden (cy (fold_left hideElement l w)) id = nodeHidden (cy w) id.
Proof.
  revert w. induction l as [|x l IH]; intros w Hid; simpl; [reflexivity|].
  apply not_elem_of_cons in Hid as [Hne Hid]. rewrite IH by exact Hid. simpl.
  rewrite nodeHidden_setHiddenData. now destruct (decide (id = x)).
Qed.

Lemma hideAll_nodeHidden_in (l : list string) w id :
  id ∈ l -> isNode (cy w) id = true ->
  nodeHidden (cy (fold_left hideElement l w)) id = Some true.
Proof.
  revert w. induction l as [|x l IH]; intros w Hid Hn; [now apply elem_of_nil in Hid|].
  simpl. destruct (decide (id ∈ l)) as [Hl|Hl].
  - apply IH; [exact Hl|]. simpl.
    rewrite (hierarchy_isNode _ (cy w)); [exact Hn | apply hierarchy_setHiddenData].
  - rewrite hideAll_nodeHidden by exact Hl. simpl.
    apply elem_of_cons in Hid as [->|Hid]; [|contradiction].
    rewrite nodeHidden_setHiddenData, decide_True by reflexivity.
    apply isNode_nodeHidden in Hn as [b ->]. reflexivity.
Qed.

(** *** [createProjections] *)

Lemma projectGroups_spec parentId (groups : list (string * list edge)) g ids k g2 ids2 k2 :
  fold_left (projectGroup parentId) groups (g, ids, k) = (g2, ids2, k2) ->
  cy_nodes g2 = cy_nodes g
  /\ cy_emitted g2 = cy_emitted g
  /\ cy_animations g2 = cy_animations g
  /\ k2 = k + length groups
  /\ ids2 = ids ++ (proj_id parentId <$> seq k (length groups))
  /\ exists new, cy_edges g2 = cy_edges g ++ new
       /\ Forall (fun e => e_isProjection e = true /\ e_hidden e = false
                           /\ (e_source e = parentId \/ e_target e = parentId)
                           /\ e_id e ∉ e_id <$> cy_edges g) new
       /\ ((fun e => (e_source e, e_target e)) <$> new)
          `sublist_of` (projectionEnds parentId <$> (fst <$> groups)).
Proof.
  revert g ids k. induction groups as [|[key es] groups IH]; intros g ids k Hf.
  - simpl in Hf. injection Hf as <- <- <-. simpl. rewrite app_nil_r, Nat.add_0_r.
    repeat split; try reflexivity. exists []. rewrite app_nil_r.
    split; [reflexivity|]. split; [constructor | apply sublist_nil].
  - simpl in Hf. apply IH in Hf as (Hn & Hem & Han & -> & -> & new & He & Hnew & Hsub).
    rewrite nodes_addProjectionEdge in Hn. simpl.
    rewrite <- app_assoc. simpl.
    split; [exact Hn|].
    unfold addProjectionEdge in *.
    destruct (_ || _ || _) eqn:Hguard.
    + repeat split; try assumption; try lia. exists new.
      split; [exact He|]. split; [exact Hnew|]. now apply sublist_cons.
    + simpl in *. repeat split; try assumption; try lia.
      eexists (_ :: new). rewrite He, <- app_assoc. simpl. split; [reflexivity|].
      apply orb_false_iff in Hguard as [Hguard _].
      apply orb_false_iff in Hguard as [Hguard _].
      apply orb_false_iff in Hguard as [_ Hedge].
      split; [constructor|].
      * simpl. repeat split.
        -- destruct (String.eqb (nth 0 (split colon key) "") "out"); auto.
        -- intros Hin. apply isEdge_true in Hin. congruence.
      * eapply Forall_impl; [exact Hnew|]. simpl.
        intros e (Hp & Hh & Hst & Hid). repeat split; try assumption.
        intros Hin. apply Hid. rewrite fmap_app. apply elem_of_app. now left.
      * apply (sublist_skip (projectionEnds parentId key)). exact Hsub.
Qed.

End Steps.

(** ** The projection builder: classification and grouping *)

Section Projection.
Context {R : Type} `{Number R}.

Implicit Types (w : World R) (g : Cy R) (id nodeId parentId : string)
               (inside : gset string) (sc : scan) (e : edge).

Lemma unique_edge g e e' :
  uniqueEdgeIds g -> e ∈ cy_edges g -> e' ∈ cy_edges g -> e_id e = e_id e' -> e = e'.
Proof.
  intros Hu He He' Hid.
  pose proof (getEdge_unique g e Hu He) as H1.
  pose proof (getEdge_unique g e' Hu He') as H2.
  rewrite Hid in H1. congruence.
Qed.

Lemma scanEdge_seen inside sc e :
  seenEdges (scanEdge inside sc e) = {[e_id e]} ∪ seenEdges sc.
Proof.
  unfold scanEdge. destruct (decide (e_id e ∈ seenEdges sc)); [set_solver|].
  destruct (_ && _); [reflexivity|]. now destruct (negb _).
Qed.

Lemma internal_not_boundary inside e :
  isInternal inside e = true -> isBoundary inside e = false.
Proof.
  unfold isInternal, isBoundary. intros [-> ->]%andb_true_iff. reflexivity.
Qed.

Lemma scanEdge_inv g inside sc e0 :
  uniqueEdgeIds g -> e0 ∈ cy_edges g ->
  scanInv g inside sc -> scanInv g inside (scanEdge inside sc e0).
Proof.
  intros Hu He0 [Hext Hint Hseen].
  pose proof (scanEdge_seen inside sc e0) as Hs.
  unfold scanEdge in *. destruct (decide (e_id e0 ∈ seenEdges sc)) as [Hin|Hin].
  { now constructor. }
  fold (isInternal inside e0) in *. fold (isBoundary inside e0) in *.
  destruct (isInternal inside e0) eqn:Hi; [|destruct (isBoundary inside e0) eqn:Hb];
    simpl in *; constructor; simpl.
  - intros e [He [Hb Hse]]%Hext. repeat split; try assumption. set_solver.
  - intros e [He| ->%list_elem_of_singleton]%elem_of_app.
    + apply Hint in He as (He & Hb & Hse). repeat split; try assumption. set_solver.
    + repeat split; try assumption. set_solver.
  - intros e He [Hid%elem_of_singleton|Hse]%elem_of_union.
    + apply (unique_edge g e e0 Hu He He0) in Hid as ->.
      rewrite (internal_not_boundary _ _ Hi). split; [discriminate|].
      intros _. apply elem_of_app. right. now apply list_elem_of_singleton.
    + destruct (Hseen e He Hse) as [Hb Hi']. split; [exact Hb|].
      intros Hie. apply elem_of_app. left. now apply Hi'.
  - intros e [He| ->%list_elem_of_singleton]%elem_of_app.
    + apply Hext in He as (He & Hb' & Hse). repeat split; try assumption. set_solver.
    + repeat split; try assumption. set_solver.
  - intros e [He [Hb' Hse]]%Hint. repeat split; try assumption. set_solver.
  - intros e He [Hid%elem_of_singleton|Hse]%elem_of_union.
    + apply (unique_edge g e e0 Hu He He0) in Hid as ->. rewrite Hi. split; [|discriminate].
      intros _. apply elem_of_app. right. now apply list_elem_of_singleton.
    + destruct (Hseen e He Hse) as [Hb' Hi']. split; [|exact Hi'].
      intros Hbe. apply elem_of_app. left. now apply Hb'.
  - intros e [He [Hb' Hse]]%Hext. repeat split; try assumption. set_solver.
  - intros e [He [Hb' Hse]]%Hint. repeat split; try assumption. set_solver.
  - intros e He [Hid%elem_of_singleton|Hse]%elem_of_union.
    + apply (unique_edge g e e0 Hu He He0) in Hid as ->. rewrite Hi, Hb.
      split; discriminate.
    + now apply Hseen.
Qed.

Lemma scanEdges_inv g inside (descendants : list string) :
  uniqueEdgeIds g ->
  scanInv g inside (scanEdges g inside descendants)
  /\ forall d e, d ∈ descendants -> e ∈ nodeEdges g d ->
       e_id e ∈ seenEdges (scanEdges g inside descendants).
Proof.
  intros Hu. unfold scanEdges.
  assert (Hinner : forall (l : list edge) sc,
             (forall e, e ∈ l -> e ∈ cy_edges g) -> scanInv g inside sc ->
             scanInv g inside (fold_left (scanEdge inside) l sc)
             /\ seenEdges sc ⊆ seenEdges (fold_left (scanEdge inside) l sc)
             /\ forall e, e ∈ l -> e_id e ∈ seenEdges (fold_left (scanEdge inside) l sc)).
  { induction l as [|e0 l IH]; intros sc Hl Hsc; simpl.
    - split; [exact Hsc|]. split; [set_solver|].
      intros e He. now apply elem_of_nil in He.
    - destruct (IH (scanEdge inside sc e0)) as (Hinv & Hsub & Hall).
      + intros e He. apply Hl. now right.
      + apply scanEdge_inv; [exact Hu | apply Hl; left | exact Hsc].
      + rewrite scanEdge_seen in Hsub. split; [exact Hinv|]. split; [set_solver|].
        intros e [->|He]%elem_of_cons; [set_solver | now apply Hall]. }
  assert (Houter : forall (ds : list string) sc, scanInv g inside sc ->
             let sc' := fold_left
                 (fun sc nodeId => fold_left (scanEdge inside) (nodeEdges g nodeId) sc)
                 ds sc in
             scanInv g inside sc' /\ seenEdges sc ⊆ seenEdges sc'
             /\ forall d e, d ∈ ds -> e ∈ nodeEdges g d -> e_id e ∈ seenEdges sc').
  { induction ds as [|d0 ds IH]; intros sc Hsc; simpl.
    - split; [exact Hsc|]. split; [set_solver|].
      intros d e Hd. now apply elem_of_nil in Hd.
    - destruct (Hinner (nodeEdges g d0) sc) as (Hinv & Hsub & Hall); [|exact Hsc|].
      { intros e He. now apply elem_of_nodeEdges in He as [He _]. }
      destruct (IH _ Hinv) as (Hinv' & Hsub' & Hall').
      split; [exact Hinv'|]. split; [set_solver|].
      intros d e [->|Hd]%elem_of_cons He; [|now apply (Hall' d)].
      apply Hsub'. now apply Hall. }
  destruct (Houter descendants (Scan ∅ [] [])) as (Hinv & _ & Hall).
  - constructor; simpl; intros e; try (intros He; now apply elem_of_nil in He).
    intros _ He. set_solver.
  - split; [exact Hinv | exact Hall].
Qed.

(** The [seenEdges] set keeps every id once. *)
Lemma scanEdges_NoDup g inside (descendants : list string) :
  NoDup (e_id <$> externalEdges (scanEdges g inside descendants))
  /\ NoDup (e_id <$> internalEdges (scanEdges g inside descendants)).
Proof.
  set (J := fun sc : scan =>
    NoDup (e_id <$> externalEdges sc) /\ NoDup (e_id <$> internalEdges sc)
    /\ forall e, e ∈ externalEdges sc ++ internalEdges sc -> e_id e ∈ seenEdges sc).
  assert (Hstep : forall sc e0, J sc -> J (scanEdge inside sc e0)).
  { intros sc e0 (Hext & Hint & Hseen). unfold scanEdge.
    destruct (decide (e_id e0 ∈ seenEdges sc)) as [Hin|Hin]; [now repeat split|].
    assert (Hfresh : forall l : list edge,
               (forall e, e ∈ l -> e_id e ∈ seenEdges sc) -> NoDup (e_id <$> l) ->
               NoDup (e_id <$> l ++ [e0])).
    { intros l Hl Hnd. rewrite fmap_app. apply NoDup_app. split; [exact Hnd|].
      split; [|apply NoDup_singleton].
      intros x (e & -> & He)%list_elem_of_fmap Hx%list_elem_of_singleton.
      apply Hin. rewrite <- Hx. now apply Hl. }
    destruct (_ && _); [|destruct (negb _)]; repeat split; simpl;
      try assumption.
    - apply Hfresh; [|exact Hint]. intros e He. apply Hseen, elem_of_app. now right.
    - intros e [He|[He| ->%list_elem_of_singleton]%elem_of_app]%elem_of_app;
        [| |set_solver]; apply elem_of_union_r, Hseen, elem_of_app; auto.
    - apply Hfresh; [|exact Hext]. intros e He. apply Hseen, elem_of_app. now left.
    - intros e [[He| ->%list_elem_of_singleton]%elem_of_app|He]%elem_of_app;
        [|set_solver|]; apply elem_of_union_r, Hseen, elem_of_app; auto.
    - intros e He. now apply elem_of_union_r, Hseen. }
  assert (HJ : J (scanEdges g inside descendants)).
  { unfold scanEdges. apply (fold_left_inv J).
    - intros sc d _ Hsc. apply (fold_left_inv J); [|exact Hsc].
      intros sc' e0 _. apply Hstep.
    - repeat split; simpl; try constructor. intros e He. now apply elem_of_nil in He. }
  destruct HJ as (Hext & Hint & _). now split.
Qed.

End Projection.

Section Groups.

Implicit Types (inside : gset string) (e : edge) (groups : list (string * list edge)).

Lemma boundary_groupKey inside e :
  isBoundary inside e = true -> is_Some (groupKey inside e).
Proof.
  unfold isBoundary, groupKey.
  destruct (bool_decide (e_source e ∈ inside)), (bool_decide (e_target e ∈ inside));
    simpl; intros Hb; try discriminate; eauto.
Qed.

Lemma groupKey_boundary inside e key :
  groupKey inside e = Some key -> isBoundary inside e = true.
Proof.
  unfold isBoundary, groupKey.
  destruct (bool_decide (e_source e ∈ inside)), (bool_decide (e_target e ∈ inside));
    simpl; intros Hb; try discriminate; reflexivity.
Qed.

Lemma pushGroup_keys key e groups :
  fst <$> pushGroup key e groups
  = if decide (key ∈ fst <$> groups) then fst <$> groups else (fst <$> groups) ++ [key].
Proof.
  induction groups as [|[k es] groups IH]; cbn [pushGroup].
  - rewrite decide_False; [reflexivity | apply not_elem_of_nil].
  - destruct (String.eqb k key) eqn:Hk; rewrite !fmap_cons; cbn [fst].
    + apply String.eqb_eq in Hk as ->. rewrite decide_True; [reflexivity | left].
    + apply String.eqb_neq in Hk. rewrite IH.
      destruct (decide (key ∈ fst <$> groups)) as [Hin|Hin].
      * rewrite decide_True; [reflexivity | now right].
      * rewrite decide_False; [reflexivity|].
        intros [Heq|Hin']%elem_of_cons; [congruence | contradiction].
Qed.

Lemma pushGroup_NoDup key e groups :
  NoDup (fst <$> groups) -> NoDup (fst <$> pushGroup key e groups).
Proof.
  intros Hnd. rewrite pushGroup_keys. destruct (decide _) as [Hin|Hin]; [exact Hnd|].
  apply NoDup_app. split; [exact Hnd|]. split; [|apply NoDup_singleton].
  intros x Hx ->%list_elem_of_singleton. contradiction.
Qed.

Lemma pushGroup_new key e groups :
  exists es, (key, es) ∈ pushGroup key e groups /\ e ∈ es.
Proof.
  induction groups as [|[k es] groups IH]; simpl.
  - exists [e]. split; left.
  - destruct (String.eqb k key) eqn:Hk.
    + apply String.eqb_eq in Hk as ->. exists (es ++ [e]). split; [left|].
      apply elem_of_app. right. left.
    + destruct IH as (es' & Hin & He). exists es'. split; [now right | exact He].
Qed.

Lemma pushGroup_old key e groups k es x :
  (k, es) ∈ groups -> x ∈ es ->
  exists es', (k, es') ∈ pushGroup key e groups /\ x ∈ es'.
Proof.
  induction groups as [|[k0 es0] groups IH]; simpl; intros Hin Hx.
  - now apply elem_of_nil in Hin.
  - apply elem_of_cons in Hin as [[= -> ->]|Hin].
    + destruct (String.eqb k0 key).
      * exists (es0 ++ [e]). split; [left|]. apply elem_of_app. now left.
      * exists es0. split; [left | exact Hx].
    + destruct (IH Hin Hx) as (es' & Hin' & Hx').
      destruct (String.eqb k0 key).
      * exists es. split; [now right | exact Hx].
      * exists es'. split; [now right | exact Hx'].
Qed.

Lemma pushGroup_inv key e groups k es x :
  (k, es) ∈ pushGroup key e groups -> x ∈ es ->
  (x = e /\ k = key) \/ exists es0, (k, es0) ∈ groups /\ x ∈ es0.
Proof.
  induction groups as [|[k0 es0] groups IH]; simpl; intros Hin Hx.
  - apply list_elem_of_singleton in Hin as [= -> ->].
    apply list_elem_of_singleton in Hx as ->. now left.
  - destruct (String.eqb k0 key) eqn:Hk.
    + apply String.eqb_eq in Hk as ->.
      apply elem_of_cons in Hin as [[= -> ->]|Hin].
      * apply elem_of_app in Hx as [Hx| ->%list_elem_of_singleton]; [|now left].
        right. exists es0. split; [left | exact Hx].
      * right. exists es. split; [now right | exact Hx].
    + apply elem_of_cons in Hin as [[= -> ->]|Hin].
      * right. exists es0. split; [left | exact Hx].
      * destruct (IH Hin Hx) as [Hl|(es1 & Hin1 & Hx1)]; [now left|].
        right. exists es1. split; [now right | exact Hx1].
Qed.

(** A group holds exactly the external edges with its key, and every key
    has one group. *)
Lemma groupEdges_spec inside (external : list edge) :
  let groups := groupEdges inside external in
  NoDup (fst <$> groups)
  /\ (forall e key, e ∈ external -> groupKey inside e = Some key ->
        exists es, (key, es) ∈ groups /\ e ∈ es)
  /\ (forall key es e, (key, es) ∈ groups -> e ∈ es ->
        e ∈ external /\ groupKey inside e = Some key).
Proof.
  unfold groupEdges.
  assert (Hgen : forall (l : list edge) groups,
    let groups' := fold_left
      (fun groups e => match groupKey inside e with
                       | Some key => pushGroup key e groups
                       | None => groups end) l groups in
    (NoDup (fst <$> groups) -> NoDup (fst <$> groups'))
    /\ (forall key es e, (key, es) ∈ groups -> e ∈ es ->
          exists es', (key, es') ∈ groups' /\ e ∈ es')
    /\ (forall e key, e ∈ l -> groupKey inside e = Some key ->
          exists es, (key, es) ∈ groups' /\ e ∈ es)
    /\ (forall key es e, (key, es) ∈ groups' -> e ∈ es ->
          (e ∈ l /\ groupKey inside e = Some key)
          \/ exists es0, (key, es0) ∈ groups /\ e ∈ es0)).
  { induction l as [|e0 l IH]; intros groups; simpl.
    - split; [auto|]. split; [eauto|]. split.
      + intros e key He. now apply elem_of_nil in He.
      + intros key es e Hin He. right. eauto.
    - set (groups1 := match groupKey inside e0 with
                      | Some key => pushGroup key e0 groups
                      | None => groups end).
      destruct (IH groups1) as (Hnd & Hold & Hnew & Hinv).
      assert (Hstep_old : forall key es e, (key, es) ∈ groups -> e ∈ es ->
                 exists es', (key, es') ∈ groups1 /\ e ∈ es').
      { intros key es e Hin He. subst groups1.
        destruct (groupKey inside e0); [now apply (pushGroup_old _ _ _ _ es) | eauto]. }
      split; [|split; [|split]].
      + intros Hg. apply Hnd. subst groups1.
        destruct (groupKey inside e0); [now apply pushGroup_NoDup | exact Hg].
      + intros key es e Hin He.
        destruct (Hstep_old key es e Hin He) as (es1 & Hin1 & He1). eauto.
      + intros e key [->|He]%elem_of_cons Hk; [|now apply (Hnew e key)].
        destruct (pushGroup_new key e0 groups) as (es & Hin & He).
        apply (Hold key es e0); [|exact He]. subst groups1. now rewrite Hk.
      + intros key es e Hin He.
        destruct (Hinv key es e Hin He) as [[Hl Hk]|(es0 & Hin0 & He0)].
        * left. split; [now right | exact Hk].
        * subst groups1. destruct (groupKey inside e0) as [k0|] eqn:Hk0; [|eauto].
          destruct (pushGroup_inv _ _ _ _ _ _ Hin0 He0) as [[-> ->]|Hex]; [|now right].
          left. split; [left | exact Hk0]. }
  destruct (Hgen external []) as (Hnd & _ & Hnew & Hinv). simpl.
  split; [apply Hnd; constructor|]. split; [exact Hnew|].
  intros key es e Hin He. destruct (Hinv key es e Hin He) as [Hl|(es0 & Hin0 & _)];
    [exact Hl | now apply elem_of_nil in Hin0].
Qed.

End Groups.

(** ** A successful [collapse], step by step *)

Section CollapseFacts.
Context {R : Type} `{Number R}.

Implicit Types (w : World R) (g : Cy R) (id nodeId parentId : string).

Lemma localsOf_spec g parentPos (descendants : list string) c :
  localsOf g parentPos descendants !! c
  = if decide (c ∈ descendants)
    then (fun childPos => Local (nsub (px childPos) (px parentPos))
                                (nsub (py childPos) (py parentPos))) <$> position g c
    else None.
Proof.
  unfold localsOf.
  assert (Hgen : forall (l : list string) (m : gmap string (local R)),
    fold_left
      (fun (positions : gmap string (local R)) child =>
         match position g child with
         | Some childPos =>
             <[child := Local (nsub (px childPos) (px parentPos))
                              (nsub (py childPos) (py parentPos))]> positions
         | None => positions
         end) l m !! c
    = if decide (c ∈ l)
      then match position g c with
           | Some childPos => Some (Local (nsub (px childPos) (px parentPos))
                                          (nsub (py childPos) (py parentPos)))
           | None => m !! c
           end
      else m !! c).
  { induction l as [|x l IH]; intros m; cbn [fold_left].
    - rewrite decide_False; [reflexivity | apply not_elem_of_nil].
    - rewrite IH. destruct (decide (c ∈ l)) as [Hl|Hl].
      + rewrite decide_True by now right.
        destruct (position g c) eqn:Hc; [reflexivity|].
        destruct (position g x) eqn:Hx; [|reflexivity].
        rewrite lookup_insert_ne; [reflexivity | congruence].
      + destruct (decide (c = x)) as [->|Hne].
        * rewrite decide_True by left.
          destruct (position g x); [now rewrite lookup_insert_eq | reflexivity].
        * rewrite decide_False by (intros [?|?]%elem_of_cons; contradiction).
          destruct (position g x); [now rewrite lookup_insert_ne | reflexivity]. }
  rewrite Hgen, lookup_empty. destruct (decide _); [|reflexivity].
  now destruct (position g c).
Qed.

Lemma collapse_success w nodeId :
  isParent (cy w) nodeId = true -> nodeId ∉ collapsedIds (state w) ->
  collapse w nodeId
  = (let w5 := createProjections (beforeProjections w nodeId) nodeId
                                 (descendants (cy w) nodeId) in
     let w6 := withCollapsedIds w5 ({[nodeId]} ∪ collapsedIds (state w5)) in
     (withCy w6 (emit (cy w6) (EvCollapse nodeId)), true)).
Proof.
  intros Hp Hc. unfold collapse. rewrite Hp. simpl.
  now destruct (decide (nodeId ∈ collapsedIds (state w))).
Qed.

Lemma collapse_true_inv w nodeId w' :
  collapse w nodeId = (w', true) ->
  isParent (cy w) nodeId = true /\ nodeId ∉ collapsedIds (state w).
Proof.
  unfold collapse. destruct (isParent (cy w) nodeId); simpl; [|discriminate].
  destruct (decide (nodeId ∈ collapsedIds (state w))); [discriminate|]. auto.
Qed.

Lemma elem_of_subtreeEdgeIds g (nodes : list string) id :
  id ∈ subtreeEdgeIds g nodes
  <-> exists e d, e ∈ cy_edges g /\ e_id e = id /\ d ∈ nodes /\ touches e d = true.
Proof.
  unfold subtreeEdgeIds. rewrite elem_of_list_to_set, list_elem_of_fmap. split.
  - intros (e & -> & (d & Hd & He)%elem_of_flat_map).
    apply elem_of_nodeEdges in He as [He Ht]. eauto 6.
  - intros (e & d & He & <- & Hd & Ht). exists e. split; [reflexivity|].
    apply elem_of_flat_map. exists d. split; [exact Hd|]. now apply elem_of_nodeEdges.
Qed.

Lemma subtreeEdgeIds_ends g g' (nodes : list string) :
  edgeEnds g' = edgeEnds g -> subtreeEdgeIds g' nodes = subtreeEdgeIds g nodes.
Proof.
  intros Heq. unfold subtreeEdgeIds. f_equal.
  induction nodes as [|d nodes IH]; simpl; [reflexivity|].
  rewrite !fmap_app, IH. f_equal.
  pose proof (nodeEdges_ends g g' d Heq) as Hn.
  apply (f_equal (fmap (fun x : string * string * string * bool => x.1.1.1))) in Hn.
  rewrite <- !list_fmap_compose in Hn. exact Hn.
Qed.

Lemma connectedEdges_ids g (nodes : list string) :
  list_to_set (e_id <$> connectedEdges g nodes) = subtreeEdgeIds g nodes.
Proof.
  unfold connectedEdges, subtreeEdgeIds. apply set_eq. intros id.
  rewrite !elem_of_list_to_set, !list_elem_of_fmap. split.
  - intros (e & -> & [He _]%elem_of_uniqBy). eauto.
  - intros (e & -> & He).
    apply list_elem_of_fmap. apply uniqBy_keys; [exact He | set_solver].
Qed.

End CollapseFacts.

Section CollapseSpec.
Context {R : Type} `{Number R}.

Implicit Types (w : World R) (g : Cy R) (id nodeId parentId : string).

Lemma saveLocalPositions_cy w parentId (l : list string) :
  cy (saveLocalPositions w parentId l) = cy w.
Proof. unfold saveLocalPositions. now destruct (position (cy w) parentId). Qed.

Lemma saveLocalPositions_state w parentId (l : list string) :
  let s := state w in
  state (saveLocalPositions w parentId l)
  = MkState (collapsedIds s) (hiddenElementsMap s)
      (match position (cy w) parentId with
       | Some parentPos => <[parentId := localsOf (cy w) parentPos l]> (savedPositionsMap s)
       | None => savedPositionsMap s
       end)
      (projectionEdgesMap s) (hiddenIds s).
Proof.
  unfold saveLocalPositions. destruct (position (cy w) parentId); simpl; [reflexivity|].
  now destruct (state w).
Qed.

Lemma beforeProjections_spec w nodeId : hiddenSubtree w nodeId (beforeProjections w nodeId).
Proof.
  unfold beforeProjections.
  set (D := descendants (cy w) nodeId).
  set (w1 := saveLocalPositions w nodeId D).
  set (w2 := fold_left hideElement D w1).
  rewrite (fold_left_fmap_arg hideElement e_id).
  set (E := e_id <$> connectedEdges (cy w2) D).
  set (w3 := fold_left hideElement E w2).
  pose proof (saveLocalPositions_cy w nodeId D) as Hcy1.
  pose proof (saveLocalPositions_state w nodeId D) as Hst1. simpl in Hst1.
  fold w1 in Hcy1, Hst1.
  pose proof (hideAll_onlyVisibility D w1) as H12. fold w2 in H12.
  pose proof (hideAll_onlyVisibility E w2) as H23. fold w3 in H23.
  pose proof (onlyVisibility_trans _ _ _ H12 H23) as [].
  assert (HE : list_to_set E = subtreeEdgeIds (cy w) D).
  { subst E. rewrite connectedEdges_ids. apply subtreeEdgeIds_ends.
    destruct H12. now rewrite ov_edges1, Hcy1. }
  assert (Hids : hiddenIds (state w3)
                 = subtreeEdgeIds (cy w) D ∪ list_to_set D ∪ hiddenIds (state w)).
  { subst w3 w2. rewrite !hideAll_hiddenIds, HE, Hst1. simpl. set_solver. }
  assert (Hnh : forall id, id ∉ D -> id ∉ subtreeEdgeIds (cy w) D ->
                  nodeHidden (cy w3) id = nodeHidden (cy w) id).
  { intros id HD HEid. subst w3 w2.
    rewrite !hideAll_nodeHidden; [now rewrite Hcy1 | exact HD |].
    intros Hin. apply HEid. rewrite <- HE. now apply elem_of_list_to_set. }
  rewrite Hst1 in ov_collapsed0, ov_hiddenElements0, ov_saved0, ov_projections0.
  rewrite Hcy1 in ov_hierarchy0, ov_position0, ov_edges0, ov_emitted0, ov_animations0.
  simpl in *.
  constructor; simpl; try assumption; try congruence.
  now rewrite ov_hiddenElements0.
Qed.

Lemma createProjections_spec w parentId (descendants : list string) :
  projected w parentId descendants (createProjections w parentId descendants).
Proof.
  unfold createProjections.
  set (inside := descendantIdSet parentId descendants).
  set (sc := scanEdges (cy w) inside descendants).
  rewrite (fold_left_fmap_arg hideElement e_id).
  set (w1 := fold_left hideElement (e_id <$> internalEdges sc) w).
  pose proof (hideAll_onlyVisibility (e_id <$> internalEdges sc) w) as Hov.
  fold w1 in Hov. destruct Hov.
  destruct (fold_left (projectGroup parentId) _ _) as [[g2 ids] k] eqn:Hf.
  apply projectGroups_spec in Hf as (Hn & Hem & Han & _ & Hids & new & He & Hnew & Hsub).
  constructor; simpl.
  - exact Hn.
  - rewrite (same_nodes_hierarchy _ _ Hn). exact ov_hierarchy0.
  - intros id. rewrite (same_nodes_position _ _ id Hn). apply ov_position0.
  - congruence.
  - congruence.
  - exact ov_collapsed0.
  - exact ov_hiddenElements0.
  - exact ov_saved0.
  - subst w1. now rewrite hideAll_hiddenIds.
  - rewrite Hids, ov_projections0. reflexivity.
  - exists (cy_edges (cy w1)), new. split; [exact He|]. split; [exact ov_edges0|].
    split; [|exact Hsub].
    eapply Forall_impl; [exact Hnew|]. simpl. intros e (Hp & Hh & Hst & Hid).
    repeat split; try assumption.
    rewrite <- edgeEnds_ids, <- ov_edges0, edgeEnds_ids. exact Hid.
Qed.

End CollapseSpec.

Section CollapseOutcome.
Context {R : Type} `{Number R}.

Implicit Types (w : World R) (g : Cy R) (id nodeId parentId : string).

(** Every classified edge was met at a descendant. *)
Lemma scanEdges_from_nodes g (inside : gset string) (descendants : list string) e :
  e ∈ externalEdges (scanEdges g inside descendants)
    ++ internalEdges (scanEdges g inside descendants) ->
  exists d, d ∈ descendants /\ e ∈ nodeEdges g d.
Proof.
  unfold scanEdges.
  set (P := fun (ds : list string) (sc : scan) =>
              forall e, e ∈ externalEdges sc ++ internalEdges sc ->
                        exists d, d ∈ ds /\ e ∈ nodeEdges g d).
  assert (Hinner : forall ds d (l : list edge) sc,
             d ∈ ds -> (forall e, e ∈ l -> e ∈ nodeEdges g d) ->
             P ds sc -> P ds (fold_left (scanEdge inside) l sc)).
  { intros ds d l. induction l as [|e0 l IH]; intros sc Hd Hl Hsc; simpl; [exact Hsc|].
    apply IH; [exact Hd | intros e' He'; apply Hl; now right |].
    intros e' He'. unfold scanEdge in He'.
    destruct (decide (e_id e0 ∈ seenEdges sc)); [now apply Hsc|].
    assert (He0 : exists d, d ∈ ds /\ e0 ∈ nodeEdges g d).
    { exists d. split; [exact Hd | apply Hl; left]. }
    destruct (_ && _); [|destruct (negb _)]; simpl in He'.
    - rewrite app_assoc in He'.
      apply elem_of_app in He' as [He'| ->%list_elem_of_singleton];
        [now apply Hsc | exact He0].
    - rewrite <- app_assoc in He'. apply elem_of_app in He' as [He'|He'].
      + apply Hsc, elem_of_app. now left.
      + apply elem_of_cons in He' as [->|He']; [exact He0|].
        apply Hsc, elem_of_app. now right.
    - now apply Hsc. }
  assert (Houter : forall ds all sc,
             (forall d, d ∈ ds -> d ∈ all) -> P all sc ->
             P all (fold_left
                      (fun sc nodeId => fold_left (scanEdge inside) (nodeEdges g nodeId) sc)
                      ds sc)).
  { induction ds as [|d ds IH]; intros all sc Hsub Hsc; simpl; [exact Hsc|].
    apply IH; [intros d' Hd'; apply Hsub; now right|].
    apply (Hinner all d); [apply Hsub; left | auto | exact Hsc]. }
  intros He. apply (Houter descendants descendants (Scan ∅ [] [])); [auto | | exact He].
  intros e' He'. simpl in He'. now apply elem_of_nil in He'.
Qed.

Lemma internal_ids_in_subtree w nodeId :
  list_to_set (e_id <$> internalEdges (collapseScan w nodeId))
  ⊆ subtreeEdgeIds (cy w) (descendants (cy w) nodeId).
Proof.
  intros id (e & -> & He)%elem_of_list_to_set%list_elem_of_fmap.
  destruct (beforeProjections_spec w nodeId).
  rewrite <- (subtreeEdgeIds_ends (cy w) (cy (beforeProjections w nodeId)))
    by exact hs_edges0.
  unfold collapseScan in He.
  destruct (scanEdges_from_nodes (cy (beforeProjections w nodeId))
              (descendantIdSet nodeId (descendants (cy w) nodeId))
              (descendants (cy w) nodeId) e) as (d & Hd & Hin).
  { apply elem_of_app. right. exact He. }
  apply elem_of_nodeEdges in Hin as [Hin Ht].
  apply elem_of_subtreeEdgeIds. eauto 6.
Qed.

Lemma hierarchy_emit g ev : hierarchy (emit g ev) = hierarchy g.
Proof. reflexivity. Qed.

Lemma position_emit g ev id : position (emit g ev) id = position g id.
Proof. reflexivity. Qed.

Lemma nodeHidden_emit g ev id : nodeHidden (emit g ev) id = nodeHidden g id.
Proof. reflexivity. Qed.

Lemma collapse_spec w nodeId w' :
  collapse w nodeId = (w', true) -> collapsed w nodeId w'.
Proof.
  intros Hc. destruct (collapse_true_inv _ _ _ Hc) as [Hp Hn].
  rewrite (collapse_success _ _ Hp Hn) in Hc. injection Hc as <-.
  pose proof (internal_ids_in_subtree w nodeId) as Hint.
  destruct (beforeProjections_spec w nodeId).
  destruct (createProjections_spec (beforeProjections w nodeId) nodeId
              (descendants (cy w) nodeId)).
  cbv zeta in pj_nodes0, pj_hiddenIds0, pj_projections0.
  fold (collapseScan w nodeId) in pj_nodes0, pj_hiddenIds0, pj_projections0.
  fold (collapseGroups w nodeId) in pj_projections0.
  set (w5 := createProjections (beforeProjections w nodeId) nodeId
                               (descendants (cy w) nodeId)) in *.
  constructor;
    cbn [cy state withCy withCollapsedIds collapsedIds hiddenElementsMap
         savedPositionsMap projectionEdgesMap hiddenIds];
    rewrite ?hierarchy_emit, ?position_emit;
    cbn [emit cy_nodes cy_edges cy_emitted cy_animations].
  - congruence.
  - intros id. now rewrite position_emit, pj_position0.
  - congruence.
  - congruence.
  - now rewrite pj_collapsed0, hs_collapsed0.
  - congruence.
  - congruence.
  - now rewrite pj_projections0, hs_projections0.
  - rewrite pj_hiddenIds0, hs_hiddenIds0. set_solver.
  - intros id HD HE.
    change (nodeHidden (cy w5) id = nodeHidden (cy w) id).
    rewrite (same_nodes_nodeHidden _ _ id pj_nodes0).
    rewrite hideAll_nodeHidden; [now apply hs_nodeHidden0|].
    intros Hin. apply HE, Hint. now apply elem_of_list_to_set.
  - destruct pj_edges0 as (old & new & He & Hold & Hnew & Hsub).
    exists old, new. split; [exact He|]. split; [congruence|].
    split; [|exact Hsub].
    eapply Forall_impl; [exact Hnew|]. simpl. intros e (Hpr & Hh & Hst & Hid).
    repeat split; try assumption.
    rewrite <- edgeEnds_ids, <- hs_edges0, edgeEnds_ids. exact Hid.
Qed.

End CollapseOutcome.

(** ** Collapse: what is hidden and what is projected *)

Section CollapseTheorems.
Context {R : Type} `{Number R}.

Implicit Types (w : World R) (g : Cy R) (id nodeId : string) (e : edge).

Lemma isBoundary_ends (inside : gset string) e e' :
  ends e = ends e' -> isBoundary inside e = isBoundary inside e'.
Proof. unfold ends, isBoundary. now intros [= _ -> -> _]. Qed.

Lemma isInternal_ends (inside : gset string) e e' :
  ends e = ends e' -> isInternal inside e = isInternal inside e'.
Proof. unfold ends, isInternal. now intros [= _ -> -> _]. Qed.

Lemma groupKey_ends (inside : gset string) e e' :
  ends e = ends e' -> groupKey inside e = groupKey inside e'.
Proof. unfold ends, groupKey. now intros [= _ -> -> _]. Qed.

Lemma e_id_ends e e' : ends e = ends e' -> e_id e = e_id e'.
Proof. unfold ends. now intros [= -> _ _ _]. Qed.

(** The edge of the store [createProjections] scans that stands for [e]. *)
Lemma scanned_counterpart w nodeId e :
  e ∈ cy_edges (cy w) ->
  exists e', e' ∈ cy_edges (cy (beforeProjections w nodeId)) /\ ends e' = ends e.
Proof.
  intros He. destruct (beforeProjections_spec w nodeId).
  apply (edgeEnds_elem (cy (beforeProjections w nodeId)) (cy w)); [|exact He].
  now symmetry.
Qed.

Lemma isHiddenEle_hiddenIds w id : id ∈ hiddenIds (state w) -> isHiddenEle w id = true.
Proof. intros Hin. unfold isHiddenEle. now rewrite bool_decide_eq_true_2. Qed.

(** X28.  An edge that touches no descendant is not visited by
    [collapse]: it is not recorded as an original edge and its membership
    in the hidden set does not change.  This covers the edges and loops of
    the collapsing node itself. *)
Lemma unvisited_edges_untouched w nodeId w' e :
  uniqueIds (cy w) ->
  collapse w nodeId = (w', true) ->
  e ∈ cy_edges (cy w) ->
  (forall d, d ∈ descendants (cy w) nodeId -> touches e d = false) ->
  (forall data, projectionEdgesMap (state w') !! nodeId = Some data ->
                e_id e ∉ originalIds data)
  /\ (e_id e ∈ hiddenIds (state w') <-> e_id e ∈ hiddenIds (state w)).
Proof.
  intros Hu Hc He Hfar.
  pose proof (uniqueIds_edges _ Hu) as Hue. pose proof (uniqueIds_nodes _ Hu) as Hun.
  destruct (collapse_spec _ _ _ Hc).
  split.
  - intros data. rewrite cs_projections0, lookup_insert_eq. intros [= <-]. simpl.
    intros (e2 & Hid & Hin)%list_elem_of_fmap.
    destruct (scanEdges_from_nodes (cy (beforeProjections w nodeId))
                (descendantIdSet nodeId (descendants (cy w) nodeId))
                (descendants (cy w) nodeId) e2) as (d & Hd & Hn).
    { apply elem_of_app. left. exact Hin. }
    apply elem_of_nodeEdges in Hn as [Hn Ht].
    destruct (beforeProjections_spec w nodeId).
    destruct (edgeEnds_elem _ _ e2 hs_edges0 Hn) as (e3 & He3 & Hends).
    rewrite <- (e_id_ends _ _ Hends) in Hid.
    apply (unique_edge _ _ _ Hue He He3) in Hid as <-.
    rewrite <- (touches_ends _ _ d Hends), (Hfar d Hd) in Ht. discriminate.
  - rewrite cs_hiddenIds0.
    assert (H1 : e_id e ∉ subtreeEdgeIds (cy w) (descendants (cy w) nodeId)).
    { intros (e2 & d & He2 & Hid & Hd & Ht)%elem_of_subtreeEdgeIds.
      apply (unique_edge _ _ _ Hue He2 He) in Hid as ->.
      rewrite (Hfar d Hd) in Ht. discriminate. }
    assert (H2 : e_id e ∉ descendants (cy w) nodeId).
    { intros Hd. apply (descendants_isNode _ _ _ Hun), isNode_true in Hd.
      unfold uniqueIds in Hu. apply NoDup_app in Hu as (_ & Hdisj & _).
      apply (Hdisj _ Hd). now apply list_elem_of_fmap_2. }
    set_solver.
Qed.

(** C3, as the code has it.  After a successful [collapse] of [nodeId],
    every edge of the store that touches a descendant and has exactly one
    endpoint inside the subtree (descendants and the node itself) is
    classified as a boundary edge: its id is among the recorded original
    ids, it belongs to the group of its key, and it is hidden.  Edges that
    touch the subtree only at the collapsing node itself are not scanned. *)
Theorem boundary_edges_are_projected w nodeId w' e d :
  let inside := descendantIdSet nodeId (descendants (cy w) nodeId) in
  uniqueEdgeIds (cy w) ->
  collapse w nodeId = (w', true) ->
  e ∈ cy_edges (cy w) ->
  d ∈ descendants (cy w) nodeId -> touches e d = true ->
  isBoundary inside e = true ->
  (exists data, projectionEdgesMap (state w') !! nodeId = Some data
                /\ e_id e ∈ originalIds data
                /\ NoDup (originalIds data)
                /\ length (projIds data) = length (collapseGroups w nodeId))
  /\ (exists key es, groupKey inside e = Some key
                     /\ (key, es) ∈ collapseGroups w nodeId
                     /\ e_id e ∈ e_id <$> es)
  /\ isHiddenEle w' (e_id e) = true.
Proof.
  intros inside Hu Hc He Hd Ht Hb.
  destruct (collapse_spec _ _ _ Hc).
  destruct (scanned_counterpart w nodeId e He) as (e' & He' & Hends).
  destruct (beforeProjections_spec w nodeId).
  assert (Hu' : uniqueEdgeIds (cy (beforeProjections w nodeId))).
  { eapply edgeEnds_uniqueEdgeIds; [exact hs_edges0 | exact Hu]. }
  destruct (scanEdges_inv (cy (beforeProjections w nodeId)) inside
              (descendants (cy w) nodeId) Hu') as [[_ _ Hseen] Hall].
  fold (collapseScan w nodeId) in Hseen, Hall.
  assert (Hext : e' ∈ externalEdges (collapseScan w nodeId)).
  { apply Hseen; [exact He' | | now rewrite (isBoundary_ends _ _ _ Hends)].
    apply (Hall d); [exact Hd|]. apply elem_of_nodeEdges. split; [exact He'|].
    now rewrite (touches_ends _ _ _ Hends). }
  split; [|split].
  - eexists. rewrite cs_projections0, lookup_insert_eq. split; [reflexivity|].
    simpl. split; [|split; [|now rewrite length_fmap, length_seq]].
    + rewrite <- (e_id_ends _ _ Hends). now apply list_elem_of_fmap_2.
    + apply scanEdges_NoDup.
  - destruct (boundary_groupKey inside e Hb) as [key Hkey].
    destruct (groupEdges_spec inside (externalEdges (collapseScan w nodeId)))
      as (_ & Hnew & _).
    destruct (Hnew e' key Hext) as (es & Hin & Hes).
    { now rewrite (groupKey_ends _ _ _ Hends). }
    exists key, es. split; [exact Hkey|]. split; [exact Hin|].
    rewrite <- (e_id_ends _ _ Hends). now apply list_elem_of_fmap_2.
  - apply isHiddenEle_hiddenIds. rewrite cs_hiddenIds0.
    apply elem_of_union_l, elem_of_union_l, elem_of_subtreeEdgeIds. eauto 6.
Qed.

(** C4, as the code has it.  After a successful [collapse] of [nodeId], an
    edge with both endpoints inside the subtree (descendants and the node
    itself) is in no projection group and not among the recorded original
    ids, so no projection stands for it; it is hidden when one of its
    endpoints is a descendant. *)
Theorem internal_edges_not_projected w nodeId w' e :
  let inside := descendantIdSet nodeId (descendants (cy w) nodeId) in
  uniqueEdgeIds (cy w) ->
  collapse w nodeId = (w', true) ->
  e ∈ cy_edges (cy w) ->
  isInternal inside e = true ->
  (forall data, projectionEdgesMap (state w') !! nodeId = Some data ->
                e_id e ∉ originalIds data)
  /\ (forall key es, (key, es) ∈ collapseGroups w nodeId -> e_id e ∉ e_id <$> es)
  /\ groupKey inside e = None
  /\ (forall d, d ∈ descendants (cy w) nodeId -> touches e d = true ->
                isHiddenEle w' (e_id e) = true).
Proof.
  intros inside Hu Hc He Hi.
  destruct (collapse_spec _ _ _ Hc).
  destruct (scanned_counterpart w nodeId e He) as (e' & He' & Hends).
  destruct (beforeProjections_spec w nodeId).
  assert (Hu' : uniqueEdgeIds (cy (beforeProjections w nodeId))).
  { eapply edgeEnds_uniqueEdgeIds; [exact hs_edges0 | exact Hu]. }
  destruct (scanEdges_inv (cy (beforeProjections w nodeId)) inside
              (descendants (cy w) nodeId) Hu') as [[Hext _ _] _].
  fold (collapseScan w nodeId) in Hext.
  assert (Hnot : e_id e ∉ e_id <$> externalEdges (collapseScan w nodeId)).
  { intros (e2 & Hid & Hin)%list_elem_of_fmap.
    destruct (Hext e2 Hin) as (He2 & Hb2 & _).
    rewrite <- (e_id_ends _ _ Hends) in Hid.
    apply (unique_edge _ _ _ Hu' He' He2) in Hid as <-.
    rewrite (isBoundary_ends _ _ _ Hends), (internal_not_boundary _ _ Hi) in Hb2.
    discriminate. }
  split; [|split; [|split]].
  - intros data. rewrite cs_projections0, lookup_insert_eq. intros [= <-]. exact Hnot.
  - intros key es Hin (e2 & Hid & He2)%list_elem_of_fmap.
    destruct (groupEdges_spec inside (externalEdges (collapseScan w nodeId)))
      as (_ & _ & Hinv).
    destruct (Hinv key es e2 Hin He2) as [Hin2 _].
    apply Hnot. rewrite Hid. now apply list_elem_of_fmap_2.
  - destruct (groupKey inside e) as [key|] eqn:Hk; [|reflexivity].
    apply groupKey_boundary in Hk. rewrite (internal_not_boundary _ _ Hi) in Hk.
    discriminate.
  - intros d Hd Ht. apply isHiddenEle_hiddenIds. rewrite cs_hiddenIds0.
    apply elem_of_union_l, elem_of_union_l, elem_of_subtreeEdgeIds. eauto 6.
Qed.

(** C10, as the code has it.  A successful [collapse] of [nodeId] does not
    change whether [nodeId] itself is hidden: the ids it adds to the hidden
    set are descendants and edges incident to a descendant, and every edge
    it adds to the store is a projection edge with [nodeId] as an endpoint.
    So a node that was visible before its collapse is visible after it, and
    its projection edges attach to a visible node. *)
Theorem collapse_keeps_own_visibility w nodeId w' :
  uniqueIds (cy w) ->
  isNode (cy w) nodeId = true ->
  nodeId ∉ descendants (cy w) nodeId ->
  collapse w nodeId = (w', true) ->
  isHiddenEle w' nodeId = isHiddenEle w nodeId
  /\ (forall id, id ∈ hiddenIds (state w') ->
        id ∈ hiddenIds (state w)
        \/ id ∈ descendants (cy w) nodeId
        \/ exists e d, e ∈ cy_edges (cy w) /\ e_id e = id
                       /\ d ∈ descendants (cy w) nodeId /\ touches e d = true)
  /\ (forall e, e ∈ cy_edges (cy w') -> e_id e ∉ e_id <$> cy_edges (cy w) ->
        e_isProjection e = true
        /\ (e_source e = nodeId \/ e_target e = nodeId))
  /\ (isHiddenEle w nodeId = false -> isHiddenEle w' nodeId = false).
Proof.
  intros Hu Hn Hacyclic Hc.
  destruct (collapse_spec _ _ _ Hc).
  assert (Hnot : nodeId ∉ subtreeEdgeIds (cy w) (descendants (cy w) nodeId)).
  { intros (e & d & He & Hid & _)%elem_of_subtreeEdgeIds.
    apply isNode_true in Hn. unfold uniqueIds in Hu.
    apply NoDup_app in Hu as (_ & Hdisj & _). apply (Hdisj nodeId Hn).
    rewrite <- Hid. now apply list_elem_of_fmap_2. }
  assert (Hsame : isHiddenEle w' nodeId = isHiddenEle w nodeId).
  { unfold isHiddenEle. f_equal.
    - apply bool_decide_ext. rewrite cs_hiddenIds0. set_solver.
    - apply isNode_nodeHidden in Hn as [b Hb].
      pose proof (cs_nodeHidden0 nodeId Hacyclic Hnot) as Hb'. rewrite Hb in Hb'.
      now rewrite (dataHidden_node _ _ _ Hb), (dataHidden_node _ _ _ Hb'). }
  split; [exact Hsame|]. split; [|split].
  - intros id. rewrite cs_hiddenIds0.
    intros [[Hin|Hin]%elem_of_union|Hin]%elem_of_union.
    + right. right. now apply elem_of_subtreeEdgeIds.
    + right. left. now apply elem_of_list_to_set in Hin.
    + now left.
  - intros e He Hid. destruct cs_edges0 as (old & new & Hedges & Hold & Hnew & _).
    rewrite Hedges in He. apply elem_of_app in He as [He|He].
    + exfalso. apply Hid. rewrite <- edgeEnds_ids, <- Hold, <- list_fmap_compose.
      change (e_id e)
        with (((fun x : string * string * string * bool => x.1.1.1) ∘ ends) e).
      now apply list_elem_of_fmap_2.
    + rewrite Forall_forall in Hnew. destruct (Hnew e He) as (Hp & _ & Hst & _).
      now split.
  - now rewrite Hsame.
Qed.

End CollapseTheorems.

(** ** A successful [expand], step by step *)

Section ExpandFacts.
Context {R : Type} `{Number R}.

Implicit Types (w : World R) (g : Cy R) (id nodeId : string) (e : edge).

Lemma shown_not_hidden w id : shown w id -> isHiddenEle w id = false.
Proof.
  intros [Hid Hn]. unfold isHiddenEle.
  rewrite bool_decide_eq_false_2 by exact Hid. simpl.
  now apply dataHidden_node.
Qed.

Lemma showElement_keeps_shown w id x : shown w x -> shown (showElement w id) x.
Proof.
  intros [Hid Hn]. split; simpl; [set_solver|].
  rewrite nodeHidden_setHiddenData, Hn. now destruct (decide (x = id)).
Qed.

Lemma showElement_shows w id : isNode (cy w) id = true -> shown (showElement w id) id.
Proof.
  intros Hn. split; simpl; [set_solver|].
  rewrite nodeHidden_setHiddenData, decide_True by reflexivity.
  apply isNode_nodeHidden in Hn as [b ->]. reflexivity.
Qed.

Lemma showEdgeIfVisible_onlyVisibility w e : onlyVisibility w (showEdgeIfVisible w e).
Proof.
  unfold showEdgeIfVisible. destruct (_ && _);
    [apply showElement_onlyVisibility | apply onlyVisibility_refl].
Qed.

Lemma showEdgeIfVisible_keeps_shown w e x : shown w x -> shown (showEdgeIfVisible w e) x.
Proof.
  unfold showEdgeIfVisible. destruct (_ && _); [apply showElement_keeps_shown | auto].
Qed.

Lemma showEdges_onlyVisibility (l : list edge) w :
  onlyVisibility w (fold_left showEdgeIfVisible l w).
Proof.
  apply (fold_left_inv (onlyVisibility w)); [|apply onlyVisibility_refl].
  intros a b _ Ha. eapply onlyVisibility_trans; [exact Ha|].
  apply showEdgeIfVisible_onlyVisibility.
Qed.

Lemma showEdges_keeps_shown (l : list edge) w x :
  shown w x -> shown (fold_left showEdgeIfVisible l w) x.
Proof.
  intros Hx. apply (fold_left_inv (fun w => shown w x)); [|exact Hx].
  intros a b _. apply showEdgeIfVisible_keeps_shown.
Qed.

Lemma showDescendant_onlyVisibility nodeId w id :
  onlyVisibility w (showDescendant nodeId w id).
Proof.
  unfold showDescendant. destruct (hasElementWithId (cy w) id);
    [|apply onlyVisibility_refl].
  destruct (showable w nodeId id); [|apply onlyVisibility_refl].
  eapply onlyVisibility_trans; [apply showElement_onlyVisibility|].
  apply showEdges_onlyVisibility.
Qed.

Lemma showDescendant_keeps_shown nodeId w id x :
  shown w x -> shown (showDescendant nodeId w id) x.
Proof.
  intros Hx. unfold showDescendant. destruct (hasElementWithId (cy w) id); [|exact Hx].
  destruct (showable w nodeId id); [|exact Hx].
  now apply showEdges_keeps_shown, showElement_keeps_shown.
Qed.

Lemma showDescendant_shows nodeId w id :
  isNode (cy w) id = true -> showable w nodeId id = true ->
  shown (showDescendant nodeId w id) id.
Proof.
  intros Hn Hs. unfold showDescendant, hasElementWithId. rewrite Hn, Hs. simpl.
  now apply showEdges_keeps_shown, showElement_shows.
Qed.

Lemma showAll_onlyVisibility nodeId (l : list string) w :
  onlyVisibility w (fold_left (showDescendant nodeId) l w).
Proof.
  apply (fold_left_inv (onlyVisibility w)); [|apply onlyVisibility_refl].
  intros a b _ Ha. eapply onlyVisibility_trans; [exact Ha|].
  apply showDescendant_onlyVisibility.
Qed.

Lemma showable_onlyVisibility w w' nodeId id :
  onlyVisibility w w' -> showable w' nodeId id = showable w nodeId id.
Proof.
  intros []. unfold showable.
  now rewrite (hierarchy_parent _ _ id ov_hierarchy0), ov_collapsed0.
Qed.

Lemma showAll_shows nodeId (l : list string) w :
  (forall d, d ∈ l -> isNode (cy w) d = true /\ showable w nodeId d = true) ->
  forall d, d ∈ l -> shown (fold_left (showDescendant nodeId) l w) d.
Proof.
  revert w. induction l as [|x l IH]; intros w Hl d Hd; [now apply elem_of_nil in Hd|].
  simpl.
  pose proof (showDescendant_onlyVisibility nodeId w x) as Hov.
  destruct (decide (d ∈ l)) as [Hin|Hin].
  - apply IH; [|exact Hin]. intros d' Hd'.
    destruct (Hl d') as [Hn Hs]; [now right|].
    rewrite (showable_onlyVisibility _ _ _ _ Hov). split; [|exact Hs].
    destruct Hov. now rewrite (hierarchy_isNode _ _ d' ov_hierarchy0).
  - apply elem_of_cons in Hd as [->|Hd]; [|contradiction].
    apply (fold_left_inv (fun w => shown w x)).
    + intros a b _. apply showDescendant_keeps_shown.
    + destruct (Hl x) as [Hn Hs]; [left|]. now apply showDescendant_shows.
Qed.

Lemma showAll_hiddenIds nodeId (l : list string) w :
  hiddenIds (state (fold_left (showDescendant nodeId) l w)) ⊆ hiddenIds (state w).
Proof.
  apply (fold_left_inv (fun w' => hiddenIds (state w') ⊆ hiddenIds (state w)));
    [|reflexivity].
  intros a b _ Ha. etransitivity; [|exact Ha]. clear Ha.
  unfold showDescendant. destruct (hasElementWithId (cy a) b); [|reflexivity].
  destruct (showable a nodeId b); [|reflexivity].
  apply (fold_left_inv
           (fun w' => hiddenIds (state w') ⊆ hiddenIds (state a))).
  - intros a' e _ Ha'. etransitivity; [|exact Ha'].
    unfold showEdgeIfVisible. destruct (_ && _); simpl; set_solver.
  - simpl. set_solver.
Qed.

(** *** [removeProjections] and [restoreLocalPositions] *)

Lemma removeAll_nodes (projIds : list string) g :
  (forall id, id ∈ projIds -> isNode g id = false) ->
  let g1 := fold_left
              (fun g projId => if hasElementWithId g projId then remove g projId else g)
              projIds g in
  cy_nodes g1 = cy_nodes g
  /\ cy_emitted g1 = cy_emitted g /\ cy_animations g1 = cy_animations g.
Proof.
  revert g. induction projIds as [|x l IH]; intros g Hl; simpl; [auto|].
  assert (Hx : isNode g x = false) by (apply Hl; left).
  set (g' := if hasElementWithId g x then remove g x else g).
  assert (Hg' : cy_nodes g' = cy_nodes g /\ cy_emitted g' = cy_emitted g
                /\ cy_animations g' = cy_animations g).
  { subst g'. destruct (hasElementWithId g x); [|auto].
    unfold remove. now rewrite Hx. }
  destruct Hg' as (Hn & Hem & Han).
  destruct (IH g') as (Hn' & Hem' & Han').
  - intros id Hid. unfold isNode, getNode. rewrite Hn. apply Hl. now right.
  - repeat split; congruence.
Qed.

Lemma restoreAll_spec (animated : bool) (duration : N) (parentPos : point R)
    (positions : gmap string (local R)) (l : list string) g :
  let newPos (lp : local R) := Point (nadd (px parentPos) (lx lp))
                                     (nadd (py parentPos) (ly lp)) in
  let g1 := fold_left
      (fun g child =>
         match positions !! child with
         | Some localPos =>
             if animated then animateTo g child (newPos localPos) duration
             else setPosition g child (newPos localPos)
         | None => g
         end) l g in
  hierarchy g1 = hierarchy g
  /\ cy_edges g1 = cy_edges g
  /\ cy_emitted g1 = cy_emitted g
  /\ (forall id, nodeHidden g1 id = nodeHidden g id)
  /\ (forall id, position g1 id
        = if animated then position g id
          else match positions !! id with
               | Some lp => if decide (id ∈ l)
                            then (fun _ => newPos lp) <$> position g id
                            else position g id
               | None => position g id
               end)
  /\ (forall c lp, animated = true -> c ∈ l -> positions !! c = Some lp ->
        Animation c (newPos lp) duration ∈ cy_animations g1)
  /\ (animated = false -> cy_animations g1 = cy_animations g).
Proof.
  intros newPos. revert g. induction l as [|x l IH]; intros g; cbn [fold_left].
  - repeat split; try reflexivity.
    + intros id. destruct animated; [reflexivity|].
      destruct (positions !! id); [|reflexivity].
      rewrite decide_False; [reflexivity | apply not_elem_of_nil].
    + intros c lp _ Hc. now apply elem_of_nil in Hc.
  - set (g' := match positions !! x with
               | Some localPos =>
                   if animated then animateTo g x (newPos localPos) duration
                   else setPosition g x (newPos localPos)
               | None => g
               end).
    destruct (IH g') as (Hh & He & Hem & Hnh & Hpos & Han & Hna). clear IH.
    assert (Hg' : hierarchy g' = hierarchy g /\ cy_edges g' = cy_edges g
                  /\ cy_emitted g' = cy_emitted g
                  /\ (forall id, nodeHidden g' id = nodeHidden g id)).
    { subst g'. destruct (positions !! x); [|auto]. destruct animated.
      - repeat split; reflexivity.
      - repeat split; try reflexivity; [apply hierarchy_setPosition|].
        intros id. apply nodeHidden_setPosition. }
    destruct Hg' as (Hh' & He' & Hem' & Hnh').
    split; [congruence|]. split; [congruence|]. split; [congruence|].
    split; [intros id; now rewrite Hnh|]. split; [|split].
    + intros id. rewrite Hpos. destruct animated.
      { subst g'. now destruct (positions !! x). }
      subst g'. destruct (positions !! id) as [lp|] eqn:Hid.
      * destruct (decide (id = x)) as [->|Hne].
        -- rewrite Hid, position_setPosition.
           destruct (decide (x = x)) as [_|Hc]; [|contradiction].
           rewrite (decide_True (P := x ∈ x :: l)) by left.
           destruct (decide (x ∈ l)); [|reflexivity].
           now destruct (position g x).
        -- assert (Hsame : position
                     match positions !! x with
                     | Some localPos => setPosition g x (newPos localPos)
                     | None => g
                     end id = position g id).
           { destruct (positions !! x); [|reflexivity].
             now rewrite position_setPosition, decide_False. }
           rewrite Hsame.
           destruct (decide (id ∈ l)) as [Hl|Hl].
           ++ now rewrite decide_True by now right.
           ++ rewrite decide_False; [reflexivity|].
              intros [?|?]%elem_of_cons; contradiction.
      * destruct (positions !! x) as [lp|] eqn:Hx; [|reflexivity].
        rewrite position_setPosition, decide_False; [reflexivity | congruence].
    + intros c lp Ha Hc Hlp. destruct (decide (c ∈ l)) as [Hl|Hl]; [now apply (Han c lp)|].
      apply elem_of_cons in Hc as [->|Hc]; [|contradiction].
      assert (Hin : Animation x (newPos lp) duration ∈ cy_animations g').
      { subst g'. rewrite Hlp, Ha. simpl. apply elem_of_app. right. left. }
      revert Hin. clear. generalize g'. clear g'.
      induction l as [|y l IH]; intros g' Hin; cbn [fold_left]; [exact Hin|].
      apply IH. destruct (positions !! y); [|exact Hin].
      destruct animated; [|exact Hin]. simpl. apply elem_of_app. now left.
    + intros Ha. rewrite (Hna Ha). subst g'. rewrite Ha.
      now destruct (positions !! x).
Qed.

End ExpandFacts.

Section ExpandSpec.
Context {R : Type} `{Number R}.

Implicit Types (w : World R) (g : Cy R) (id nodeId : string) (e : edge).

Lemma expand_success w opts nodeId :
  nodeId ∈ collapsedIds (state w) ->
  expand w opts nodeId
  = (let descendantIds := default [] (hiddenElementsMap (state w) !! nodeId) in
     let w1 := fold_left (showDescendant nodeId) descendantIds w in
     let w2 := removeProjections w1 nodeId in
     let w3 := restoreLocalPositions w2 opts nodeId in
     let w4 := withCollapsedIds w3 (collapsedIds (state w3) ∖ {[nodeId]}) in
     let w5 := withHiddenElementsMap w4 (delete nodeId (hiddenElementsMap (state w4))) in
     (withCy w5 (emit (cy w5) (EvExpand nodeId)), true)).
Proof.
  intros Hc. unfold expand.
  now destruct (decide (nodeId ∈ collapsedIds (state w))).
Qed.

Lemma removeProjections_spec w nodeId :
  (forall data id, projectionEdgesMap (state w) !! nodeId = Some data ->
                   id ∈ projIds data -> isNode (cy w) id = false) ->
  unprojected w nodeId (removeProjections w nodeId).
Proof.
  intros Hids. unfold removeProjections.
  destruct (projectionEdgesMap (state w) !! nodeId) as [data|] eqn:Hd.
  - destruct (removeAll_nodes (projIds data) (cy w)) as (Hn & Hem & Han).
    { intros id. now apply Hids. }
    constructor; simpl; auto.
  - constructor; try reflexivity. now rewrite delete_id.
Qed.

Lemma restoreLocalPositions_spec w opts nodeId :
  restored w nodeId (restoreLocalPositions w opts nodeId).
Proof.
  unfold restoreLocalPositions.
  destruct (savedPositionsMap (state w) !! nodeId) as [positions|] eqn:Hs.
  - destruct (position (cy w) nodeId) as [parentPos|].
    + destruct (restoreAll_spec (animate opts) (durationOr300 opts) parentPos positions
                  (children (cy w) nodeId) (cy w)) as (Hh & He & Hem & Hnh & _).
      constructor; simpl; auto.
    + constructor; reflexivity.
  - constructor; try reflexivity. now rewrite delete_id.
Qed.

Lemma restoreLocalPositions_position w opts nodeId positions parentPos c lp :
  savedPositionsMap (state w) !! nodeId = Some positions ->
  position (cy w) nodeId = Some parentPos ->
  c ∈ children (cy w) nodeId ->
  positions !! c = Some lp ->
  let w' := restoreLocalPositions w opts nodeId in
  let newPos := Point (nadd (px parentPos) (lx lp)) (nadd (py parentPos) (ly lp)) in
  if animate opts
  then position (cy w') c = position (cy w) c
       /\ Animation c newPos (durationOr300 opts) ∈ cy_animations (cy w')
  else position (cy w') c = (fun _ => newPos) <$> position (cy w) c.
Proof.
  intros Hs Hp Hc Hlp. unfold restoreLocalPositions. rewrite Hs, Hp. simpl.
  destruct (restoreAll_spec (animate opts) (durationOr300 opts) parentPos positions
              (children (cy w) nodeId) (cy w)) as (_ & _ & _ & _ & Hpos & Han & _).
  destruct (animate opts).
  - split; [apply Hpos | now apply Han].
  - rewrite Hpos, Hlp. now rewrite decide_True.
Qed.

End ExpandSpec.

(** ** Aggregation: one projection per direction and external node *)

Section Aggregation.
Context {R : Type} `{Number R}.

Implicit Types (w : World R) (g : Cy R) (id nodeId : string) (e : edge).

Lemma split_go_colonFree (cur s : string) :
  colonFree s = true -> split_go colon cur s = [String.rev_app cur s].
Proof.
  revert cur. induction s as [|c s IH]; intros cur Hs; [reflexivity|].
  simpl in Hs. apply andb_true_iff in Hs as [Hc Hs]. apply negb_true_iff in Hc.
  cbn [split_go]. rewrite Hc. now rewrite IH.
Qed.

Lemma projectionEnds_out parentId x :
  colonFree x = true -> projectionEnds parentId (out_key x) = (parentId, x).
Proof.
  intros Hx. unfold projectionEnds, out_key, split.
  change ("out:" +:+ x)
    with (String "o"%char (String "u"%char (String "t"%char (String ":"%char x)))).
  cbn -[String.eqb]. now rewrite (split_go_colonFree "" x Hx).
Qed.

Lemma projectionEnds_in parentId x :
  colonFree x = true -> projectionEnds parentId (in_key x) = (x, parentId).
Proof.
  intros Hx. unfold projectionEnds, in_key, split.
  change ("in:" +:+ x) with (String "i"%char (String "n"%char (String ":"%char x))).
  cbn -[String.eqb]. now rewrite (split_go_colonFree "" x Hx).
Qed.

Lemma pushGroup_nonempty key e (groups : list (string * list edge)) :
  Forall (fun p => p.2 <> []) groups -> Forall (fun p => p.2 <> []) (pushGroup key e groups).
Proof.
  induction groups as [|[k es] groups IH]; intros Hg; simpl.
  - now repeat constructor.
  - apply Forall_cons in Hg as [Hes Hg]. destruct (String.eqb k key).
    + constructor; [|exact Hg]. simpl. now destruct es.
    + constructor; [exact Hes | now apply IH].
Qed.

Lemma groupEdges_nonempty (inside : gset string) (external : list edge) :
  Forall (fun p => p.2 <> []) (groupEdges inside external).
Proof.
  unfold groupEdges. apply (fold_left_inv (Forall (fun p => p.2 <> []))); [|constructor].
  intros groups e _ Hg. destruct (groupKey inside e); [now apply pushGroup_nonempty | exact Hg].
Qed.

(** The shape of a group key: direction, and an external endpoint of one of
    the edges of the store. *)
Lemma collapseGroups_keys w nodeId key :
  uniqueEdgeIds (cy w) ->
  key ∈ fst <$> collapseGroups w nodeId ->
  exists e, e ∈ cy_edges (cy w)
    /\ ((key = out_key (e_target e) /\ e_target e <> nodeId)
        \/ (key = in_key (e_source e) /\ e_source e <> nodeId)).
Proof.
  intros Hu ([k es] & -> & Hin)%list_elem_of_fmap. simpl.
  set (inside := descendantIdSet nodeId (descendants (cy w) nodeId)).
  pose proof (groupEdges_nonempty inside (externalEdges (collapseScan w nodeId))) as Hne.
  rewrite Forall_forall in Hne. specialize (Hne _ Hin). simpl in Hne.
  destruct es as [|e' es]; [contradiction|].
  destruct (groupEdges_spec inside (externalEdges (collapseScan w nodeId)))
    as (_ & _ & Hinv).
  destruct (Hinv k (e' :: es) e' Hin) as [Hext Hkey]; [left|].
  destruct (beforeProjections_spec w nodeId).
  assert (Hu' : uniqueEdgeIds (cy (beforeProjections w nodeId))).
  { eapply edgeEnds_uniqueEdgeIds; [exact hs_edges0 | exact Hu]. }
  destruct (scanEdges_inv (cy (beforeProjections w nodeId)) inside
              (descendants (cy w) nodeId) Hu') as [[Hsc _ _] _].
  destruct (Hsc e' Hext) as (He' & _ & _).
  destruct (edgeEnds_elem _ _ e' hs_edges0 He') as (e & He & Hends).
  exists e. split; [exact He|].
  rewrite <- (groupKey_ends inside _ _ Hends) in Hkey.
  assert (HP : nodeId ∈ inside) by (unfold inside, descendantIdSet; set_solver).
  unfold groupKey in Hkey.
  destruct (bool_decide (e_source e ∈ inside)) eqn:Hs,
           (bool_decide (e_target e ∈ inside)) eqn:Ht; simpl in Hkey;
    try discriminate; injection Hkey as <-.
  - left. split; [reflexivity|]. apply bool_decide_eq_false in Ht. congruence.
  - right. split; [reflexivity|]. apply bool_decide_eq_false in Hs. congruence.
Qed.

Lemma in_key_out_key x y : in_key x <> out_key y.
Proof. discriminate. Qed.

(** X26.  When no endpoint id contains a colon, [collapse] creates at most
    one projection edge for each ordered pair of endpoints, that is, at
    most one per direction and external node; each one joins the collapsed
    node and an external endpoint of an edge of the store. *)
Lemma projections_unique_without_colons w nodeId w' :
  uniqueEdgeIds (cy w) ->
  (forall e, e ∈ cy_edges (cy w) ->
             colonFree (e_source e) = true /\ colonFree (e_target e) = true) ->
  collapse w nodeId = (w', true) ->
  exists old new,
    cy_edges (cy w') = old ++ new
    /\ ends <$> old = edgeEnds (cy w)
    /\ NoDup ((fun e => (e_source e, e_target e)) <$> new)
    /\ Forall (fun p => exists e, e ∈ cy_edges (cy w)
                  /\ ((p = (nodeId, e_target e) /\ e_target e <> nodeId)
                      \/ (p = (e_source e, nodeId) /\ e_source e <> nodeId)))
              ((fun e => (e_source e, e_target e)) <$> new).
Proof.
  intros Hu Hfree Hc. destruct (collapse_spec _ _ _ Hc).
  destruct cs_edges0 as (old & new & He & Hold & _ & Hsub).
  exists old, new. split; [exact He|]. split; [exact Hold|].
  assert (Hkeys : forall key, key ∈ fst <$> collapseGroups w nodeId ->
            exists e, e ∈ cy_edges (cy w)
              /\ ((key = out_key (e_target e) /\ e_target e <> nodeId
                   /\ projectionEnds nodeId key = (nodeId, e_target e))
                  \/ (key = in_key (e_source e) /\ e_source e <> nodeId
                      /\ projectionEnds nodeId key = (e_source e, nodeId)))).
  { intros key Hkey.
    destruct (collapseGroups_keys w nodeId key Hu Hkey) as (e & Hin & Hshape).
    exists e. split; [exact Hin|]. destruct (Hfree e Hin) as [Hs Ht].
    destruct Hshape as [[-> Hne]|[-> Hne]]; [left | right];
      (split; [reflexivity|]); (split; [exact Hne|]);
      [now apply projectionEnds_out | now apply projectionEnds_in]. }
  split.
  - eapply sublist_NoDup; [|exact Hsub].
    apply NoDup_fmap_2_strong.
    2:{ unfold collapseGroups.
        now destruct (groupEdges_spec
                        (descendantIdSet nodeId (descendants (cy w) nodeId))
                        (externalEdges (collapseScan w nodeId))) as (Hnd & _). }
    intros k1 k2 Hk1 Hk2 Heq.
    destruct (Hkeys k1 Hk1) as (e1 & _ & [(-> & Hn1 & Hp1)|(-> & Hn1 & Hp1)]);
      destruct (Hkeys k2 Hk2) as (e2 & _ & [(-> & Hn2 & Hp2)|(-> & Hn2 & Hp2)]);
      rewrite Hp1, Hp2 in Heq; congruence.
  - rewrite Forall_forall. intros p Hp.
    apply (sublist_subseteq _ _ Hsub) in Hp.
    apply list_elem_of_fmap in Hp as (key & -> & Hkey).
    destruct (Hkeys key Hkey) as (e & Hin & [(_ & Hne & ->)|(_ & Hne & ->)]);
      exists e; (split; [exact Hin|]); [left | right]; now split.
Qed.

End Aggregation.

(** ** Nested collapse: what the guard of [expand] keeps hidden *)

Section Nesting.
Context {R : Type} `{Number R}.

Implicit Types (w : World R) (g : Cy R) (id nodeId : string) (e : edge).

Lemma removeProjections_state w nodeId :
  collapsedIds (state (removeProjections w nodeId)) = collapsedIds (state w)
  /\ hiddenIds (state (removeProjections w nodeId)) = hiddenIds (state w).
Proof.
  unfold removeProjections. now destruct (projectionEdgesMap (state w) !! nodeId).
Qed.

Lemma showEdges_keeps_hidden (l : list edge) w c :
  (forall e, e ∈ l -> e_id e <> c) ->
  c ∈ hiddenIds (state w) -> c ∈ hiddenIds (state (fold_left showEdgeIfVisible l w)).
Proof.
  intros Hl Hc. apply (fold_left_inv (fun w' => c ∈ hiddenIds (state w'))); [|exact Hc].
  intros a e He Ha. unfold showEdgeIfVisible. destruct (_ && _); [|exact Ha].
  simpl. specialize (Hl e He). set_solver.
Qed.

(** X27.  Expanding [outer] leaves another collapsed node [inner]
    collapsed and its direct children hidden: the guard refuses to show a
    node whose parent is still collapsed.  Deeper descendants of [inner]
    are not covered by the guard. *)
Lemma expand_keeps_inner_children_hidden w opts outer inner c :
  uniqueIds (cy w) ->
  inner <> outer ->
  inner ∈ collapsedIds (state w) ->
  c ∈ children (cy w) inner ->
  c ∈ hiddenIds (state w) ->
  isCollapsedNode (fst (expand w opts outer)) inner = true
  /\ isHiddenEle (fst (expand w opts outer)) c = true.
Proof.
  intros Hu Hne Hin Hchild Hhidden.
  destruct (decide (outer ∈ collapsedIds (state w))) as [Hout|Hout].
  2:{ rewrite expand_not_collapsed by (now apply bool_decide_eq_false). simpl.
      split; [now apply bool_decide_eq_true | now apply isHiddenEle_hiddenIds]. }
  rewrite (expand_success _ _ _ Hout). cbn [fst].
  set (l := default [] (hiddenElementsMap (state w) !! outer)).
  set (wa := fold_left (showDescendant outer) l w).
  assert (Hwa : onlyVisibility w wa /\ c ∈ hiddenIds (state wa)).
  { subst wa.
    apply (fold_left_inv (fun w' => onlyVisibility w w' /\ c ∈ hiddenIds (state w'))).
    2:{ split; [apply onlyVisibility_refl | exact Hhidden]. }
    intros a d _ [Hov Hc]. split.
    { eapply onlyVisibility_trans; [exact Hov | apply showDescendant_onlyVisibility]. }
    unfold showDescendant. destruct (hasElementWithId (cy a) d); [|exact Hc].
    destruct (showable a outer d) eqn:Hs; [|exact Hc].
    assert (Hd : d <> c).
    { intros ->. rewrite (showable_onlyVisibility _ _ _ _ Hov) in Hs.
      unfold showable in Hs.
      apply (children_parent _ _ _ (uniqueIds_nodes _ Hu)) in Hchild.
      rewrite Hchild in Hs. apply String.eqb_neq in Hne. rewrite Hne in Hs.
      rewrite bool_decide_eq_true_2 in Hs by exact Hin. discriminate. }
    apply showEdges_keeps_hidden; [|simpl; set_solver].
    intros e [He _]%elem_of_nodeEdges Hid.
    pose proof (onlyVisibility_trans _ _ _ Hov (showElement_onlyVisibility a d)) as [].
    apply children_isNode, isNode_true in Hchild.
    unfold uniqueIds in Hu. apply NoDup_app in Hu as (_ & Hdisj & _).
    apply (Hdisj c Hchild). rewrite <- Hid, <- edgeEnds_ids, <- ov_edges0, edgeEnds_ids.
    now apply list_elem_of_fmap_2. }
  destruct Hwa as [[] Hc].
  destruct (removeProjections_state wa outer) as [Hcol Hhid].
  destruct (restoreLocalPositions_spec (removeProjections wa outer) opts outer).
  split.
  - unfold isCollapsedNode. apply bool_decide_eq_true.
    cbn [cy state withCy withCollapsedIds withHiddenElementsMap collapsedIds].
    rewrite rs_collapsed0, Hcol, ov_collapsed0. set_solver.
  - apply isHiddenEle_hiddenIds.
    cbn [cy state withCy withCollapsedIds withHiddenElementsMap hiddenIds].
    now rewrite rs_hiddenIds0, Hhid.
Qed.

End Nesting.

(** ** Round trip *)

Section RoundTrip.
Context {R : Type} `{Number R}.

Implicit Types (w : World R) (g : Cy R) (id nodeId : string).

(** C1, as the code has it.  Round trip: [collapse] of a compound node
    followed at once by [expand] of the same node (so the node has not
    moved in between), with no descendant collapsed on its own, succeeds
    and leaves every descendant not hidden.  Every direct child gets the
    position [roundTrip parentPos childPos]: the offset of the child from
    the parent before the collapse, re-added to the position of the
    parent, both computed in the arithmetic of the program.  It is written
    to the child, or, with [animate] on, queued as the target of an
    animation while the position itself is untouched.  How far that value
    is from the position before the collapse is the rounding error of one
    subtraction and one addition; no bound on it is stated, and over
    doubles there is none. *)
Theorem collapse_expand_round_trip w opts nodeId w1 :
  uniqueNodeIds (cy w) ->
  noReservedNodes (cy w) ->
  (forall d, d ∈ descendants (cy w) nodeId -> isCollapsedNode w d = false) ->
  collapse w nodeId = (w1, true) ->
  let w2 := fst (expand w1 opts nodeId) in
  snd (expand w1 opts nodeId) = true
  /\ (forall d, d ∈ descendants (cy w) nodeId -> isHiddenEle w2 d = false)
  /\ (forall c childPos parentPos,
        c ∈ children (cy w) nodeId ->
        position (cy w) c = Some childPos ->
        position (cy w) nodeId = Some parentPos ->
        if animate opts
        then position (cy w2) c = Some childPos
             /\ Animation c (roundTrip parentPos childPos) (durationOr300 opts)
                ∈ cy_animations (cy w2)
        else position (cy w2) c = Some (roundTrip parentPos childPos)).
Proof.
  intros Hu Hres Hnone Hc w2. subst w2.
  destruct (collapse_spec _ _ _ Hc).
  assert (Hin : nodeId ∈ collapsedIds (state w1)) by (rewrite cs_collapsed0; set_solver).
  rewrite (expand_success _ _ _ Hin). cbn [fst snd]. split; [reflexivity|].
  rewrite cs_hiddenElements0, lookup_insert_eq. cbn [default from_option id].
  set (D := descendants (cy w) nodeId) in *.
  set (wa := fold_left (showDescendant nodeId) D w1).
  pose proof (showAll_onlyVisibility nodeId D w1) as Hov. fold wa in Hov.
  assert (Hshown : forall d, d ∈ D -> shown wa d).
  { apply showAll_shows. intros d Hd. split.
    - rewrite (hierarchy_isNode _ _ d cs_hierarchy0).
      now apply (descendants_isNode _ nodeId).
    - unfold showable. rewrite (hierarchy_parent _ _ d cs_hierarchy0).
      destruct (descendant_parent (cy w) nodeId d Hu Hd) as (p & -> & Hp).
      destruct (String.eqb p nodeId) eqn:Heq; [reflexivity|].
      apply String.eqb_neq in Heq. destruct Hp as [->|Hp]; [contradiction|].
      simpl. rewrite bool_decide_eq_false_2; [reflexivity|].
      rewrite cs_collapsed0. specialize (Hnone p Hp).
      unfold isCollapsedNode in Hnone. apply bool_decide_eq_false in Hnone.
      set_solver. }
  destruct Hov.
  set (wb := removeProjections wa nodeId).
  assert (Hup : unprojected wa nodeId wb).
  { apply removeProjections_spec. intros data id.
    rewrite ov_projections0, cs_projections0, lookup_insert_eq. intros [= <-]. simpl.
    intros (k & -> & _)%list_elem_of_fmap.
    destruct (isNode (cy wa) (proj_id nodeId k)) eqn:Hn; [|reflexivity].
    rewrite (hierarchy_isNode _ (cy w)) in Hn by congruence.
    apply isNode_true in Hn as (n & Hid & Hn)%list_elem_of_fmap.
    unfold noReservedNodes in Hres. rewrite Forall_forall in Hres.
    specialize (Hres n Hn). rewrite <- Hid, proj_id_reserved in Hres. discriminate. }
  destruct Hup.
  set (wc := restoreLocalPositions wb opts nodeId).
  pose proof (restoreLocalPositions_spec wb opts nodeId) as Hrs. fold wc in Hrs.
  destruct Hrs.
  split.
  - intros d Hd. apply shown_not_hidden. destruct (Hshown d Hd) as [Hid Hnh].
    split; cbn [cy state withCy withCollapsedIds withHiddenElementsMap hiddenIds].
    + now rewrite rs_hiddenIds0, up_hiddenIds0.
    + rewrite nodeHidden_emit.
      change (nodeHidden (cy wc) d = Some false).
      now rewrite rs_nodeHidden0, (same_nodes_nodeHidden _ _ d up_nodes0).
  - intros c childPos parentPos Hchild Hpc Hpn.
    cbn [cy state withCy withCollapsedIds withHiddenElementsMap].
    rewrite position_emit.
    change (cy_animations (emit (cy wc) (EvExpand nodeId)))
      with (cy_animations (cy wc)).
    assert (Hposb : forall id, position (cy wb) id = position (cy w) id).
    { intros id. now rewrite (same_nodes_position _ _ id up_nodes0), ov_position0. }
    assert (Hsaved : savedPositionsMap (state wb) !! nodeId
                     = Some (localsOf (cy w) parentPos D)).
    { rewrite up_saved0, ov_saved0, cs_saved0, Hpn. apply lookup_insert_eq. }
    assert (Hchild' : c ∈ children (cy wb) nodeId).
    { rewrite (hierarchy_children _ (cy w)); [exact Hchild|].
      rewrite (same_nodes_hierarchy _ _ up_nodes0). congruence. }
    assert (Hlp : localsOf (cy w) parentPos D !! c
                  = Some (Local (nsub (px childPos) (px parentPos))
                                (nsub (py childPos) (py parentPos)))).
    { rewrite localsOf_spec, decide_True, Hpc; [reflexivity|].
      now apply children_descendants. }
    pose proof (restoreLocalPositions_position wb opts nodeId _ parentPos c _
                  Hsaved (eq_trans (Hposb nodeId) Hpn) Hchild' Hlp) as Hpos.
    fold wc in Hpos. cbn [lx ly] in Hpos. fold (roundTrip parentPos childPos) in Hpos.
    destruct (animate opts).
    + destruct Hpos as [Hpos Han]. split; [|exact Han]. now rewrite Hpos, Hposb.
    + now rewrite Hpos, Hposb, Hpc.
Qed.

End RoundTrip.

(** ** Reachable states and the collapse records *)

Section Records.
Context {R : Type} `{Number R}.

Implicit Types (w : World R) (g : Cy R) (id nodeId : string).

Lemma engineInv_init g0 : engineInv g0 (MkWorld g0 initState).
Proof.
  constructor; simpl; try reflexivity; intros *; rewrite lookup_empty; discriminate.
Qed.

Lemma engineInv_collapse g0 w nodeId :
  engineInv g0 w -> engineInv g0 (fst (collapse w nodeId)).
Proof.
  intros [Hh Hhid Hsav Hproj].
  destruct (collapse w nodeId) as [w' [|]] eqn:Hc; simpl.
  2:{ apply collapse_false_same in Hc as ->. now constructor. }
  destruct (collapse_spec _ _ _ Hc).
  rewrite (hierarchy_descendants _ _ nodeId Hh) in *.
  constructor.
  - congruence.
  - intros n l. rewrite cs_hiddenElements0, lookup_insert.
    destruct (decide (nodeId = n)) as [<-|Hne]; [now intros [= <-] | apply Hhid].
  - intros n m d. rewrite cs_saved0.
    destruct (position (cy w) nodeId) as [parentPos|]; [|apply Hsav].
    rewrite lookup_insert.
    destruct (decide (nodeId = n)) as [<-|Hne]; [|apply Hsav].
    intros [= <-] [lp Hlp]. rewrite localsOf_spec in Hlp.
    destruct (decide (d ∈ descendants g0 nodeId)); [assumption | discriminate].
  - intros n data id. rewrite cs_projections0, lookup_insert.
    destruct (decide (nodeId = n)) as [<-|Hne]; [|apply Hproj].
    intros [= <-]. simpl. intros (k & -> & _)%list_elem_of_fmap.
    apply proj_id_reserved.
Qed.

Lemma reserved_not_node g id :
  noReservedNodes g -> reserved id = true -> isNode g id = false.
Proof.
  intros Hres Hr. destruct (isNode g id) eqn:Hn; [|reflexivity].
  apply isNode_true in Hn as (n & -> & Hn)%list_elem_of_fmap.
  unfold noReservedNodes in Hres. rewrite Forall_forall in Hres.
  rewrite (Hres n Hn) in Hr. discriminate.
Qed.

Lemma engineInv_expand g0 opts w nodeId :
  noReservedNodes g0 ->
  engineInv g0 w -> engineInv g0 (fst (expand w opts nodeId)).
Proof.
  intros Hres [Hh Hhid Hsav Hproj].
  unfold expand. destruct (decide (nodeId ∈ collapsedIds (state w))) as [Hin|Hin];
    [|now constructor].
  cbn [fst].
  set (l := default [] (hiddenElementsMap (state w) !! nodeId)).
  set (wa := fold_left (showDescendant nodeId) l w).
  destruct (showAll_onlyVisibility nodeId l w). fold wa in ov_hierarchy0,
    ov_collapsed0, ov_hiddenElements0, ov_saved0, ov_projections0.
  set (wb := removeProjections wa nodeId).
  assert (Hup : unprojected wa nodeId wb).
  { apply removeProjections_spec. intros data id Hd Hid.
    apply reserved_not_node.
    - apply (hierarchy_noReservedNodes g0); [congruence | exact Hres].
    - rewrite ov_projections0 in Hd. now apply (Hproj nodeId data). }
  destruct Hup.
  set (wc := restoreLocalPositions wb opts nodeId).
  destruct (restoreLocalPositions_spec wb opts nodeId).
  fold wc in rs_hierarchy0, rs_hiddenElements0, rs_projections0, rs_saved0.
  constructor; cbn [cy state withCy withCollapsedIds withHiddenElementsMap
                    hiddenElementsMap savedPositionsMap projectionEdgesMap].
  - rewrite hierarchy_emit, rs_hierarchy0, (same_nodes_hierarchy _ _ up_nodes0).
    congruence.
  - intros n l'. rewrite rs_hiddenElements0, up_hiddenElements0, ov_hiddenElements0.
    intros [_ Hl]%lookup_delete_Some. now apply Hhid.
  - intros n m d. rewrite rs_saved0, up_saved0, ov_saved0.
    intros [_ Hl]%lookup_delete_Some. now apply Hsav.
  - intros n data id. rewrite rs_projections0, up_projections0, ov_projections0.
    intros [_ Hl]%lookup_delete_Some. now apply (Hproj n data id).
Qed.

Lemma reachable_engineInv g0 opts w :
  noReservedNodes g0 -> reachable g0 opts w -> engineInv g0 w.
Proof.
  intros Hres. induction 1 as [|w nodeId _ IH|w nodeId _ IH].
  - apply engineInv_init.
  - now apply engineInv_collapse.
  - now apply engineInv_expand.
Qed.

Lemma recordIds_descendants g0 w nodeId d :
  engineInv g0 w -> d ∈ recordIds w nodeId -> d ∈ descendants g0 nodeId.
Proof.
  intros [_ Hhid Hsav _]. unfold recordIds. intros [Hd|Hd]%elem_of_union.
  - destruct (hiddenElementsMap (state w) !! nodeId) as [l|] eqn:Hl; simpl in Hd.
    + apply elem_of_list_to_set in Hd. now rewrite <- (Hhid nodeId l Hl).
    + set_solver.
  - destruct (savedPositionsMap (state w) !! nodeId) as [m|] eqn:Hm; simpl in Hd.
    + apply elem_of_dom in Hd. now apply (Hsav nodeId m).
    + set_solver.
Qed.

(** C9, as the code has it.  At every state reached by [collapse] and
    [expand] calls on a store with unique node ids and no node id with the
    reserved projection prefix, a record refers to descendants of its node
    only, and the records of two different nodes share an id only when one
    of the two nodes is a descendant of the other: the records of nodes in
    separate subtrees are disjoint, the records of nested collapsed nodes
    are not kept apart. *)
Theorem records_disjoint_unless_nested g0 opts w n m :
  uniqueNodeIds g0 ->
  noReservedNodes g0 ->
  reachable g0 opts w ->
  n <> m ->
  (forall d, d ∈ recordIds w n -> d ∈ descendants g0 n)
  /\ (forall d, d ∈ recordIds w n -> d ∈ recordIds w m ->
        m ∈ descendants g0 n \/ n ∈ descendants g0 m)
  /\ (m ∉ descendants g0 n -> n ∉ descendants g0 m ->
        recordIds w n ## recordIds w m).
Proof.
  intros Hu Hres Hreach Hne.
  pose proof (reachable_engineInv g0 opts w Hres Hreach) as Hinv.
  assert (Hshare : forall d, d ∈ recordIds w n -> d ∈ recordIds w m ->
                     m ∈ descendants g0 n \/ n ∈ descendants g0 m).
  { intros d Hn Hm. apply (descendants_nested g0 n m d Hu Hne).
    - now apply (recordIds_descendants g0 w).
    - now apply (recordIds_descendants g0 w). }
  split; [intros d; now apply recordIds_descendants|]. split; [exact Hshare|].
  intros Hnm Hmn d Hd1 Hd2. destruct (Hshare d Hd1 Hd2); contradiction.
Qed.

End Records.

(** ** Overlap resolution *)

Section Overlaps.
Context {R : Type} `{Number R}.
Variable boundingBox : Cy R -> string -> boundingBoxOf R.

Implicit Types (w : World R) (g : Cy R) (padding : R).


(** A visited pair is separated exactly when it overlaps at that moment. *)
Lemma visitPair_spec padding ni nj g (hasOverlap : bool) :
  visitPair boundingBox padding ni (g, hasOverlap) nj
  = if overlapping boundingBox g ni nj
    then match calculateOverlap boundingBox g ni nj with
         | Some overlap => (separateNodes g ni nj overlap padding, true)
         | None => (g, hasOverlap)
         end
    else (g, hasOverlap).
Proof.
  unfold visitPair, overlapping.
  destruct (related g ni nj); simpl; [reflexivity|].
  now destruct (calculateOverlap boundingBox g ni nj).
Qed.

Lemma visitPair_clean padding ni nj g (hasOverlap : bool) g' :
  visitPair boundingBox padding ni (g, hasOverlap) nj = (g', false) ->
  hasOverlap = false /\ g' = g /\ overlapping boundingBox g ni nj = false.
Proof.
  rewrite visitPair_spec. unfold overlapping.
  destruct (related g ni nj); simpl; [now intros [= <- <-]|].
  destruct (calculateOverlap boundingBox g ni nj); simpl; [discriminate | now intros [= <- <-]].
Qed.

Lemma visitRow_clean padding ni (rest : list string) g (hasOverlap : bool) g' :
  fold_left (visitPair boundingBox padding ni) rest (g, hasOverlap) = (g', false) ->
  hasOverlap = false /\ g' = g /\ existsb (overlapping boundingBox g ni) rest = false.
Proof.
  revert g hasOverlap.
  induction rest as [|nj rest IH]; intros g hasOverlap; cbn [fold_left existsb].
  - now intros [= <- <-].
  - destruct (visitPair boundingBox padding ni (g, hasOverlap) nj) as [g1 f1] eqn:Hv.
    intros (-> & -> & Hex)%IH.
    apply visitPair_clean in Hv as (-> & -> & Hov). now rewrite Hov, Hex.
Qed.

Lemma visitPairs_clean padding (nodes : list string) g (hasOverlap : bool) g' :
  visitPairs boundingBox padding nodes (g, hasOverlap) = (g', false) ->
  hasOverlap = false /\ g' = g /\ anyPair (overlapping boundingBox g) nodes = false.
Proof.
  revert g hasOverlap.
  induction nodes as [|ni rest IH]; intros g hasOverlap; cbn [visitPairs anyPair].
  - now intros [= <- <-].
  - destruct (fold_left (visitPair boundingBox padding ni) rest (g, hasOverlap))
      as [g1 f1] eqn:Hrow.
    intros (-> & -> & Hany)%IH.
    apply visitRow_clean in Hrow as (-> & -> & Hex). now rewrite Hex, Hany.
Qed.

(** A pass that finds no overlap changes nothing, and there is none. *)
Lemma overlapPass_clean padding w w' :
  overlapPass boundingBox padding w = (w', false) ->
  w' = w /\ hasOverlaps boundingBox w = false.
Proof.
  unfold overlapPass, hasOverlaps.
  destruct (visitPairs boundingBox padding (visibleLeaves w) (cy w, false))
    as [g f] eqn:Hv.
  intros [= <- ->]. apply visitPairs_clean in Hv as (_ & -> & Hany).
  split; [now destruct w | exact Hany].
Qed.

Lemma overlapLoop_spec padding (remaining : nat) w (iterations : nat) wl flag iters :
  overlapLoop boundingBox padding remaining w iterations = (wl, flag, iters) ->
  exists k, iters = iterations + k /\ k <= remaining
    /\ wl = afterPasses boundingBox padding k w
    /\ (forall j, S j < k -> passFinds boundingBox padding j w = true)
    /\ (if flag
        then k = remaining /\ forall j, j < k -> passFinds boundingBox padding j w = true
        else exists j, k = S j /\ passFinds boundingBox padding j w = false).
Proof.
  unfold passFinds. revert w iterations.
  induction remaining as [|remaining IH]; intros w iterations; simpl.
  - intros [= <- <- <-]. exists 0. repeat split; try lia; intros j Hj; lia.
  - destruct (overlapPass boundingBox padding w) as [w1 hasOverlap] eqn:Hp.
    destruct hasOverlap.
    + intros (k & -> & Hk & -> & Hbefore & Hflag)%IH.
      assert (Hw1 : w1 = fst (overlapPass boundingBox padding w)) by now rewrite Hp.
      exists (S k). split; [lia|]. split; [lia|]. split; [simpl; now rewrite Hp|].
      split.
      * intros [|j] Hj; simpl; [now rewrite Hp|]. rewrite Hp. apply Hbefore. lia.
      * destruct flag.
        -- destruct Hflag as [-> Hall]. split; [reflexivity|].
           intros [|j] Hj; simpl; [now rewrite Hp|]. rewrite Hp. apply Hall. lia.
        -- destruct Hflag as (j & -> & Hj). exists (S j). split; [reflexivity|].
           simpl. now rewrite Hp.
    + intros [= <- <- <-]. exists 1. split; [lia|]. split; [lia|].
      split; [simpl; now rewrite Hp|]. split; [intros j Hj; lia|].
      exists 0. split; [reflexivity|]. simpl. now rewrite Hp.
Qed.

Lemma maxIterationsOr50_pos (opts : Opts R) : 1 <= maxIterationsOr50 opts.
Proof. unfold maxIterationsOr50. destruct (maxIterations opts) as [[|m]|]; lia. Qed.


End Overlaps.

(** ** Visibility of single elements *)

Section VisibilityLaws.
Context {R : Type} `{Number R}.

Implicit Types (w : World R) (g : Cy R) (id x : string).

Lemma getEdge_setHiddenData g id b x :
  getEdge (setHiddenData g id b) x
  = (fun e => if String.eqb (e_id e) id
              then Edge (e_id e) (e_source e) (e_target e) b (e_isProjection e)
              else e) <$> getEdge g x.
Proof.
  unfold getEdge. simpl. apply find_map_key.
  intros e. now destruct (String.eqb (e_id e) id).
Qed.

Lemma dataHidden_setHiddenData g id b x :
  dataHidden (setHiddenData g id b) x
  = if decide (x = id) then b && hasElementWithId g x else dataHidden g x.
Proof.
  unfold dataHidden, hasElementWithId, isNode, isEdge.
  rewrite getNode_setHiddenData, getEdge_setHiddenData.
  destruct (getNode g x) as [n|] eqn:Hn; simpl.
  - apply getNode_Some in Hn as [_ <-].
    destruct (decide (n_id n = id)) as [->|Hne].
    + rewrite String.eqb_refl. simpl. now destruct b.
    + apply String.eqb_neq in Hne. now rewrite Hne.
  - destruct (getEdge g x) as [e|] eqn:He; simpl.
    + apply getEdge_Some in He as [_ <-].
      destruct (decide (e_id e = id)) as [->|Hne].
      * rewrite String.eqb_refl. simpl. now destruct b.
      * apply String.eqb_neq in Hne. now rewrite Hne.
    + destruct (decide (x = id)); [now destruct b | reflexivity].
Qed.

Lemma isHiddenEle_hideElement w id x :
  isHiddenEle (hideElement w id) x = if decide (x = id) then true else isHiddenEle w x.
Proof.
  unfold isHiddenEle. simpl. rewrite dataHidden_setHiddenData.
  destruct (decide (x = id)) as [->|Hne].
  - rewrite bool_decide_eq_true_2 by set_solver. reflexivity.
  - f_equal. apply bool_decide_ext. set_solver.
Qed.

Lemma isHiddenEle_showElement w id x :
  isHiddenEle (showElement w id) x = if decide (x = id) then false else isHiddenEle w x.
Proof.
  unfold isHiddenEle. simpl. rewrite dataHidden_setHiddenData.
  destruct (decide (x = id)) as [->|Hne].
  - rewrite bool_decide_eq_false_2 by set_solver. reflexivity.
  - f_equal. apply bool_decide_ext. set_solver.
Qed.

Lemma isHiddenEle_hideAll (l : list string) w x :
  isHiddenEle (fold_left hideElement l w) x = bool_decide (x ∈ l) || isHiddenEle w x.
Proof.
  revert w. induction l as [|y l IH]; intros w; cbn [fold_left].
  - now rewrite bool_decide_eq_false_2 by apply not_elem_of_nil.
  - rewrite IH, isHiddenEle_hideElement.
    destruct (decide (x = y)) as [->|Hne].
    + rewrite (bool_decide_eq_true_2 (y ∈ y :: l)) by left. now rewrite orb_true_r.
    + f_equal. apply bool_decide_ext. set_solver.
Qed.

(** X1.  [hideElement] and [showElement] change what [isHiddenEle] answers
    for the element they are called on and for no other id: after
    [hideElement] the element is hidden, after [showElement] it is not,
    whatever the store holds under that id; everything but visibility is
    left as it was. *)
Theorem visibility_helpers_change_one_element w id x :
  isHiddenEle (hideElement w id) x = (if decide (x = id) then true else isHiddenEle w x)
  /\ isHiddenEle (showElement w id) x = (if decide (x = id) then false else isHiddenEle w x)
  /\ onlyVisibility w (hideElement w id)
  /\ onlyVisibility w (showElement w id).
Proof.
  split; [apply isHiddenEle_hideElement|]. split; [apply isHiddenEle_showElement|].
  split; [apply hideElement_onlyVisibility | apply showElement_onlyVisibility].
Qed.

End VisibilityLaws.

(** ** What a collapse hides *)

Lemma find_app {A} (f : A -> bool) (l l' : list A) :
  List.find f (l ++ l')
  = match List.find f l with Some x => Some x | None => List.find f l' end.
Proof.
  induction l as [|x l IH]; simpl; [reflexivity|].
  now destruct (f x).
Qed.

Section CollapseVisibility.
Context {R : Type} `{Number R}.

Implicit Types (w : World R) (g : Cy R) (id x nodeId parentId : string).

Lemma dataHidden_addProjectionEdge g id s t x :
  dataHidden (addProjectionEdge g id s t) x = dataHidden g x.
Proof.
  unfold addProjectionEdge.
  destruct (hasElementWithId g id || negb (isNode g s) || negb (isNode g t));
    [reflexivity|].
  unfold dataHidden, getNode, getEdge. simpl.
  destruct (List.find _ (cy_nodes g)); [reflexivity|].
  rewrite find_app. destruct (List.find _ (cy_edges g)); [reflexivity|].
  simpl. now destruct (String.eqb id x).
Qed.

Lemma dataHidden_projectGroups parentId (groups : list (string * list edge))
    (acc : Cy R * list string * nat) x :
  dataHidden (fold_left (projectGroup parentId) groups acc).1.1 x = dataHidden acc.1.1 x.
Proof.
  revert acc. induction groups as [|entry groups IH]; intros [[g ids] k];
    cbn [fold_left]; [reflexivity|].
  rewrite IH. unfold projectGroup. simpl. apply dataHidden_addProjectionEdge.
Qed.

Lemma isHiddenEle_createProjections w parentId (D : list string) x :
  isHiddenEle (createProjections w parentId D) x
  = bool_decide (x ∈ e_id <$> internalEdges
                                (scanEdges (cy w) (descendantIdSet parentId D) D))
    || isHiddenEle w x.
Proof.
  unfold createProjections.
  set (sc := scanEdges (cy w) (descendantIdSet parentId D) D).
  rewrite (fold_left_fmap_arg hideElement e_id).
  set (w1 := fold_left hideElement (e_id <$> internalEdges sc) w).
  pose proof (dataHidden_projectGroups parentId
                (groupEdges (descendantIdSet parentId D) (externalEdges sc))
                (cy w1, [], O) x) as Hd.
  destruct (fold_left (projectGroup parentId) _ (cy w1, [], O)) as [[g2 ids] k].
  simpl in Hd. rewrite <- isHiddenEle_hideAll. fold w1.
  unfold isHiddenEle. simpl. now rewrite Hd.
Qed.

Lemma isHiddenEle_beforeProjections w nodeId x :
  isHiddenEle (beforeProjections w nodeId) x
  = isHiddenEle w x
    || bool_decide (x ∈ descendants (cy w) nodeId)
    || bool_decide (x ∈ subtreeEdgeIds (cy w) (descendants (cy w) nodeId)).
Proof.
  unfold beforeProjections.
  set (D := descendants (cy w) nodeId).
  set (w1 := saveLocalPositions w nodeId D).
  set (w2 := fold_left hideElement D w1).
  rewrite (fold_left_fmap_arg hideElement e_id).
  set (w3 := fold_left hideElement (e_id <$> connectedEdges (cy w2) D) w2).
  transitivity (isHiddenEle w3 x); [reflexivity|].
  subst w3. rewrite isHiddenEle_hideAll. subst w2. rewrite isHiddenEle_hideAll.
  assert (Hw1 : isHiddenEle w1 x = isHiddenEle w x).
  { subst w1. unfold isHiddenEle.
    now rewrite saveLocalPositions_cy, saveLocalPositions_state. }
  rewrite Hw1.
  assert (Hids : bool_decide (x ∈ e_id <$> connectedEdges
                                             (cy (fold_left hideElement D w1)) D)
                 = bool_decide (x ∈ subtreeEdgeIds (cy w) D)).
  { apply bool_decide_ext.
    rewrite <- (subtreeEdgeIds_ends (cy w) (cy (fold_left hideElement D w1))).
    - rewrite <- connectedEdges_ids. now rewrite elem_of_list_to_set.
    - destruct (hideAll_onlyVisibility D w1) as [_ _ He _ _ _ _ _ _].
      rewrite He. subst w1. now rewrite saveLocalPositions_cy. }
  rewrite Hids.
  destruct (isHiddenEle w x), (bool_decide (x ∈ D)),
    (bool_decide (x ∈ subtreeEdgeIds (cy w) D)); reflexivity.
Qed.

Lemma isHiddenEle_collapse w nodeId w' x :
  collapse w nodeId = (w', true) ->
  isHiddenEle w' x
  = isHiddenEle w x
    || bool_decide (x ∈ descendants (cy w) nodeId)
    || bool_decide (x ∈ subtreeEdgeIds (cy w) (descendants (cy w) nodeId)).
Proof.
  intros Hc. destruct (collapse_true_inv _ _ _ Hc) as [Hp Hn].
  rewrite (collapse_success _ _ Hp Hn) in Hc. injection Hc as <-.
  transitivity (isHiddenEle (createProjections (beforeProjections w nodeId) nodeId
                                               (descendants (cy w) nodeId)) x);
    [reflexivity|].
  rewrite isHiddenEle_createProjections, isHiddenEle_beforeProjections.
  fold (collapseScan w nodeId).
  pose proof (internal_ids_in_subtree w nodeId) as Hint.
  destruct (bool_decide_reflect
              (x ∈ e_id <$> internalEdges (collapseScan w nodeId))) as [Hin|_];
    [|reflexivity].
  rewrite (bool_decide_eq_true_2
             (x ∈ subtreeEdgeIds (cy w) (descendants (cy w) nodeId))).
  - now rewrite orb_true_r.
  - apply Hint. now apply elem_of_list_to_set.
Qed.

(** X2.  What a successful [collapse] hides, exactly: an id is hidden
    afterwards when it was hidden before, or is a descendant of the node, or
    is the id of an edge incident to a descendant; nothing else becomes
    hidden and nothing becomes visible.  In particular the whole subtree is
    hidden, with every edge that touches it. *)
Theorem collapse_hides_exactly_the_subtree w nodeId w' :
  collapse w nodeId = (w', true) ->
  (forall x, isHiddenEle w' x
             = isHiddenEle w x
               || bool_decide (x ∈ descendants (cy w) nodeId)
               || bool_decide (x ∈ subtreeEdgeIds (cy w) (descendants (cy w) nodeId)))
  /\ (forall d, d ∈ descendants (cy w) nodeId -> isHiddenEle w' d = true)
  /\ (forall e d, e ∈ cy_edges (cy w) -> d ∈ descendants (cy w) nodeId ->
        touches e d = true -> isHiddenEle w' (e_id e) = true)
  /\ (forall x, isHiddenEle w x = true -> isHiddenEle w' x = true).
Proof.
  intros Hc. pose proof (fun x => isHiddenEle_collapse _ _ _ x Hc) as Hx.
  split; [exact Hx|]. split; [|split].
  - intros d Hd. rewrite Hx, (bool_decide_eq_true_2 _ Hd).
    now rewrite orb_true_r.
  - intros e d He Hd Ht. rewrite Hx.
    rewrite (bool_decide_eq_true_2 (e_id e ∈ subtreeEdgeIds _ _));
      [now rewrite orb_true_r|].
    apply elem_of_subtreeEdgeIds. eauto 6.
  - intros x Hh. now rewrite Hx, Hh.
Qed.

End CollapseVisibility.

(** ** What a collapse and an expand leave alone *)

Section Frames.
Context {R : Type} `{Number R}.

Implicit Types (w : World R) (g : Cy R) (id x nodeId parentId : string).

(** X3.  A successful [collapse] moves no node, changes no parent, queues
    no animation, emits exactly one collapse event, marks the node as
    collapsed, records the descendant list of the node, and leaves the
    records of every other node as they were. *)
Theorem collapse_touches_one_record w nodeId w' :
  collapse w nodeId = (w', true) ->
  hierarchy (cy w') = hierarchy (cy w)
  /\ (forall id, position (cy w') id = position (cy w) id)
  /\ cy_animations (cy w') = cy_animations (cy w)
  /\ cy_emitted (cy w') = cy_emitted (cy w) ++ [EvCollapse nodeId]
  /\ collapsedIds (state w') = {[nodeId]} ∪ collapsedIds (state w)
  /\ hiddenElementsMap (state w') !! nodeId = Some (descendants (cy w) nodeId)
  /\ (forall n, n <> nodeId ->
        hiddenElementsMap (state w') !! n = hiddenElementsMap (state w) !! n
        /\ savedPositionsMap (state w') !! n = savedPositionsMap (state w) !! n
        /\ projectionEdgesMap (state w') !! n = projectionEdgesMap (state w) !! n).
Proof.
  intros Hc.
  destruct (collapse_spec _ _ _ Hc)
    as [Hh Hpos Han Hem Hcol Hhe Hsv Hpr _ _ _].
  split; [assumption|]. split; [assumption|]. split; [assumption|].
  split; [assumption|]. split; [assumption|]. split.
  - rewrite Hhe. apply lookup_insert_eq.
  - intros n Hne.
    rewrite Hhe, Hsv, Hpr.
    rewrite !lookup_insert_ne by congruence.
    split; [reflexivity|]. split; [|reflexivity].
    destruct (position (cy w) nodeId); [|reflexivity].
    now rewrite lookup_insert_ne by congruence.
Qed.

Lemma removeAll_log (ids : list string) g :
  let g1 := fold_left
              (fun g projId => if hasElementWithId g projId then remove g projId else g)
              ids g in
  cy_emitted g1 = cy_emitted g /\ cy_animations g1 = cy_animations g.
Proof.
  apply (fold_left_inv
           (fun g' => cy_emitted g' = cy_emitted g /\ cy_animations g' = cy_animations g));
    [|auto].
  intros a b _ [Hem Han]. destruct (hasElementWithId a b); [|auto].
  unfold remove. destruct (isNode a b); simpl; auto.
Qed.

Lemma removeProjections_rest w nodeId :
  let w' := removeProjections w nodeId in
  collapsedIds (state w') = collapsedIds (state w)
  /\ hiddenElementsMap (state w') = hiddenElementsMap (state w)
  /\ savedPositionsMap (state w') = savedPositionsMap (state w)
  /\ hiddenIds (state w') = hiddenIds (state w)
  /\ projectionEdgesMap (state w') = delete nodeId (projectionEdgesMap (state w))
  /\ cy_emitted (cy w') = cy_emitted (cy w)
  /\ cy_animations (cy w') = cy_animations (cy w).
Proof.
  unfold removeProjections.
  destruct (projectionEdgesMap (state w) !! nodeId) as [data|] eqn:Hd; simpl.
  - destruct (removeAll_log (projIds data) (cy w)) as [Hem Han]. repeat split; auto.
  - repeat split; try reflexivity. now rewrite delete_id.
Qed.

Lemma expand_true_inv w opts nodeId w' :
  expand w opts nodeId = (w', true) -> nodeId ∈ collapsedIds (state w).
Proof.
  unfold expand. destruct (decide (nodeId ∈ collapsedIds (state w))); [auto|].
  intros [= _]. 
Qed.

Lemma expand_state w opts nodeId w' :
  expand w opts nodeId = (w', true) ->
  collapsedIds (state w') = collapsedIds (state w) ∖ {[nodeId]}
  /\ hiddenElementsMap (state w') = delete nodeId (hiddenElementsMap (state w))
  /\ savedPositionsMap (state w') = delete nodeId (savedPositionsMap (state w))
  /\ projectionEdgesMap (state w') = delete nodeId (projectionEdgesMap (state w))
  /\ hiddenIds (state w') ⊆ hiddenIds (state w)
  /\ cy_emitted (cy w') = cy_emitted (cy w) ++ [EvExpand nodeId].
Proof.
  intros He. pose proof (expand_true_inv _ _ _ _ He) as Hin.
  rewrite (expand_success _ _ _ Hin) in He. injection He as <-.
  set (l := default [] (hiddenElementsMap (state w) !! nodeId)).
  set (wa := fold_left (showDescendant nodeId) l w).
  pose proof (showAll_hiddenIds nodeId l w) as Hsub. fold wa in Hsub.
  destruct (showAll_onlyVisibility nodeId l w)
    as [_ _ _ Hem0 _ Hcol0 Hhe0 Hsv0 Hpr0].
  fold wa in Hem0, Hcol0, Hhe0, Hsv0, Hpr0.
  destruct (removeProjections_rest wa nodeId)
    as (Hcol & Hhe & Hsv & Hhid & Hpr & Hem & _).
  set (wb := removeProjections wa nodeId) in *.
  destruct (restoreLocalPositions_spec wb opts nodeId)
    as [_ _ _ Hem2 Hcol2 Hhe2 Hpr2 Hhid2 Hsv2].
  set (wc := restoreLocalPositions wb opts nodeId) in *.
  cbn [cy state withCy withCollapsedIds withHiddenElementsMap collapsedIds
       hiddenElementsMap savedPositionsMap projectionEdgesMap hiddenIds
       emit cy_emitted].
  split; [congruence|]. split; [congruence|]. split; [congruence|].
  split; [congruence|]. split; [|congruence].
  rewrite Hhid2, Hhid. exact Hsub.
Qed.

(** X4.  A successful [expand] destroys the collapse record of the node and
    nothing else of the engine state: the node leaves the collapsed set,
    its hidden-descendants, saved-positions and projection entries are
    deleted, the entries of every other node are kept, the hidden set only
    shrinks, the node has no projected edges any more, and exactly one
    expand event is emitted. *)
Theorem expand_discards_the_record w opts nodeId w' :
  expand w opts nodeId = (w', true) ->
  isCollapsedNode w' nodeId = false
  /\ (forall n, n <> nodeId -> isCollapsedNode w' n = isCollapsedNode w n)
  /\ hiddenElementsMap (state w') = delete nodeId (hiddenElementsMap (state w))
  /\ savedPositionsMap (state w') = delete nodeId (savedPositionsMap (state w))
  /\ projectionEdgesMap (state w') = delete nodeId (projectionEdgesMap (state w))
  /\ hiddenIds (state w') ⊆ hiddenIds (state w)
  /\ getProjectedEdges w' nodeId = []
  /\ cy_emitted (cy w') = cy_emitted (cy w) ++ [EvExpand nodeId].
Proof.
  intros He. destruct (expand_state _ _ _ _ He) as (Hc & Hh & Hs & Hp & Hsub & Hem).
  unfold isCollapsedNode, getProjectedEdges. rewrite Hc, Hp, lookup_delete_eq.
  split; [apply bool_decide_eq_false; set_solver|].
  split; [intros n Hne; apply bool_decide_ext; set_solver|].
  auto 10.
Qed.

End Frames.

(** ** Positions after an expand *)

Section ExpandPositions.
Context {R : Type} `{Number R}.

Implicit Types (w : World R) (g : Cy R) (id x nodeId parentId : string).

Lemma restoreLocalPositions_positions w opts nodeId id :
  position (cy (restoreLocalPositions w opts nodeId)) id = restoredPosition w opts nodeId id.
Proof.
  unfold restoreLocalPositions, restoredPosition.
  destruct (savedPositionsMap (state w) !! nodeId) as [positions|];
    [|now destruct (animate opts)].
  destruct (position (cy w) nodeId) as [parentPos|]; [|now destruct (animate opts)].
  destruct (restoreAll_spec (animate opts) (durationOr300 opts) parentPos positions
              (children (cy w) nodeId) (cy w)) as (_ & _ & _ & _ & Hpos & _).
  cbn [cy withCy withSavedPositionsMap]. rewrite Hpos.
  destruct (animate opts); reflexivity.
Qed.

Lemma expand_position w opts nodeId w' id :
  (forall data x, projectionEdgesMap (state w) !! nodeId = Some data ->
                  x ∈ projIds data -> isNode (cy w) x = false) ->
  expand w opts nodeId = (w', true) ->
  hierarchy (cy w') = hierarchy (cy w)
  /\ position (cy w') id = restoredPosition w opts nodeId id.
Proof.
  intros Hids He. pose proof (expand_true_inv _ _ _ _ He) as Hin.
  rewrite (expand_success _ _ _ Hin) in He. injection He as <-.
  set (l := default [] (hiddenElementsMap (state w) !! nodeId)).
  set (wa := fold_left (showDescendant nodeId) l w).
  destruct (showAll_onlyVisibility nodeId l w) as [Hh0 Hpos0 _ _ _ _ _ Hsv0 Hpr0].
  fold wa in Hh0, Hpos0, Hsv0, Hpr0.
  assert (Hup : unprojected wa nodeId (removeProjections wa nodeId)).
  { apply removeProjections_spec. intros data x Hd Hx.
    rewrite (hierarchy_isNode _ (cy w)) by exact Hh0.
    apply (Hids data x); [now rewrite <- Hpr0 | exact Hx]. }
  destruct Hup as [Hn1 _ _ _ _ Hsv1 _ _].
  set (wb := removeProjections wa nodeId) in *.
  pose proof (restoreLocalPositions_positions wb opts nodeId id) as Hpos2.
  destruct (restoreLocalPositions_spec wb opts nodeId) as [Hh2 _ _ _ _ _ _ _ _].
  set (wc := restoreLocalPositions wb opts nodeId) in *.
  assert (Hhb : hierarchy (cy wb) = hierarchy (cy w)).
  { rewrite (same_nodes_hierarchy _ _ Hn1). exact Hh0. }
  assert (Hposb : forall y, position (cy wb) y = position (cy w) y).
  { intros y. now rewrite (same_nodes_position _ _ y Hn1). }
  cbn [cy state withCy withCollapsedIds withHiddenElementsMap].
  rewrite hierarchy_emit, position_emit. split; [congruence|].
  rewrite Hpos2. unfold restoredPosition.
  rewrite Hsv1, Hsv0, !Hposb, (hierarchy_children _ _ nodeId Hhb). reflexivity.
Qed.

(** X5.  Where [expand] puts nodes, when the recorded projection ids name
    no node.  Every direct child with a saved offset is placed at the
    position the parent has now plus that offset, so the children follow a
    parent that was moved while collapsed; with [animate] on the position is
    left alone and that value is queued as the target of an animation.  No
    node that is not a direct child of the expanded node is moved, and no
    parent changes. *)
Theorem expand_places_children_at_saved_offsets w opts nodeId w' :
  (forall data x, projectionEdgesMap (state w) !! nodeId = Some data ->
                  x ∈ projIds data -> isNode (cy w) x = false) ->
  expand w opts nodeId = (w', true) ->
  hierarchy (cy w') = hierarchy (cy w)
  /\ (forall c positions parentPos lp,
        savedPositionsMap (state w) !! nodeId = Some positions ->
        position (cy w) nodeId = Some parentPos ->
        c ∈ children (cy w) nodeId ->
        positions !! c = Some lp ->
        let newPos := Point (nadd (px parentPos) (lx lp))
                            (nadd (py parentPos) (ly lp)) in
        if animate opts
        then position (cy w') c = position (cy w) c
             /\ Animation c newPos (durationOr300 opts) ∈ cy_animations (cy w')
        else position (cy w') c = Some newPos)
  /\ (forall id, id ∉ children (cy w) nodeId ->
        position (cy w') id = position (cy w) id)
  /\ (animate opts = true -> forall id, position (cy w') id = position (cy w) id).
Proof.
  intros Hids He.
  split; [apply (expand_position w opts nodeId w' nodeId Hids He)|].
  split; [|split].
  - intros c positions parentPos lp Hs Hp Hc Hlp newPos.
    destruct (expand_position w opts nodeId w' c Hids He) as [_ Hpos].
    unfold restoredPosition in Hpos. rewrite Hs, Hp, Hlp, decide_True in Hpos by exact Hc.
    destruct (animate opts) eqn:Han.
    + split; [exact Hpos|].
      pose proof (expand_true_inv _ _ _ _ He) as Hin.
      rewrite (expand_success _ _ _ Hin) in He. injection He as <-.
      set (l := default [] (hiddenElementsMap (state w) !! nodeId)).
      set (wa := fold_left (showDescendant nodeId) l w).
      destruct (showAll_onlyVisibility nodeId l w) as [Hh0 Hpos0 _ _ _ _ _ Hsv0 Hpr0].
      fold wa in Hh0, Hpos0, Hsv0, Hpr0.
      assert (Hup : unprojected wa nodeId (removeProjections wa nodeId)).
      { apply removeProjections_spec. intros data x Hd Hx.
        rewrite (hierarchy_isNode _ (cy w)) by exact Hh0.
        apply (Hids data x); [now rewrite <- Hpr0 | exact Hx]. }
      destruct Hup as [Hn1 _ _ _ _ Hsv1 _ _].
      set (wb := removeProjections wa nodeId) in *.
      assert (Hhb : hierarchy (cy wb) = hierarchy (cy w)).
      { rewrite (same_nodes_hierarchy _ _ Hn1). exact Hh0. }
      pose proof (restoreLocalPositions_position wb opts nodeId positions parentPos c lp)
        as Hr.
      cbv zeta in Hr. rewrite Han in Hr.
      change (cy_animations (cy (withCy _ (emit (cy ?w0) _))))
        with (cy_animations (cy w0)).
      apply Hr; [congruence | | | exact Hlp].
      * now rewrite (same_nodes_position _ _ nodeId Hn1), Hpos0.
      * now rewrite (hierarchy_children _ _ nodeId Hhb).
    + rewrite Hpos.
      apply children_isNode, isNode_position in Hc as [p ->]. reflexivity.
  - intros id Hid. destruct (expand_position w opts nodeId w' id Hids He) as [_ Hpos].
    rewrite Hpos. unfold restoredPosition.
    destruct (animate opts); [reflexivity|].
    destruct (savedPositionsMap (state w) !! nodeId) as [positions|]; [|reflexivity].
    destruct (position (cy w) nodeId); [|reflexivity].
    destruct (positions !! id); [|reflexivity].
    now rewrite decide_False.
  - intros Han id. destruct (expand_position w opts nodeId w' id Hids He) as [_ Hpos].
    rewrite Hpos. unfold restoredPosition. now rewrite Han.
Qed.

End ExpandPositions.

(** ** Removing projections *)

Lemma filter_filter_and {A} (f k : A -> bool) (l : list A) :
  List.filter f (List.filter k l) = List.filter (fun x => k x && f x) l.
Proof.
  induction l as [|x l IH]; simpl; [reflexivity|].
  destruct (k x); simpl; [|exact IH]. destruct (f x); now rewrite IH.
Qed.

Lemma filter_ext_in {A} (f k : A -> bool) (l : list A) :
  (forall x, x ∈ l -> f x = k x) -> List.filter f l = List.filter k l.
Proof.
  induction l as [|x l IH]; intros Hl; simpl; [reflexivity|].
  rewrite (Hl x) by left. rewrite IH; [reflexivity|]. intros y Hy. apply Hl. now right.
Qed.

Lemma filter_all {A} (f : A -> bool) (l : list A) :
  (forall x, x ∈ l -> f x = true) -> List.filter f l = l.
Proof.
  induction l as [|x l IH]; intros Hl; simpl; [reflexivity|].
  rewrite (Hl x) by left. rewrite IH; [reflexivity|]. intros y Hy. apply Hl. now right.
Qed.

Lemma filter_none {A} (f : A -> bool) (l : list A) :
  (forall x, x ∈ l -> f x = false) -> List.filter f l = [].
Proof.
  induction l as [|x l IH]; intros Hl; simpl; [reflexivity|].
  rewrite (Hl x) by left. apply IH. intros y Hy. apply Hl. now right.
Qed.

Lemma filter_fmap {A B} (k : A -> B) (f : B -> bool) (l : list A) :
  List.filter f (k <$> l) = k <$> List.filter (fun x => f (k x)) l.
Proof.
  induction l as [|x l IH]; [reflexivity|].
  rewrite fmap_cons. cbn [List.filter].
  destruct (f (k x)); [rewrite fmap_cons; f_equal|]; exact IH.
Qed.

Lemma find_filter_key {A} (key : A -> string) (p : string -> bool) (l : list A) id :
  List.find (fun x => String.eqb (key x) id) (List.filter (fun x => p (key x)) l)
  = if p id then List.find (fun x => String.eqb (key x) id) l else None.
Proof.
  induction l as [|x l IH]; cbn [List.filter List.find]; [now destruct (p id)|].
  destruct (String.eqb (key x) id) eqn:Heq.
  - apply String.eqb_eq in Heq. subst id.
    destruct (p (key x)) eqn:Hp.
    + cbn [List.find]. now rewrite String.eqb_refl.
    + rewrite IH. now rewrite ?Hp.
  - destruct (p (key x)); cbn [List.find]; [rewrite Heq|]; exact IH.
Qed.

Section Removal.
Context {R : Type} `{Number R}.

Implicit Types (w : World R) (g : Cy R) (id x nodeId parentId : string).

(** The loop of [removeProjections], for ids that name no node: the edges
    with one of the ids are dropped, nothing else changes. *)
Lemma removeAll_edges (ids : list string) g :
  (forall id, id ∈ ids -> isNode g id = false) ->
  let g1 := fold_left
              (fun g projId => if hasElementWithId g projId then remove g projId else g)
              ids g in
  cy_nodes g1 = cy_nodes g
  /\ cy_edges g1 = List.filter (fun e => bool_decide (e_id e ∉ ids)) (cy_edges g).
Proof.
  revert g. induction ids as [|y ids IH]; intros g Hids; cbn [fold_left].
  - split; [reflexivity|]. symmetry. apply filter_all.
    intros e _. apply bool_decide_eq_true, not_elem_of_nil.
  - assert (Hy : isNode g y = false) by (apply Hids; left).
    set (g' := if hasElementWithId g y then remove g y else g).
    assert (Hg' : cy_nodes g' = cy_nodes g
                  /\ cy_edges g'
                     = List.filter (fun e => negb (String.eqb (e_id e) y)) (cy_edges g)).
    { subst g'. unfold hasElementWithId. rewrite Hy. simpl.
      destruct (isEdge g y) eqn:He.
      - unfold remove. rewrite Hy. simpl. auto.
      - split; [reflexivity|]. symmetry. apply filter_all. intros e Hin.
        apply negb_true_iff, String.eqb_neq. intros <-.
        assert (Ht : isEdge g (e_id e) = true)
          by (apply isEdge_true; now apply list_elem_of_fmap_2).
        congruence. }
    destruct Hg' as [Hn He].
    destruct (IH g') as [Hn' He'].
    { intros id Hid. unfold isNode, getNode. rewrite Hn. apply Hids. now right. }
    split; [congruence|]. rewrite He', He, filter_filter_and.
    apply filter_ext_in. intros e _.
    destruct (String.eqb (e_id e) y) eqn:Heq; simpl.
    + apply String.eqb_eq in Heq. symmetry. apply bool_decide_eq_false.
      intros Hno. apply Hno. rewrite Heq. left.
    + apply String.eqb_neq in Heq. apply bool_decide_ext.
      rewrite not_elem_of_cons. tauto.
Qed.

Lemma dataHidden_alt g x :
  dataHidden g x
  = match nodeHidden g x with
    | Some b => b
    | None => match getEdge g x with Some e => e_hidden e | None => false end
    end.
Proof. unfold dataHidden, nodeHidden. now destruct (getNode g x). Qed.

Lemma dataHidden_removeAll (ids : list string) g x :
  (forall id, id ∈ ids -> isNode g id = false) ->
  let g1 := fold_left
              (fun g projId => if hasElementWithId g projId then remove g projId else g)
              ids g in
  dataHidden g1 x = if decide (x ∈ ids) then false else dataHidden g x.
Proof.
  intros Hids g1. destruct (removeAll_edges ids g Hids) as [Hn He]. fold g1 in Hn, He.
  unfold dataHidden. rewrite (same_nodes_getNode _ _ x Hn).
  unfold getEdge. rewrite He.
  pose proof (find_filter_key e_id (fun id => bool_decide (id ∉ ids)) (cy_edges g) x)
    as Hf.
  cbv beta in Hf. rewrite Hf. clear Hf.
  destruct (decide (x ∈ ids)) as [Hin|Hin].
  - rewrite bool_decide_eq_false_2 by tauto.
    specialize (Hids x Hin). unfold isNode in Hids.
    apply bool_decide_eq_false in Hids.
    destruct (getNode g x); [|reflexivity]. exfalso. apply Hids. eauto.
  - now rewrite bool_decide_eq_true_2.
Qed.

Lemma dataHidden_restoreLocalPositions w opts nodeId x :
  dataHidden (cy (restoreLocalPositions w opts nodeId)) x = dataHidden (cy w) x.
Proof.
  destruct (restoreLocalPositions_spec w opts nodeId) as [_ Hnh Hed _ _ _ _ _ _].
  rewrite !dataHidden_alt, Hnh. unfold getEdge. now rewrite Hed.
Qed.

End Removal.

(** ** What an expand shows *)

Section ExpandVisibility.
Context {R : Type} `{Number R}.

Implicit Types (w : World R) (g : Cy R) (id x nodeId parentId : string) (e : edge).

Lemma noReserved_fresh g nodeId :
  noReservedNodes g -> noReservedEdges g -> freshProjectionIds g nodeId.
Proof.
  intros Hn He k. unfold hasElementWithId.
  rewrite (reserved_not_node g _ Hn (proj_id_reserved nodeId k)). simpl.
  destruct (isEdge g (proj_id nodeId k)) eqn:Hedge; [|reflexivity].
  apply isEdge_true in Hedge as (e & Hid & Hin)%list_elem_of_fmap.
  unfold noReservedEdges in He. rewrite Forall_forall in He.
  specialize (He e Hin). rewrite <- Hid, proj_id_reserved in He. discriminate.
Qed.

Lemma showEdgeIfVisible_never_hides w e x :
  isHiddenEle w x = false -> isHiddenEle (showEdgeIfVisible w e) x = false.
Proof.
  intros Hx. unfold showEdgeIfVisible. destruct (_ && _); [|exact Hx].
  rewrite isHiddenEle_showElement. now destruct (decide (x = e_id e)).
Qed.

Lemma showEdges_never_hide (l : list edge) w x :
  isHiddenEle w x = false -> isHiddenEle (fold_left showEdgeIfVisible l w) x = false.
Proof.
  intros Hx. apply (fold_left_inv (fun w' => isHiddenEle w' x = false)); [|exact Hx].
  intros a b _. apply showEdgeIfVisible_never_hides.
Qed.

Lemma showDescendant_never_hides nodeId w id x :
  isHiddenEle w x = false -> isHiddenEle (showDescendant nodeId w id) x = false.
Proof.
  intros Hx. unfold showDescendant.
  destruct (hasElementWithId (cy w) id); [|exact Hx].
  destruct (showable w nodeId id); [|exact Hx].
  apply showEdges_never_hide. rewrite isHiddenEle_showElement.
  now destruct (decide (x = id)).
Qed.

Lemma showAll_never_hides nodeId (l : list string) w x :
  isHiddenEle w x = false ->
  isHiddenEle (fold_left (showDescendant nodeId) l w) x = false.
Proof.
  intros Hx. apply (fold_left_inv (fun w' => isHiddenEle w' x = false)); [|exact Hx].
  intros a b _. apply showDescendant_never_hides.
Qed.

Lemma afterShow_onlyVisibility w nodeId : onlyVisibility w (afterShow w nodeId).
Proof. apply showAll_onlyVisibility. Qed.

(** The steps of [expand] after the loop over the descendants change the
    visibility of the removed projection edges only. *)
Lemma isHiddenEle_expand w opts nodeId w' x :
  (forall id, id ∈ recordedProjIds w nodeId -> isNode (cy w) id = false) ->
  expand w opts nodeId = (w', true) ->
  isHiddenEle w' x
  = bool_decide (x ∈ hiddenIds (state (afterShow w nodeId)))
    || (if decide (x ∈ recordedProjIds w nodeId) then false
        else dataHidden (cy (afterShow w nodeId)) x).
Proof.
  intros Hids He. pose proof (expand_true_inv _ _ _ _ He) as Hin.
  rewrite (expand_success _ _ _ Hin) in He. injection He as <-.
  fold (afterShow w nodeId).
  destruct (afterShow_onlyVisibility w nodeId) as [Hh0 _ _ _ _ _ _ _ Hpr0].
  set (wa := afterShow w nodeId) in *.
  destruct (removeProjections_rest wa nodeId) as (_ & _ & _ & Hhid & _).
  assert (Hdata : dataHidden (cy (removeProjections wa nodeId)) x
                  = if decide (x ∈ recordedProjIds w nodeId) then false
                    else dataHidden (cy wa) x).
  { unfold removeProjections, recordedProjIds in *. rewrite Hpr0.
    destruct (projectionEdgesMap (state w) !! nodeId) as [data|].
    - cbn [cy withCy withProjectionEdgesMap]. apply dataHidden_removeAll.
      intros id Hid. rewrite (hierarchy_isNode _ (cy w)) by exact Hh0. now apply Hids.
    - rewrite decide_False by apply not_elem_of_nil. reflexivity. }
  set (wb := removeProjections wa nodeId) in *.
  destruct (restoreLocalPositions_spec wb opts nodeId) as [_ _ _ _ _ _ _ Hhid2 _].
  pose proof (dataHidden_restoreLocalPositions wb opts nodeId x) as Hdata2.
  set (wc := restoreLocalPositions wb opts nodeId) in *.
  unfold isHiddenEle.
  cbn [cy state withCy withCollapsedIds withHiddenElementsMap hiddenIds].
  change (dataHidden (emit (cy wc) (EvExpand nodeId)) x) with (dataHidden (cy wc) x).
  now rewrite Hhid2, Hhid, Hdata2, Hdata.
Qed.

(** X6.  An [expand] never hides anything: an id that is not hidden before
    a successful [expand] is not hidden after it, when the recorded
    projection ids name no node. *)
Theorem expand_never_hides w opts nodeId w' x :
  (forall id, id ∈ recordedProjIds w nodeId -> isNode (cy w) id = false) ->
  expand w opts nodeId = (w', true) ->
  isHiddenEle w x = false -> isHiddenEle w' x = false.
Proof.
  intros Hids He Hx. rewrite (isHiddenEle_expand _ _ _ _ x Hids He).
  pose proof (showAll_never_hides nodeId
                (default [] (hiddenElementsMap (state w) !! nodeId)) w x Hx) as Ha.
  fold (afterShow w nodeId) in Ha. unfold isHiddenEle in Ha.
  apply orb_false_iff in Ha as [-> Hd]. simpl.
  now destruct (decide (x ∈ recordedProjIds w nodeId)).
Qed.

Lemma ends_counterpart g g' e :
  edgeEnds g' = edgeEnds g -> e ∈ cy_edges g ->
  exists e', e' ∈ cy_edges g' /\ ends e' = ends e.
Proof. intros Heq. apply (edgeEnds_elem g' g). now symmetry. Qed.

Lemma isProjection_ends e e' : ends e = ends e' -> e_isProjection e = e_isProjection e'.
Proof. unfold ends. now intros [= _ _ _ ->]. Qed.

Lemma showEdges_keep_projections_hidden (l : list edge) w c :
  (forall e, e ∈ l -> e_id e = c -> e_isProjection e = true) ->
  c ∈ hiddenIds (state w) -> c ∈ hiddenIds (state (fold_left showEdgeIfVisible l w)).
Proof.
  intros Hl Hc. apply (fold_left_inv (fun w' => c ∈ hiddenIds (state w'))); [|exact Hc].
  intros a e He Ha. unfold showEdgeIfVisible.
  destruct (e_isProjection e) eqn:Hp.
  - now rewrite andb_false_r.
  - destruct (_ && _); [|exact Ha]. simpl.
    assert (e_id e <> c) by (intros Hid; specialize (Hl e He Hid); congruence).
    set_solver.
Qed.

(** X7.  [expand] never shows a projection edge.  A projection edge that
    is in the hidden set when [expand] starts, and is not listed among the
    recorded descendants, is still in the hidden set afterwards: the
    projection edges of an inner collapsed node, hidden when an outer node
    was collapsed, stay hidden when the outer node is expanded. *)
Theorem expand_leaves_projection_edges_hidden w opts nodeId e :
  uniqueEdgeIds (cy w) ->
  e ∈ cy_edges (cy w) ->
  e_isProjection e = true ->
  e_id e ∉ default [] (hiddenElementsMap (state w) !! nodeId) ->
  e_id e ∈ hiddenIds (state w) ->
  e_id e ∈ hiddenIds (state (fst (expand w opts nodeId)))
  /\ isHiddenEle (fst (expand w opts nodeId)) (e_id e) = true.
Proof.
  intros Hu He Hp Hnot Hhid.
  assert (Hgoal : e_id e ∈ hiddenIds (state (fst (expand w opts nodeId))));
    [|split; [exact Hgoal | now apply isHiddenEle_hiddenIds]].
  destruct (decide (nodeId ∈ collapsedIds (state w))) as [Hin|Hin].
  2:{ rewrite expand_not_collapsed by (now apply bool_decide_eq_false). exact Hhid. }
  rewrite (expand_success _ _ _ Hin). cbn [fst].
  set (l := default [] (hiddenElementsMap (state w) !! nodeId)) in *.
  set (wa := fold_left (showDescendant nodeId) l w).
  assert (Hwa : onlyVisibility w wa /\ e_id e ∈ hiddenIds (state wa)).
  { subst wa.
    apply (fold_left_inv
             (fun w' => onlyVisibility w w' /\ e_id e ∈ hiddenIds (state w'))).
    2:{ split; [apply onlyVisibility_refl | exact Hhid]. }
    intros a d Hd [Hov Hc]. split.
    { eapply onlyVisibility_trans; [exact Hov | apply showDescendant_onlyVisibility]. }
    unfold showDescendant. destruct (hasElementWithId (cy a) d); [|exact Hc].
    destruct (showable a nodeId d); [|exact Hc].
    apply showEdges_keep_projections_hidden.
    - intros e' [He' _]%elem_of_nodeEdges Hid.
      destruct (onlyVisibility_trans _ _ _ Hov (showElement_onlyVisibility a d))
        as [_ _ Hed _ _ _ _ _ _].
      destruct (edgeEnds_elem _ _ e' Hed He') as (e0 & He0 & Hends).
      rewrite <- (isProjection_ends _ _ Hends).
      rewrite <- (e_id_ends _ _ Hends) in Hid.
      now rewrite (unique_edge _ _ _ Hu He0 He Hid).
    - simpl. assert (e_id e <> d) by (intros Heq; apply Hnot; now rewrite Heq).
      set_solver. }
  destruct Hwa as [_ Hc].
  destruct (removeProjections_rest wa nodeId) as (_ & _ & _ & Hhid1 & _).
  destruct (restoreLocalPositions_spec (removeProjections wa nodeId) opts nodeId)
    as [_ _ _ _ _ _ _ Hhid2 _].
  cbn [cy state withCy withCollapsedIds withHiddenElementsMap hiddenIds].
  now rewrite Hhid2, Hhid1.
Qed.

End ExpandVisibility.

(** ** Round trip: edges *)

Section RoundTripEdges.
Context {R : Type} `{Number R}.

Implicit Types (w : World R) (g : Cy R) (id x nodeId parentId : string) (e : edge).

Lemma projectGroups_edge_ids parentId (groups : list (string * list edge))
    g (ids : list string) k g2 (ids2 : list string) k2 e :
  fold_left (projectGroup parentId) groups (g, ids, k) = (g2, ids2, k2) ->
  e ∈ cy_edges g2 ->
  e ∈ cy_edges g \/ e_id e ∈ proj_id parentId <$> seq k (length groups).
Proof.
  revert g ids k. induction groups as [|entry groups IH]; intros g ids k Hf He.
  - injection Hf as <- _ _. now left.
  - simpl in Hf. destruct (IH _ _ _ Hf He) as [Hin|Hin].
    + unfold addProjectionEdge in Hin.
      destruct (hasElementWithId g (proj_id parentId k) || _ || _); [now left|].
      simpl in Hin. apply elem_of_app in Hin as [Hin|Hin]; [now left|].
      apply list_elem_of_singleton in Hin as ->. right. simpl. left.
    + right. simpl. now right.
Qed.

Lemma e_id_counterpart g g' e :
  edgeEnds g' = edgeEnds g -> e ∈ cy_edges g' -> e_id e ∈ e_id <$> cy_edges g.
Proof.
  intros Heq He. destruct (edgeEnds_elem _ _ e Heq He) as (e0 & He0 & Hends).
  rewrite <- (e_id_ends _ _ Hends). now apply list_elem_of_fmap_2.
Qed.

Lemma createProjections_edge_ids w parentId (D : list string) e :
  e ∈ cy_edges (cy (createProjections w parentId D)) ->
  e_id e ∈ e_id <$> cy_edges (cy w)
  \/ e_id e ∈ proj_id parentId
               <$> seq 0 (length (groupEdges (descendantIdSet parentId D)
                                    (externalEdges
                                       (scanEdges (cy w) (descendantIdSet parentId D) D)))).
Proof.
  unfold createProjections.
  set (sc := scanEdges (cy w) (descendantIdSet parentId D) D).
  rewrite (fold_left_fmap_arg hideElement e_id).
  set (w1 := fold_left hideElement (e_id <$> internalEdges sc) w).
  destruct (fold_left (projectGroup parentId) _ (cy w1, [], O)) as [[g2 ids] k] eqn:Hf.
  cbn [cy withCy withProjectionEdgesMap]. intros He.
  destruct (projectGroups_edge_ids _ _ _ _ _ _ _ _ e Hf He) as [Hin|Hin]; [left|now right].
  apply (e_id_counterpart (cy w) (cy w1)); [|exact Hin].
  subst w1. now destruct (hideAll_onlyVisibility (e_id <$> internalEdges sc) w)
    as [_ _ Hed _ _ _ _ _ _].
Qed.

(** The edges of the store after a successful [collapse]: the edges there
    were, followed by projection edges whose ids are the recorded ones. *)
Lemma collapse_edges w nodeId w' :
  collapse w nodeId = (w', true) ->
  recordedProjIds w' nodeId = proj_id nodeId <$> seq 0 (length (collapseGroups w nodeId))
  /\ exists old new,
       cy_edges (cy w') = old ++ new
       /\ ends <$> old = edgeEnds (cy w)
       /\ Forall (fun e => e_id e ∈ recordedProjIds w' nodeId
                           /\ e_isProjection e = true /\ e_hidden e = false) new.
Proof.
  intros Hc.
  destruct (collapse_spec _ _ _ Hc) as [_ _ _ _ _ _ _ Hpr _ _ Hedges].
  assert (Hrec : recordedProjIds w' nodeId
                 = proj_id nodeId <$> seq 0 (length (collapseGroups w nodeId))).
  { unfold recordedProjIds. now rewrite Hpr, lookup_insert_eq. }
  split; [exact Hrec|].
  destruct Hedges as (old & new & He & Hold & Hnew & _).
  exists old, new. split; [exact He|]. split; [exact Hold|].
  rewrite Forall_forall in Hnew. apply Forall_forall. intros e Hin.
  destruct (Hnew e Hin) as (Hp & Hh & _ & Hid). split; [|now split].
  rewrite Hrec.
  destruct (collapse_true_inv _ _ _ Hc) as [Hpar Hn].
  rewrite (collapse_success _ _ Hpar Hn) in Hc. injection Hc as Hw'.
  assert (Hin' : e ∈ cy_edges (cy (createProjections (beforeProjections w nodeId) nodeId
                                                     (descendants (cy w) nodeId)))).
  { rewrite <- Hw' in He. cbn [cy withCy withCollapsedIds emit cy_edges] in He.
    rewrite He. apply elem_of_app. now right. }
  apply createProjections_edge_ids in Hin' as [Hold'|Hnew']; [|exact Hnew'].
  exfalso. apply Hid.
  destruct (beforeProjections_spec w nodeId) as [_ _ Hed _ _ _ _ _ _ _ _].
  now rewrite <- edgeEnds_ids, <- Hed, edgeEnds_ids.
Qed.

Lemma fresh_isNode g nodeId k : freshProjectionIds g nodeId -> isNode g (proj_id nodeId k) = false.
Proof.
  intros Hf. specialize (Hf k). unfold hasElementWithId in Hf.
  now apply orb_false_iff in Hf as [? _].
Qed.

Lemma fresh_isEdge g nodeId k : freshProjectionIds g nodeId -> isEdge g (proj_id nodeId k) = false.
Proof.
  intros Hf. specialize (Hf k). unfold hasElementWithId in Hf.
  now apply orb_false_iff in Hf as [_ ?].
Qed.

Lemma collapse_projIds_not_nodes w nodeId w' id :
  freshProjectionIds (cy w) nodeId ->
  collapse w nodeId = (w', true) ->
  id ∈ recordedProjIds w' nodeId -> isNode (cy w') id = false.
Proof.
  intros Hf Hc. destruct (collapse_edges _ _ _ Hc) as [-> _].
  intros (k & -> & _)%list_elem_of_fmap.
  destruct (collapse_spec _ _ _ Hc) as [Hh _ _ _ _ _ _ _ _ _ _].
  rewrite (hierarchy_isNode _ _ _ Hh). now apply fresh_isNode.
Qed.

Lemma ends_filter_ids (p : string -> bool) (l : list edge) :
  ends <$> List.filter (fun e => p (e_id e)) l
  = List.filter (fun t => p t.1.1.1) (ends <$> l).
Proof.
  induction l as [|e l IH]; [reflexivity|].
  rewrite fmap_cons. cbn [List.filter].
  change ((ends e).1.1.1) with (e_id e).
  destruct (p (e_id e)); [rewrite fmap_cons; f_equal|]; exact IH.
Qed.

(** X8.  [collapse] followed by [expand] of the same node gives back the
    edges there were: every projection edge the collapse created is
    removed, no other edge is removed or changed in its endpoints, and the
    node has no projected edges left.  The generated projection ids must be
    free in the store when the node is collapsed. *)
Theorem collapse_expand_restores_edges w opts nodeId w1 :
  freshProjectionIds (cy w) nodeId ->
  collapse w nodeId = (w1, true) ->
  let w2 := fst (expand w1 opts nodeId) in
  snd (expand w1 opts nodeId) = true
  /\ edgeEnds (cy w2) = edgeEnds (cy w)
  /\ hierarchy (cy w2) = hierarchy (cy w)
  /\ getProjectedEdges w2 nodeId = [].
Proof.
  intros Hf Hc w2.
  destruct (collapse_spec _ _ _ Hc) as [Hh _ _ _ Hcol _ _ _ _ _ _].
  destruct (collapse_edges _ _ _ Hc) as (Hrec & old & new & He & Hold & Hnew).
  assert (Hin : nodeId ∈ collapsedIds (state w1)) by (rewrite Hcol; set_solver).
  assert (Hex : expand w1 opts nodeId = (w2, true)).
  { subst w2. now rewrite (expand_success _ _ _ Hin). }
  split; [now rewrite Hex|]. split; [|split].
  - clear Hex. subst w2. rewrite (expand_success _ _ _ Hin). cbn [fst].
    fold (afterShow w1 nodeId).
    destruct (afterShow_onlyVisibility w1 nodeId) as [Hh0 _ Hed0 _ _ _ _ _ Hpr0].
    set (wa := afterShow w1 nodeId) in *.
    destruct (restoreLocalPositions_spec (removeProjections wa nodeId) opts nodeId)
      as [_ _ Hed2 _ _ _ _ _ _].
    cbn [cy state withCy withCollapsedIds withHiddenElementsMap].
    unfold edgeEnds at 1. cbn [emit cy_edges]. rewrite Hed2.
    unfold removeProjections. unfold recordedProjIds in Hrec, Hnew. rewrite Hpr0.
    destruct (projectionEdgesMap (state w1) !! nodeId) as [data|] eqn:Hd.
    2:{ destruct (collapse_spec _ _ _ Hc) as [_ _ _ _ _ _ _ Hpr _ _ _].
        rewrite Hpr, lookup_insert_eq in Hd. discriminate. }
    cbn [cy withCy withProjectionEdgesMap].
    destruct (removeAll_edges (projIds data) (cy wa)) as [_ Hrm].
    { intros id Hid. rewrite (hierarchy_isNode _ _ _ Hh0), (hierarchy_isNode _ _ _ Hh).
      rewrite Hrec in Hid. apply list_elem_of_fmap in Hid as (k & -> & _).
      now apply fresh_isNode. }
    rewrite Hrm.
    pose proof (ends_filter_ids (fun id => bool_decide (id ∉ projIds data)) (cy_edges (cy wa)))
      as Hflt.
    cbv beta in Hflt. rewrite Hflt. clear Hflt.
    fold (edgeEnds (cy wa)). rewrite Hed0. unfold edgeEnds at 1.
    rewrite He, fmap_app, List.filter_app, Hold.
    rewrite filter_all, filter_none; [apply app_nil_r | |].
    + intros t (e & -> & Hin')%list_elem_of_fmap. apply bool_decide_eq_false.
      intros Hno. apply Hno. rewrite Forall_forall in Hnew. now apply (Hnew e).
    + intros t (e & -> & Hin')%list_elem_of_fmap. apply bool_decide_eq_true.
      rewrite Hrec. intros (k & Hk & _)%list_elem_of_fmap.
      change ((ends e).1.1.1) with (e_id e) in Hk.
      pose proof (fresh_isEdge _ _ k Hf) as Hedge.
      assert (Ht : isEdge (cy w) (proj_id nodeId k) = true)
        by (apply isEdge_true; rewrite <- Hk; now apply list_elem_of_fmap_2).
      congruence.
  - destruct (expand_position w1 opts nodeId w2 nodeId) as [Hh2 _]; [|exact Hex|congruence].
    intros data x Hd Hx. apply (collapse_projIds_not_nodes w nodeId w1 x Hf Hc).
    unfold recordedProjIds. now rewrite Hd.
  - destruct (expand_state _ _ _ _ Hex) as (_ & _ & _ & Hp & _).
    unfold getProjectedEdges. now rewrite Hp, lookup_delete_eq.
Qed.

End RoundTripEdges.

(** ** Round trip: the edges of the subtree are visible again *)

Section RoundTripVisibility.
Context {R : Type} `{Number R}.

Implicit Types (w : World R) (g : Cy R) (id x nodeId parentId : string) (e : edge).

Lemma isNode_onlyVisibility w w' id :
  onlyVisibility w w' -> isNode (cy w') id = isNode (cy w) id.
Proof. intros [Hh _ _ _ _ _ _ _ _]. now apply hierarchy_isNode. Qed.

Lemma isEdge_ends g g' id : edgeEnds g' = edgeEnds g -> isEdge g' id = isEdge g id.
Proof.
  intros Heq. destruct (isEdge g id) eqn:Hg.
  - apply isEdge_true. apply isEdge_true in Hg.
    now rewrite <- edgeEnds_ids, Heq, edgeEnds_ids.
  - destruct (isEdge g' id) eqn:Hg'; [|reflexivity].
    apply isEdge_true in Hg'. rewrite <- edgeEnds_ids, Heq, edgeEnds_ids in Hg'.
    apply isEdge_true in Hg'. congruence.
Qed.

Lemma hasElementWithId_onlyVisibility w w' id :
  onlyVisibility w w' -> hasElementWithId (cy w') id = hasElementWithId (cy w) id.
Proof.
  intros Hov. unfold hasElementWithId. rewrite (isNode_onlyVisibility _ _ _ Hov).
  destruct Hov as [_ _ Hed _ _ _ _ _ _]. now rewrite (isEdge_ends _ _ _ Hed).
Qed.

Lemma showEdges_show (l : list edge) w e :
  e ∈ l -> e_isProjection e = false ->
  isHiddenEle w (e_source e) = false -> isHiddenEle w (e_target e) = false ->
  isHiddenEle (fold_left showEdgeIfVisible l w) (e_id e) = false.
Proof.
  revert w. induction l as [|e0 l IH]; intros w Hin Hp Hs Ht;
    [now apply elem_of_nil in Hin|].
  cbn [fold_left]. apply elem_of_cons in Hin as [<-|Hin].
  - apply showEdges_never_hide. unfold showEdgeIfVisible. rewrite Hs, Ht, Hp. simpl.
    rewrite isHiddenEle_showElement. now rewrite decide_True.
  - apply IH; [exact Hin | exact Hp | |]; now apply showEdgeIfVisible_never_hides.
Qed.

Lemma showDescendant_shows_element nodeId w id :
  hasElementWithId (cy w) id = true -> showable w nodeId id = true ->
  isHiddenEle (showDescendant nodeId w id) id = false.
Proof.
  intros He Hs. unfold showDescendant. rewrite He, Hs.
  apply showEdges_never_hide. rewrite isHiddenEle_showElement. now rewrite decide_True.
Qed.

Lemma touches_iff e y : touches e y = true <-> y = e_source e \/ y = e_target e.
Proof.
  unfold touches. rewrite orb_true_iff, !String.eqb_eq. intuition congruence.
Qed.

(** The loop of [expand] over the recorded descendants [l] shows an edge
    that is not a projection as soon as one of its endpoints is shown by
    the loop and the other is shown by the loop or visible already. *)
Lemma showAll_shows_edge nodeId (l : list string) w0 w e :
  onlyVisibility w0 w ->
  e ∈ cy_edges (cy w0) -> e_isProjection e = false ->
  (forall y, touches e y = true ->
     (y ∈ l /\ hasElementWithId (cy w0) y = true /\ showable w0 nodeId y = true)
     \/ isHiddenEle w y = false) ->
  ((exists y, touches e y = true /\ y ∈ l
              /\ hasElementWithId (cy w0) y = true /\ showable w0 nodeId y = true)
   \/ isHiddenEle w (e_id e) = false) ->
  isHiddenEle (fold_left (showDescendant nodeId) l w) (e_id e) = false.
Proof.
  intros Hov He Hp. revert w Hov.
  induction l as [|d l IH]; intros w Hov Hends Hsome; cbn [fold_left].
  - destruct Hsome as [(y & _ & Hy & _)|Hv]; [now apply elem_of_nil in Hy | exact Hv].
  - pose proof (onlyVisibility_trans _ _ _ Hov (showDescendant_onlyVisibility nodeId w d))
      as Hov'.
    set (okb := fun y => bool_decide (y ∈ l) && hasElementWithId (cy w0) y
                         && showable w0 nodeId y).
    assert (Hokb : forall y, okb y = true ->
              y ∈ l /\ hasElementWithId (cy w0) y = true /\ showable w0 nodeId y = true).
    { intros y. unfold okb. rewrite !andb_true_iff, bool_decide_eq_true. tauto. }
    assert (Hstep : forall y, touches e y = true -> okb y = false ->
              (y = d /\ hasElementWithId (cy w0) y = true /\ showable w0 nodeId y = true)
              \/ isHiddenEle w y = false).
    { intros y Hy Hno. destruct (Hends y Hy) as [(Hin & Hex & Hsh)|Hv]; [|now right].
      apply elem_of_cons in Hin as [->|Hin]; [now left|].
      unfold okb in Hno. rewrite Hex, Hsh, bool_decide_eq_true_2 in Hno by exact Hin.
      discriminate. }
    apply IH; [exact Hov' | |].
    + intros y Hy. destruct (okb y) eqn:Hok; [left; now apply Hokb|]. right.
      destruct (Hstep y Hy Hok) as [(-> & Hex & Hsh)|Hv].
      * apply showDescendant_shows_element.
        -- now rewrite (hasElementWithId_onlyVisibility _ _ _ Hov).
        -- now rewrite (showable_onlyVisibility _ _ _ _ Hov).
      * now apply showDescendant_never_hides.
    + destruct (okb (e_source e)) eqn:Hoks.
      { left. exists (e_source e). split; [apply touches_iff; now left | now apply Hokb]. }
      destruct (okb (e_target e)) eqn:Hokt.
      { left. exists (e_target e). split; [apply touches_iff; now right | now apply Hokb]. }
      right.
      destruct Hsome as [(y & Hy & Hin & Hex & Hsh)|Hv];
        [|now apply showDescendant_never_hides].
      assert (Hyd : y = d).
      { apply elem_of_cons in Hin as [Hyd|Hin]; [exact Hyd|]. exfalso.
        assert (Hoky : okb y = true).
        { unfold okb. now rewrite Hex, Hsh, bool_decide_eq_true_2. }
        apply touches_iff in Hy as [->| ->]; congruence. }
      subst y.
      unfold showDescendant.
      rewrite (hasElementWithId_onlyVisibility _ _ _ Hov), Hex.
      rewrite (showable_onlyVisibility _ _ _ _ Hov), Hsh.
      set (a1 := showElement w d).
      pose proof (onlyVisibility_trans _ _ _ Hov (showElement_onlyVisibility w d)) as Hov1.
      fold a1 in Hov1.
      destruct Hov1 as [_ _ Hed1 _ _ _ _ _ _].
      destruct (ends_counterpart (cy w0) (cy a1) e Hed1 He) as (e1 & He1 & Hends1).
      rewrite <- (e_id_ends _ _ Hends1).
      assert (Hvis : forall y, touches e y = true -> isHiddenEle a1 y = false).
      { intros y Hty.
        assert (Hoky : okb y = false) by (apply touches_iff in Hty as [->| ->]; assumption).
        subst a1. rewrite isHiddenEle_showElement.
        destruct (decide (y = d)); [reflexivity|].
        destruct (Hstep y Hty Hoky) as [(-> & _)|Hv]; [contradiction | exact Hv]. }
      apply showEdges_show.
      * apply elem_of_nodeEdges. split; [exact He1|].
        now rewrite (touches_ends _ _ d Hends1).
      * now rewrite (isProjection_ends _ _ Hends1).
      * apply Hvis, touches_iff. left. unfold ends in Hends1. congruence.
      * apply Hvis, touches_iff. right. unfold ends in Hends1. congruence.
Qed.

Lemma expand_tail_never_hides w opts nodeId w' x :
  (forall id, id ∈ recordedProjIds w nodeId -> isNode (cy w) id = false) ->
  expand w opts nodeId = (w', true) ->
  isHiddenEle (afterShow w nodeId) x = false -> isHiddenEle w' x = false.
Proof.
  intros Hids He Ha. rewrite (isHiddenEle_expand _ _ _ _ x Hids He).
  unfold isHiddenEle in Ha. apply orb_false_iff in Ha as [-> Hd]. simpl.
  now destruct (decide (x ∈ recordedProjIds w nodeId)).
Qed.

(** X9.  Round trip for edges: after [collapse] and [expand] of the same
    node, with no descendant collapsed on its own, an edge of the store
    that is not a projection and touches a descendant of the node is
    visible as soon as each of its endpoints is a descendant or a node that
    was visible before the collapse; this holds whether or not the edge
    itself was hidden before the collapse. *)
Theorem collapse_expand_shows_edges_again w opts nodeId w1 e :
  uniqueIds (cy w) ->
  freshProjectionIds (cy w) nodeId ->
  (forall d, d ∈ descendants (cy w) nodeId -> isCollapsedNode w d = false) ->
  collapse w nodeId = (w1, true) ->
  e ∈ cy_edges (cy w) ->
  e_isProjection e = false ->
  (exists d, d ∈ descendants (cy w) nodeId /\ touches e d = true) ->
  (forall y, touches e y = true ->
     y ∈ descendants (cy w) nodeId
     \/ (isNode (cy w) y = true /\ isHiddenEle w y = false)) ->
  isHiddenEle (fst (expand w1 opts nodeId)) (e_id e) = false.
Proof.
  intros Hu Hf Hnone Hc He Hp (d & Hd & Htd) Hends.
  pose proof (uniqueIds_nodes _ Hu) as Hun.
  destruct (collapse_spec _ _ _ Hc) as [Hh _ _ _ Hcol Hhe _ _ _ _ Hedges].
  assert (Hin : nodeId ∈ collapsedIds (state w1)) by (rewrite Hcol; set_solver).
  set (w2 := fst (expand w1 opts nodeId)).
  assert (Hex : expand w1 opts nodeId = (w2, true)).
  { subst w2. now rewrite (expand_success _ _ _ Hin). }
  apply (expand_tail_never_hides w1 opts nodeId w2 _).
  { intros id. apply (collapse_projIds_not_nodes w nodeId w1 id Hf Hc). }
  { exact Hex. }
  unfold afterShow. rewrite Hhe, lookup_insert_eq. cbn [default from_option id].
  set (D := descendants (cy w) nodeId) in *.
  destruct Hedges as (old & new & Hed & Hold & _).
  assert (He1 : exists e1, e1 ∈ cy_edges (cy w1) /\ ends e1 = ends e).
  { assert (Hin' : ends e ∈ ends <$> old).
    { rewrite Hold. unfold edgeEnds. now apply list_elem_of_fmap_2. }
    apply list_elem_of_fmap in Hin' as (e1 & Heq & Hin').
    exists e1. split; [|now symmetry]. rewrite Hed. apply elem_of_app. now left. }
  destruct He1 as (e1 & He1 & Hends1).
  rewrite <- (e_id_ends _ _ Hends1).
  assert (Hok : forall y, y ∈ D ->
            hasElementWithId (cy w1) y = true /\ showable w1 nodeId y = true).
  { intros y Hy. split.
    - unfold hasElementWithId. rewrite (hierarchy_isNode _ _ y Hh).
      now rewrite (descendants_isNode _ nodeId y Hun Hy).
    - unfold showable. rewrite (hierarchy_parent _ _ y Hh).
      destruct (descendant_parent (cy w) nodeId y Hun Hy) as (p & -> & Hpar).
      destruct (String.eqb p nodeId) eqn:Heq; [reflexivity|].
      apply String.eqb_neq in Heq. destruct Hpar as [->|Hpar]; [contradiction|].
      simpl. rewrite bool_decide_eq_false_2; [reflexivity|].
      rewrite Hcol. specialize (Hnone p Hpar).
      unfold isCollapsedNode in Hnone. apply bool_decide_eq_false in Hnone.
      set_solver. }
  apply (showAll_shows_edge nodeId D w1 w1 e1).
  - apply onlyVisibility_refl.
  - exact He1.
  - now rewrite (isProjection_ends _ _ Hends1).
  - intros y Hy. rewrite (touches_ends _ _ y Hends1) in Hy.
    destruct (Hends y Hy) as [HyD|[Hny Hvis]].
    + left. split; [exact HyD | now apply Hok].
    + destruct (decide (y ∈ D)) as [HyD|HyD]; [left; split; [exact HyD | now apply Hok]|].
      right. rewrite (isHiddenEle_collapse _ _ _ y Hc), Hvis. fold D.
      rewrite (bool_decide_eq_false_2 _ HyD). simpl.
      apply bool_decide_eq_false.
      intros (e2 & d2 & He2 & Hid & _)%elem_of_subtreeEdgeIds.
      apply isNode_true in Hny. unfold uniqueIds in Hu.
      apply NoDup_app in Hu as (_ & Hdisj & _). apply (Hdisj y Hny).
      rewrite <- Hid. now apply list_elem_of_fmap_2.
  - left. exists d. rewrite (touches_ends _ _ d Hends1).
    split; [exact Htd|]. split; [exact Hd | now apply Hok].
Qed.

End RoundTripVisibility.

(** ** Every boundary edge gets its projection *)

Section ProjectionExists.
Context {R : Type} `{Number R}.

Implicit Types (w : World R) (g : Cy R) (id x nodeId parentId : string) (e : edge).










End ProjectionExists.

(** ** The collapse records of reachable states *)

Section RecordsExist.
Context {R : Type} `{Number R}.

Implicit Types (w : World R) (g : Cy R) (id x nodeId parentId : string) (e : edge).

Lemma expand_false_same w opts nodeId w' :
  expand w opts nodeId = (w', false) -> w' = w.
Proof.
  unfold expand. destruct (decide (nodeId ∈ collapsedIds (state w))); [discriminate|].
  now intros [= <-].
Qed.

(** One record per collapsed node: the three maps have an entry for a node
    exactly while it is collapsed (the saved positions at most then), and a
    collapsed node is a compound node of the initial hierarchy. *)
Lemma reachable_records g0 opts w :
  noReservedNodes g0 -> reachable g0 opts w ->
  dom (hiddenElementsMap (state w)) = collapsedIds (state w)
  /\ dom (projectionEdgesMap (state w)) = collapsedIds (state w)
  /\ dom (savedPositionsMap (state w)) ⊆ collapsedIds (state w)
  /\ (forall n, n ∈ collapsedIds (state w) -> isParent g0 n = true).
Proof.
  intros Hres. induction 1 as [|w nodeId Hreach IH|w nodeId Hreach IH].
  - simpl. rewrite !dom_empty_L. repeat split; set_solver.
  - destruct IH as (Hhe & Hpr & Hsv & Hpar).
    destruct (collapse w nodeId) as [w' [|]] eqn:Hc; cbn [fst].
    2:{ apply collapse_false_same in Hc as ->. auto. }
    destruct (collapse_spec _ _ _ Hc) as [_ _ _ _ Hcol Hhe' Hsv' Hpr' _ _ _].
    rewrite Hcol, Hhe', Hpr', Hsv', !dom_insert_L, Hhe, Hpr.
    split; [reflexivity|]. split; [reflexivity|]. split.
    + destruct (position (cy w) nodeId); [rewrite dom_insert_L|]; set_solver.
    + intros n [->%elem_of_singleton|Hn]%elem_of_union; [|now apply Hpar].
      destruct (collapse_true_inv _ _ _ Hc) as [Hp _].
      destruct (reachable_engineInv g0 opts w Hres Hreach) as [Hh _ _ _].
      now rewrite <- (hierarchy_isParent _ _ nodeId Hh).
  - destruct IH as (Hhe & Hpr & Hsv & Hpar).
    destruct (expand w opts nodeId) as [w' [|]] eqn:He; cbn [fst].
    2:{ apply expand_false_same in He as ->. auto. }
    destruct (expand_state _ _ _ _ He) as (Hcol & Hhe' & Hsv' & Hpr' & _).
    rewrite Hcol, Hhe', Hpr', Hsv', !dom_delete_L, Hhe, Hpr.
    split; [reflexivity|]. split; [reflexivity|]. split; [set_solver|].
    intros n Hn. apply Hpar. set_solver.
Qed.

(** X11.  At every state reached by [collapse] and [expand] calls from a
    fresh engine, a node has a hidden-descendants entry and a projection
    entry exactly when it is collapsed; a saved-positions entry only then;
    a collapsed node is a compound node, and its entry lists its
    descendants. *)
Theorem records_exist_exactly_while_collapsed g0 opts w n :
  noReservedNodes g0 ->
  reachable g0 opts w ->
  (isCollapsedNode w n = true <-> is_Some (hiddenElementsMap (state w) !! n))
  /\ (isCollapsedNode w n = true <-> is_Some (projectionEdgesMap (state w) !! n))
  /\ (is_Some (savedPositionsMap (state w) !! n) -> isCollapsedNode w n = true)
  /\ (isCollapsedNode w n = true ->
        isParent g0 n = true
        /\ hiddenElementsMap (state w) !! n = Some (descendants g0 n)).
Proof.
  intros Hres Hreach.
  destruct (reachable_records g0 opts w Hres Hreach) as (Hhe & Hpr & Hsv & Hpar).
  unfold isCollapsedNode. rewrite bool_decide_eq_true.
  rewrite <- !elem_of_dom, Hhe, Hpr.
  split; [reflexivity|]. split; [reflexivity|]. split; [set_solver|].
  intros Hn. split; [now apply Hpar|].
  rewrite <- Hhe in Hn. apply elem_of_dom in Hn as [l Hl]. rewrite Hl. f_equal.
  destruct (reachable_engineInv g0 opts w Hres Hreach) as [_ Hrec _ _].
  now apply (Hrec n).
Qed.

End RecordsExist.

(** ** Collapsing and expanding everything *)

Section Everything.
Context {R : Type} `{Number R}.

Implicit Types (w : World R) (g : Cy R) (id x nodeId : string) (e : edge).

(** *** One call, whether it succeeds or not *)

Lemma collapse_fst w nodeId :
  let w' := fst (collapse w nodeId) in
  hierarchy (cy w') = hierarchy (cy w)
  /\ collapsedIds (state w) ⊆ collapsedIds (state w')
  /\ collapsedIds (state w') ⊆ {[nodeId]} ∪ collapsedIds (state w)
  /\ (isParent (cy w) nodeId = true -> nodeId ∈ collapsedIds (state w'))
  /\ (forall x, isHiddenEle w x = true -> isHiddenEle w' x = true).
Proof.
  destruct (collapse w nodeId) as [w' [|]] eqn:Hc; cbn [fst].
  - destruct (collapse_spec _ _ _ Hc) as [Hh _ _ _ Hcol _ _ _ _ _ _].
    rewrite Hcol. split; [exact Hh|]. split; [set_solver|]. split; [set_solver|].
    split; [set_solver|].
    intros x Hx. now rewrite (isHiddenEle_collapse _ _ _ x Hc), Hx.
  - pose proof (collapse_false_same _ _ _ Hc) as ->.
    split; [reflexivity|]. split; [set_solver|]. split; [set_solver|].
    split; [|auto].
    intros Hp. destruct (decide (nodeId ∈ collapsedIds (state w))) as [Hin|Hin];
      [exact Hin|].
    rewrite (collapse_success _ _ Hp Hin) in Hc. discriminate.
Qed.

Lemma expand_fst_collapsed w opts nodeId :
  collapsedIds (state (fst (expand w opts nodeId))) = collapsedIds (state w) ∖ {[nodeId]}.
Proof.
  destruct (expand w opts nodeId) as [w' [|]] eqn:He; cbn [fst].
  - now destruct (expand_state _ _ _ _ He) as [-> _].
  - pose proof (expand_false_same _ _ _ _ He) as ->.
    unfold expand in He.
    destruct (decide (nodeId ∈ collapsedIds (state w))); [discriminate|]. set_solver.
Qed.

(** *** Folding [collapse] over a list of nodes *)

Lemma collapseEach_spec (l : list string) w :
  let w' := fold_left (fun w n => fst (collapse w n)) l w in
  hierarchy (cy w') = hierarchy (cy w)
  /\ collapsedIds (state w) ⊆ collapsedIds (state w')
  /\ collapsedIds (state w') ⊆ list_to_set l ∪ collapsedIds (state w)
  /\ (forall n, n ∈ l -> isParent (cy w) n = true -> n ∈ collapsedIds (state w'))
  /\ (forall x, isHiddenEle w x = true -> isHiddenEle w' x = true).
Proof.
  revert w. induction l as [|n l IH]; intros w; cbn [fold_left].
  - split; [reflexivity|]. split; [set_solver|]. split; [set_solver|].
    split; [|auto]. intros n Hn. now apply elem_of_nil in Hn.
  - destruct (collapse_fst w n) as (Hh1 & Hsub1 & Hsup1 & Hp1 & Hhid1).
    destruct (IH (fst (collapse w n))) as (Hh2 & Hsub2 & Hsup2 & Hp2 & Hhid2).
    split; [congruence|]. split; [clear -Hsub1 Hsub2; set_solver|].
    split; [clear -Hsup1 Hsup2; set_solver|]. split; [|auto].
    intros m Hm Hpar. apply elem_of_cons in Hm as [->|Hm].
    + apply Hsub2, Hp1, Hpar.
    + apply Hp2; [exact Hm|]. now rewrite (hierarchy_isParent _ _ m Hh1).
Qed.

Lemma collapseEach_hides_children (l : list string) w p c :
  uniqueNodeIds (cy w) ->
  p ∈ l -> c ∈ children (cy w) p -> p ∉ collapsedIds (state w) ->
  isHiddenEle (fold_left (fun w n => fst (collapse w n)) l w) c = true.
Proof.
  revert w. induction l as [|n l IH]; intros w Hu Hp Hc Hn;
    [now apply elem_of_nil in Hp|].
  cbn [fold_left].
  destruct (collapse_fst w n) as (Hh1 & _ & Hsup1 & _ & _).
  destruct (decide (n = p)) as [->|Hne].
  - assert (Hpar : isParent (cy w) p = true) by (apply isParent_true; eauto).
    destruct (collapse w p) as [w' b] eqn:Hcol.
    assert (b = true) as -> by (rewrite (collapse_success _ _ Hpar Hn) in Hcol; congruence).
    cbn [fst].
    destruct (collapseEach_spec l w') as (_ & _ & _ & _ & Hhid).
    apply Hhid. rewrite (isHiddenEle_collapse _ _ _ c Hcol).
    rewrite (bool_decide_eq_true_2 (c ∈ descendants (cy w) p));
      [now rewrite orb_true_r|].
    now apply children_descendants.
  - apply elem_of_cons in Hp as [->|Hp]; [contradiction|].
    apply IH; [| exact Hp | |].
    + now apply (hierarchy_uniqueNodeIds (cy w)).
    + now rewrite (hierarchy_children _ _ p Hh1).
    + intros Hin. apply Hsup1 in Hin. set_solver.
Qed.

(** *** The order of [collapseAll] *)

Lemma elem_of_insertByDepth g a (l : list string) x :
  x ∈ insertByDepth g a l <-> x = a \/ x ∈ l.
Proof.
  induction l as [|b l IH]; cbn [insertByDepth].
  - rewrite list_elem_of_singleton. set_solver.
  - destruct (depth g b <=? depth g a)%nat.
    + rewrite elem_of_cons. tauto.
    + rewrite !elem_of_cons, IH. tauto.
Qed.

Lemma elem_of_sortByDepth g (l : list string) x : x ∈ sortByDepth g l <-> x ∈ l.
Proof.
  induction l as [|a l IH]; cbn [sortByDepth foldr]; [reflexivity|].
  fold (sortByDepth g l). rewrite elem_of_insertByDepth, elem_of_cons, IH. tauto.
Qed.

Lemma elem_of_compounds g x :
  x ∈ compounds g <-> x ∈ n_id <$> cy_nodes g /\ isParent g x = true.
Proof.
  unfold compounds. rewrite !list_elem_of_fmap. split.
  - intros (n & -> & Hn). apply list_elem_of_In, filter_In in Hn as [Hn Hp].
    split; [|exact Hp]. exists n. split; [reflexivity | now apply list_elem_of_In].
  - intros [(n & -> & Hn) Hp]. exists n. split; [reflexivity|].
    apply list_elem_of_In, filter_In. split; [now apply list_elem_of_In | exact Hp].
Qed.

(** X12.  [collapseAll] collapses every compound node of the store and no
    other node; it changes no parent, and whatever was hidden before stays
    hidden.  Afterwards every child of a compound node of the store that
    was expanded before the call is hidden. *)
Theorem collapseAll_collapses_every_compound w :
  let w' := collapseAll w in
  hierarchy (cy w') = hierarchy (cy w)
  /\ (forall n, isNode (cy w) n = true -> isParent (cy w) n = true ->
        isCollapsedNode w' n = true)
  /\ (forall n, isCollapsedNode w' n = true ->
        isCollapsedNode w n = true
        \/ (isNode (cy w) n = true /\ isParent (cy w) n = true))
  /\ (forall x, isHiddenEle w x = true -> isHiddenEle w' x = true)
  /\ (uniqueNodeIds (cy w) ->
      forall p c, isNode (cy w) p = true -> c ∈ children (cy w) p ->
                  isCollapsedNode w p = false -> isHiddenEle w' c = true).
Proof.
  intros w'. subst w'. unfold collapseAll.
  set (order := sortByDepth (cy w) (compounds (cy w))).
  destruct (collapseEach_spec order w) as (Hh & Hsub & Hsup & Hp & Hhid).
  split; [exact Hh|]. split; [|split; [|split; [exact Hhid|]]].
  3:{ intros Hu p c Hn Hc Hcol. apply (collapseEach_hides_children order w p c); [exact Hu | | exact Hc |].
      - subst order. apply elem_of_sortByDepth, elem_of_compounds.
        split; [now apply isNode_true | apply isParent_true; eauto].
      - now apply bool_decide_eq_false in Hcol. }
  - intros n Hn Hpar. apply bool_decide_eq_true. apply Hp; [|exact Hpar].
    subst order. apply elem_of_sortByDepth, elem_of_compounds.
    split; [now apply isNode_true | exact Hpar].
  - intros n Hn. apply bool_decide_eq_true in Hn. unfold isCollapsedNode.
    apply Hsup in Hn. apply elem_of_union in Hn as [Hn|Hn].
    + right. apply elem_of_list_to_set in Hn. subst order.
      apply elem_of_sortByDepth, elem_of_compounds in Hn as [Hn Hpar].
      split; [now apply isNode_true | exact Hpar].
    + left. now apply bool_decide_eq_true.
Qed.

End Everything.

(** ** The order of [collapseAll], and [expandAll] *)


Section Order.
Context {R : Type} `{Number R}.

Implicit Types (w : World R) (g : Cy R) (id x nodeId : string) (e : edge).







Lemma NoDup_fmap_filter {A} (key : A -> string) (p : A -> bool) (l : list A) :
  NoDup (key <$> l) -> NoDup (key <$> List.filter p l).
Proof.
  induction l as [|x l IH]; [auto|].
  rewrite fmap_cons. intros [Hx Hl]%NoDup_cons. cbn [List.filter].
  destruct (p x); [|now apply IH].
  rewrite fmap_cons. constructor; [|now apply IH].
  intros (y & Hy & Hin)%list_elem_of_fmap. apply Hx.
  apply list_elem_of_fmap. exists y. split; [exact Hy|].
  apply list_elem_of_In, filter_In in Hin as [Hin _]. now apply list_elem_of_In.
Qed.




(** *** [expandAll] *)

Lemma removeAll_ids (ids : list string) g :
  let g1 := fold_left
              (fun g projId => if hasElementWithId g projId then remove g projId else g)
              ids g in
  n_id <$> cy_nodes g1 ⊆ n_id <$> cy_nodes g.
Proof.
  apply (fold_left_inv (fun g' => n_id <$> cy_nodes g' ⊆ n_id <$> cy_nodes g));
    [|reflexivity].
  intros a b _ Ha. etransitivity; [|exact Ha].
  destruct (hasElementWithId a b); [|reflexivity].
  unfold remove. destruct (isNode a b); [|reflexivity]. simpl.
  intros x (n & -> & Hn)%list_elem_of_fmap. apply list_elem_of_fmap_2.
  apply list_elem_of_In, filter_In in Hn as [Hn _]. now apply list_elem_of_In.
Qed.

Lemma expand_fst_ids w opts nodeId :
  n_id <$> cy_nodes (cy (fst (expand w opts nodeId))) ⊆ n_id <$> cy_nodes (cy w).
Proof.
  unfold expand. destruct (decide (nodeId ∈ collapsedIds (state w))); [|reflexivity].
  cbn [fst]. fold (afterShow w nodeId).
  destruct (afterShow_onlyVisibility w nodeId) as [Hh0 _ _ _ _ _ _ _ _].
  set (wa := afterShow w nodeId) in *.
  assert (Hb : n_id <$> cy_nodes (cy (removeProjections wa nodeId))
               ⊆ n_id <$> cy_nodes (cy w)).
  { rewrite <- (hierarchy_ids (cy w)), <- Hh0, hierarchy_ids.
    unfold removeProjections.
    destruct (projectionEdgesMap (state wa) !! nodeId) as [data|]; [|reflexivity].
    apply removeAll_ids. }
  set (wb := removeProjections wa nodeId) in *.
  destruct (restoreLocalPositions_spec wb opts nodeId) as [Hh2 _ _ _ _ _ _ _ _].
  cbn [cy state withCy withCollapsedIds withHiddenElementsMap emit cy_nodes].
  now rewrite <- (hierarchy_ids (cy (restoreLocalPositions wb opts nodeId))), Hh2,
    hierarchy_ids.
Qed.

Lemma expand_fst_hiddenIds w opts nodeId :
  hiddenIds (state (fst (expand w opts nodeId))) ⊆ hiddenIds (state w).
Proof.
  destruct (expand w opts nodeId) as [w' [|]] eqn:He; cbn [fst].
  - now destruct (expand_state _ _ _ _ He) as (_ & _ & _ & _ & ? & _).
  - now rewrite (expand_false_same _ _ _ _ He).
Qed.

Lemma expandEach_spec opts (l : list string) w :
  let w' := fold_left (fun w n => fst (expand w opts n)) l w in
  collapsedIds (state w') = collapsedIds (state w) ∖ list_to_set l
  /\ n_id <$> cy_nodes (cy w') ⊆ n_id <$> cy_nodes (cy w)
  /\ hiddenIds (state w') ⊆ hiddenIds (state w).
Proof.
  revert w. induction l as [|n l IH]; intros w; cbn [fold_left].
  - split; [set_solver|]. split; reflexivity.
  - destruct (IH (fst (expand w opts n))) as (Hc & Hn & Hh).
    rewrite Hc, expand_fst_collapsed. split; [set_solver|]. split.
    + etransitivity; [exact Hn | apply expand_fst_ids].
    + etransitivity; [exact Hh | apply expand_fst_hiddenIds].
Qed.

Lemma elem_of_collapsedNodes w x :
  x ∈ collapsedNodes w <-> x ∈ n_id <$> cy_nodes (cy w) /\ x ∈ collapsedIds (state w).
Proof.
  unfold collapsedNodes. rewrite !list_elem_of_fmap. split.
  - intros (n & -> & Hn). apply list_elem_of_In, filter_In in Hn as [Hn Hc].
    split; [|now apply bool_decide_eq_true in Hc].
    exists n. split; [reflexivity | now apply list_elem_of_In].
  - intros [(n & -> & Hn) Hc]. exists n. split; [reflexivity|].
    apply list_elem_of_In, filter_In. split; [now apply list_elem_of_In|].
    now apply bool_decide_eq_true.
Qed.

(** X14.  After [expandAll] no node of the store is collapsed and
    [collapsedNodes] is empty; the collapsed set keeps only ids that name
    no node of the store, and nothing is hidden that was not hidden
    before. *)
Theorem expandAll_leaves_no_node_collapsed w opts :
  let w' := expandAll w opts in
  (forall n, isNode (cy w) n = true -> isCollapsedNode w' n = false)
  /\ (forall n, isCollapsedNode w' n = true -> isCollapsedNode w n = true)
  /\ collapsedNodes w' = []
  /\ hiddenIds (state w') ⊆ hiddenIds (state w).
Proof.
  intros w'. subst w'. unfold expandAll.
  destruct (expandEach_spec opts (collapsedNodes w) w) as (Hc & Hn & Hh).
  set (w' := fold_left (fun w n => fst (expand w opts n)) (collapsedNodes w) w) in *.
  assert (Hnot : forall n, n ∈ n_id <$> cy_nodes (cy w) -> n ∉ collapsedIds (state w')).
  { intros n Hnode. rewrite Hc. intros [Hin Hout]%elem_of_difference. apply Hout.
    apply elem_of_list_to_set, elem_of_collapsedNodes. now split. }
  split; [|split; [|split; [|exact Hh]]].
  - intros n Hnode. apply bool_decide_eq_false, Hnot. now apply isNode_true.
  - intros n Hcol. apply bool_decide_eq_true. apply bool_decide_eq_true in Hcol.
    rewrite Hc in Hcol. set_solver.
  - unfold collapsedNodes. rewrite filter_none; [reflexivity|].
    intros n Hnode. apply bool_decide_eq_false, Hnot, Hn.
    now apply list_elem_of_fmap_2.
Qed.

End Order.

(** ** What overlap resolution moves *)

Section OverlapFrame.
Context {R : Type} `{Number R}.
Variable boundingBox : Cy R -> string -> boundingBoxOf R.

Implicit Types (w : World R) (g : Cy R) (padding : R) (id : string).

Lemma positionsOnly_refl (moved : list string) g : positionsOnly moved g g.
Proof. now constructor. Qed.

Lemma positionsOnly_trans (moved : list string) g1 g2 g3 :
  positionsOnly moved g1 g2 -> positionsOnly moved g2 g3 -> positionsOnly moved g1 g3.
Proof.
  intros [Hh Hnh He Hem Han Hp] [Hh' Hnh' He' Hem' Han' Hp'].
  constructor;
    [congruence | intros id; now rewrite Hnh' | congruence | congruence | congruence|].
  intros id Hid. rewrite Hp' by exact Hid. now apply Hp.
Qed.

Lemma positionsOnly_setPosition (moved : list string) g id p :
  id ∈ moved -> positionsOnly moved g (setPosition g id p).
Proof.
  intros Hin.
  constructor;
    [apply hierarchy_setPosition | intros x; apply nodeHidden_setPosition
     | reflexivity | reflexivity | reflexivity |].
  intros x Hx. rewrite position_setPosition.
  destruct (decide (x = id)) as [->|]; [contradiction | reflexivity].
Qed.

Lemma positionsOnly_separateNodes (moved : list string) g n1 n2 overlap padding :
  n1 ∈ moved -> n2 ∈ moved ->
  positionsOnly moved g (separateNodes g n1 n2 overlap padding).
Proof.
  intros H1 H2. unfold separateNodes.
  destruct (if nltb (overlapX overlap) (overlapY overlap) then _ else _) as [moveX moveY].
  destruct (position g n1) as [pos1|]; [|apply positionsOnly_refl].
  destruct (position g n2) as [pos2|]; [|apply positionsOnly_refl].
  eapply positionsOnly_trans; now apply positionsOnly_setPosition.
Qed.

Lemma positionsOnly_visitPair (moved : list string) g0 padding ni nj (acc : Cy R * bool) :
  ni ∈ moved -> nj ∈ moved ->
  positionsOnly moved g0 acc.1 ->
  positionsOnly moved g0 (visitPair boundingBox padding ni acc nj).1.
Proof.
  intros Hi Hj Hacc. destruct acc as [g f]. unfold visitPair.
  destruct (related g ni nj); [exact Hacc|].
  destruct (calculateOverlap boundingBox g ni nj); [|exact Hacc].
  eapply positionsOnly_trans; [exact Hacc|]. now apply positionsOnly_separateNodes.
Qed.

Lemma positionsOnly_visitPairs (moved : list string) g0 padding (nodes : list string)
    (acc : Cy R * bool) :
  (forall n, n ∈ nodes -> n ∈ moved) ->
  positionsOnly moved g0 acc.1 ->
  positionsOnly moved g0 (visitPairs boundingBox padding nodes acc).1.
Proof.
  revert acc. induction nodes as [|ni rest IH]; intros acc Hsub Hacc;
    cbn [visitPairs]; [exact Hacc|].
  apply IH; [intros n Hn; apply Hsub; now right|].
  apply (fold_left_inv (fun acc' => positionsOnly moved g0 acc'.1)); [|exact Hacc].
  intros a nj Hnj Ha. apply positionsOnly_visitPair; [apply Hsub; left | | exact Ha].
  apply Hsub. now right.
Qed.

Lemma isHiddenEle_positionsOnly (moved : list string) w w' id :
  positionsOnly moved (cy w) (cy w') -> state w' = state w ->
  isHiddenEle w' id = isHiddenEle w id.
Proof.
  intros [_ Hnh He _ _ _] Hs. unfold isHiddenEle.
  rewrite Hs, !dataHidden_alt, Hnh. unfold getEdge. now rewrite He.
Qed.

Lemma getVisibleNodes_ids w :
  getVisibleNodes w
  = List.filter (fun id => negb (isHiddenEle w id)) (fst <$> hierarchy (cy w)).
Proof.
  unfold getVisibleNodes. rewrite hierarchy_ids. symmetry.
  apply (filter_fmap n_id (fun id => negb (isHiddenEle w id))).
Qed.

Lemma visibleLeaves_positionsOnly (moved : list string) w w' :
  positionsOnly moved (cy w) (cy w') -> state w' = state w ->
  visibleLeaves w' = visibleLeaves w.
Proof.
  intros Hpo Hs. unfold visibleLeaves. rewrite !getVisibleNodes_ids.
  pose proof Hpo as [Hh _ _ _ _ _]. rewrite Hh.
  rewrite (filter_ext_in (fun id => negb (isHiddenEle w' id))
                         (fun id => negb (isHiddenEle w id))).
  - apply filter_ext_in. intros id _. now rewrite (hierarchy_isParent _ _ id Hh).
  - intros id _. now rewrite (isHiddenEle_positionsOnly _ _ _ id Hpo Hs).
Qed.

Lemma overlapPass_frame padding w :
  positionsOnly (visibleLeaves w) (cy w)
                (cy (overlapPass boundingBox padding w).1)
  /\ state (overlapPass boundingBox padding w).1 = state w.
Proof.
  unfold overlapPass.
  pose proof (positionsOnly_visitPairs (visibleLeaves w) (cy w) padding
                (visibleLeaves w) (cy w, false) (fun n Hn => Hn)
                (positionsOnly_refl _ _)) as Hpo.
  destruct (visitPairs boundingBox padding (visibleLeaves w) (cy w, false)) as [g f].
  split; [exact Hpo | reflexivity].
Qed.

Lemma overlapLoop_frame padding (remaining : nat) w (iterations : nat) :
  positionsOnly (visibleLeaves w) (cy w)
                (cy (overlapLoop boundingBox padding remaining w iterations).1.1)
  /\ state (overlapLoop boundingBox padding remaining w iterations).1.1 = state w.
Proof.
  revert w iterations. induction remaining as [|remaining IH]; intros w iterations;
    cbn [overlapLoop].
  - split; [apply positionsOnly_refl | reflexivity].
  - destruct (overlapPass_frame padding w) as [Hpo Hs].
    destruct (overlapPass boundingBox padding w) as [w1 hasOverlap].
    cbn [fst] in Hpo, Hs. destruct hasOverlap.
    + destruct (IH w1 (S iterations)) as [Hpo' Hs'].
      rewrite (visibleLeaves_positionsOnly _ _ _ Hpo Hs) in Hpo'.
      split; [|congruence]. eapply positionsOnly_trans; [exact Hpo | exact Hpo'].
    + split; [exact Hpo | exact Hs].
Qed.

Lemma resolveOverlaps_frame w (opts : Opts R) :
  let w' := (resolveOverlaps boundingBox w opts).1 in
  let ok := (resolveOverlaps boundingBox w opts).2 in
  state w' = state w
  /\ hierarchy (cy w') = hierarchy (cy w)
  /\ cy_edges (cy w') = cy_edges (cy w)
  /\ cy_animations (cy w') = cy_animations (cy w)
  /\ cy_emitted (cy w')
     = cy_emitted (cy w) ++ (if ok then [] else [EvLayoutResetRequired])
  /\ (forall id, isHiddenEle w' id = isHiddenEle w id)
  /\ (forall id, isHiddenEle w id = true \/ isParent (cy w) id = true
                 \/ isNode (cy w) id = false ->
                 position (cy w') id = position (cy w) id).
Proof.
  intros w' ok. subst w' ok. unfold resolveOverlaps.
  destruct (overlapLoop_frame (paddingOr10 opts) (maxIterationsOr50 opts) w 0)
    as [Hpo Hs].
  destruct (overlapLoop boundingBox (paddingOr10 opts) (maxIterationsOr50 opts) w 0)
    as [[wl flag] iterations].
  cbn [fst] in Hpo, Hs.
  assert (Hvis : forall id, isHiddenEle wl id = isHiddenEle w id).
  { intros id. now apply (isHiddenEle_positionsOnly (visibleLeaves w)). }
  assert (Hpos : forall id, isHiddenEle w id = true \/ isParent (cy w) id = true
                            \/ isNode (cy w) id = false ->
                            position (cy wl) id = position (cy w) id).
  { intros id Hid. destruct Hpo as [_ _ _ _ _ Hp]. apply Hp.
    unfold visibleLeaves. intros Hin.
    apply list_elem_of_In, filter_In in Hin as [Hin Hleaf].
    apply list_elem_of_In in Hin. unfold getVisibleNodes in Hin.
    apply list_elem_of_fmap in Hin as (n & -> & Hn).
    apply list_elem_of_In, filter_In in Hn as [Hn Hv].
    destruct Hid as [Hh|[Hp'|Hno]].
    - rewrite Hh in Hv. discriminate.
    - rewrite Hp' in Hleaf. discriminate.
    - assert (Ht : isNode (cy w) (n_id n) = true).
      { apply isNode_true. apply list_elem_of_fmap_2. now apply list_elem_of_In. }
      congruence. }
  destruct Hpo as [Hh _ He Hem Han _].
  destruct ((maxIterationsOr50 opts <=? iterations)%nat && hasOverlaps boundingBox wl);
    cbn [fst snd cy state withCy emit cy_nodes cy_edges cy_emitted cy_animations].
  - split; [exact Hs|]. split; [exact Hh|]. split; [exact He|]. split; [exact Han|].
    split; [now rewrite Hem|]. split; [exact Hvis | exact Hpos].
  - split; [exact Hs|]. split; [exact Hh|]. split; [exact He|]. split; [exact Han|].
    split; [now rewrite Hem, app_nil_r|]. split; [exact Hvis | exact Hpos].
Qed.

(** X15.  [resolveOverlaps] moves visible nodes without children and
    nothing else: the engine state, the hierarchy, the edges, the
    animations and the visibility of every element are as before, a node
    that is hidden or has children keeps its position, and the only event
    it can emit is the layout-reset notification of a failed run. *)
Theorem resolveOverlaps_moves_visible_leaves_only w (opts : Opts R) :
  let w' := (resolveOverlaps boundingBox w opts).1 in
  let ok := (resolveOverlaps boundingBox w opts).2 in
  state w' = state w
  /\ hierarchy (cy w') = hierarchy (cy w)
  /\ cy_edges (cy w') = cy_edges (cy w)
  /\ cy_animations (cy w') = cy_animations (cy w)
  /\ cy_emitted (cy w')
     = cy_emitted (cy w) ++ (if ok then [] else [EvLayoutResetRequired])
  /\ (forall id, isHiddenEle w' id = isHiddenEle w id)
  /\ (forall id, isHiddenEle w id = true \/ isParent (cy w) id = true
                 \/ isNode (cy w) id = false ->
                 position (cy w') id = position (cy w) id).
Proof. apply resolveOverlaps_frame. Qed.

(** *** Fewer than two nodes to compare *)

Lemma visitPairs_short padding (nodes : list string) (acc : Cy R * bool) :
  length nodes <= 1 -> visitPairs boundingBox padding nodes acc = acc.
Proof.
  destruct nodes as [|a [|b rest]]; simpl; [reflexivity | reflexivity | lia].
Qed.

(** X16.  With fewer than two visible nodes without children there is
    nothing to compare: [hasOverlaps] is false and [resolveOverlaps]
    returns [true] without changing anything, whatever the options. *)
Theorem resolveOverlaps_nothing_to_compare w (opts : Opts R) :
  length (visibleLeaves w) <= 1 ->
  hasOverlaps boundingBox w = false
  /\ resolveOverlaps boundingBox w opts = (w, true).
Proof.
  intros Hlen.
  assert (Hno : hasOverlaps boundingBox w = false).
  { unfold hasOverlaps. destruct (visibleLeaves w) as [|a [|b rest]];
      [reflexivity | reflexivity | simpl in Hlen; lia]. }
  split; [exact Hno|].
  assert (Hpass : overlapPass boundingBox (paddingOr10 opts) w = (w, false)).
  { unfold overlapPass. rewrite visitPairs_short by exact Hlen. now destruct w. }
  unfold resolveOverlaps.
  pose proof (maxIterationsOr50_pos opts) as Hpos.
  destruct (maxIterationsOr50 opts) as [|m] eqn:Hm; [lia|].
  cbn [overlapLoop]. rewrite Hpass. cbn iota beta. rewrite Hno.
  now rewrite andb_false_r.
Qed.

(** *** The overlap test *)

Lemma boxesOverlap_sym (bb1 bb2 : boundingBoxOf R) :
  boxesOverlap bb1 bb2 = boxesOverlap bb2 bb1.
Proof.
  unfold boxesOverlap, ngtb. f_equal.
  destruct (nltb (x2 bb1) (x1 bb2)), (nltb (x2 bb2) (x1 bb1)),
    (nltb (y2 bb1) (y1 bb2)), (nltb (y2 bb2) (y1 bb1)); reflexivity.
Qed.

Lemma overlapping_sym g a b :
  overlapping boundingBox g a b = overlapping boundingBox g b a.
Proof.
  unfold overlapping, related, calculateOverlap.
  rewrite (boxesOverlap_sym (boundingBox g a)).
  rewrite (orb_comm (bool_decide (b ∈ ancestors g a))). f_equal.
  now destruct (boxesOverlap (boundingBox g b) (boundingBox g a)).
Qed.

Lemma anyPair_false (test : string -> string -> bool) (nodes : list string) i j a b :
  anyPair test nodes = false -> i < j ->
  nodes !! i = Some a -> nodes !! j = Some b -> test a b = false.
Proof.
  revert i j. induction nodes as [|n rest IH]; intros i j Hany Hlt Hi Hj;
    [discriminate|].
  cbn [anyPair] in Hany. apply orb_false_iff in Hany as [Hrow Hrest].
  destruct i as [|i].
  - injection Hi as ->. destruct j as [|j]; [lia|]. simpl in Hj.
    destruct (test a b) eqn:Ht; [|reflexivity].
    assert (Hex : existsb (test a) rest = true).
    { apply existsb_exists. exists b. split; [|exact Ht].
      apply list_elem_of_In. now apply list_elem_of_lookup_2 in Hj. }
    congruence.
  - destruct j as [|j]; [lia|]. simpl in Hi, Hj. apply (IH i j); [exact Hrest | lia | | ];
      assumption.
Qed.

Lemma overlapLoop_clean padding (remaining : nat) w (iterations : nat) wl iters :
  overlapLoop boundingBox padding remaining w iterations = (wl, false, iters) ->
  hasOverlaps boundingBox wl = false.
Proof.
  revert w iterations. induction remaining as [|remaining IH]; intros w iterations;
    cbn [overlapLoop]; [discriminate|].
  destruct (overlapPass boundingBox padding w) as [w1 hasOverlap] eqn:Hp.
  destruct hasOverlap; [apply IH|].
  intros [= <- _]. now apply overlapPass_clean in Hp as [-> Hclean].
Qed.

Lemma resolveOverlaps_true w (opts : Opts R) w' :
  resolveOverlaps boundingBox w opts = (w', true) -> hasOverlaps boundingBox w' = false.
Proof.
  unfold resolveOverlaps.
  destruct (overlapLoop boundingBox (paddingOr10 opts) (maxIterationsOr50 opts) w 0)
    as [[wl flag] iterations] eqn:Hloop.
  destruct (hasOverlaps boundingBox wl) eqn:Hov.
  2:{ rewrite andb_false_r. now intros [= <-]. }
  rewrite andb_true_r.
  destruct (maxIterationsOr50 opts <=? iterations)%nat eqn:Hcap; [discriminate|].
  intros [= <-]. apply Nat.leb_gt in Hcap.
  destruct flag.
  - apply overlapLoop_spec in Hloop as (k & -> & _ & _ & _ & -> & _). simpl in Hcap. lia.
  - apply overlapLoop_clean in Hloop. congruence.
Qed.

(** X17.  When [resolveOverlaps] returns [true], no two visible nodes
    without children have overlapping bounding boxes afterwards, unless
    one is an ancestor of the other; the test does not depend on the order
    of the two nodes. *)
Theorem resolveOverlaps_true_means_no_overlap w (opts : Opts R) w' i j a b :
  resolveOverlaps boundingBox w opts = (w', true) ->
  i <> j ->
  visibleLeaves w' !! i = Some a -> visibleLeaves w' !! j = Some b ->
  related (cy w') a b = false ->
  boxesOverlap (boundingBox (cy w') a) (boundingBox (cy w') b) = false
  /\ calculateOverlap boundingBox (cy w') a b = None.
Proof.
  intros Hres Hne Hi Hj Hrel.
  apply resolveOverlaps_true in Hres. unfold hasOverlaps in Hres.
  assert (Hov : overlapping boundingBox (cy w') a b = false).
  { destruct (decide (i < j)) as [Hlt|Hge].
    - apply (anyPair_false _ _ i j a b Hres Hlt Hi Hj).
    - rewrite overlapping_sym. apply (anyPair_false _ _ j i b a Hres); [lia | |]; assumption. }
  unfold overlapping in Hov. rewrite Hrel in Hov. simpl in Hov.
  unfold calculateOverlap in *.
  destruct (boxesOverlap (boundingBox (cy w') a) (boundingBox (cy w') b)); [|auto].
  simpl in Hov. discriminate.
Qed.

End OverlapFrame.

(** ** The debounced layout trigger of the public wrappers *)

Section Trigger.
Context {R : Type} `{Number R}.

Implicit Types (w : World R) (g : Cy R) (a : @Api R) (id x nodeId : string).

Lemma last_cons_default {A} (x : A) (l : list A) (d : option A) :
  match last (x :: l) with Some y => Some y | None => d end
  = match last l with Some y => Some y | None => Some x end.
Proof. rewrite last_cons. now destruct (last l). Qed.

Lemma api_step_failed (op : World R -> string -> World R * bool) a n :
  op (api_world a) n = (api_world a, false) -> api_step op a n = a.
Proof. intros Hop. unfold api_step. rewrite Hop. now destruct a. Qed.

(** With auto layout off the wrappers never arm the timer. *)
Lemma api_fold_off (op : World R -> string -> World R * bool) (nodes : list string) a :
  autoLayout a = false ->
  pendingLayout (fold_left (api_step op) nodes a) = pendingLayout a
  /\ autoLayout (fold_left (api_step op) nodes a) = false.
Proof.
  revert a. induction nodes as [|n nodes IH]; intros a Hoff; cbn [fold_left]; [auto|].
  destruct (IH (api_step op a n)) as [Hp Ha].
  - unfold api_step. now destruct (op (api_world a) n).
  - rewrite Hp, Ha. split; [|reflexivity].
    unfold api_step. destruct (op (api_world a) n) as [w' ok]. simpl.
    now rewrite Hoff, andb_false_r.
Qed.

Lemma api_fold_world (op : World R -> string -> World R * bool) (nodes : list string) a :
  api_world (fold_left (api_step op) nodes a)
  = fold_left (fun w n => fst (op w n)) nodes (api_world a).
Proof.
  revert a. induction nodes as [|n nodes IH]; intros a; cbn [fold_left]; [reflexivity|].
  rewrite IH. f_equal. unfold api_step. now destruct (op (api_world a) n).
Qed.

Lemma api_collapse_pending_gen w0 (nodes : list string) a (done : gset string) :
  autoLayout a = true ->
  hierarchy (cy (api_world a)) = hierarchy (cy w0) ->
  collapsedIds (state (api_world a)) = done ∪ collapsedIds (state w0) ->
  pendingLayout (api_collapse a nodes)
  = match last (uniqBy (fun x => x) done (List.filter (collapsible w0) nodes)) with
    | Some n => Some n
    | None => pendingLayout a
    end.
Proof.
  unfold api_collapse. revert a done.
  induction nodes as [|n nodes IH]; intros a done Hon Hh Hc; cbn [fold_left List.filter];
    [reflexivity|].
  assert (Hfail : collapse (api_world a) n = (api_world a, false) ->
            pendingLayout (fold_left (api_step collapse) nodes (api_step collapse a n))
            = match last (uniqBy (fun x => x) done (List.filter (collapsible w0) nodes)) with
              | Some n => Some n
              | None => pendingLayout a
              end).
  { intros Hf. rewrite (api_step_failed _ _ _ Hf). now apply IH. }
  unfold collapsible at 1. unfold isCollapsedNode.
  destruct (isParent (cy w0) n) eqn:Hp; cbn [andb].
  2:{ apply Hfail, collapse_not_parent.
      now rewrite (hierarchy_isParent _ _ n Hh). }
  destruct (decide (n ∈ collapsedIds (state w0))) as [Hin|Hin].
  { rewrite (bool_decide_eq_true_2 _ Hin). cbn [negb].
    apply Hfail, collapse_already_collapsed, bool_decide_eq_true. rewrite Hc. set_solver. }
  rewrite (bool_decide_eq_false_2 _ Hin). cbn [negb uniqBy].
  destruct (decide (n ∈ done)) as [Hd|Hd].
  { apply Hfail, collapse_already_collapsed, bool_decide_eq_true. rewrite Hc. set_solver. }
  assert (Hpar : isParent (cy (api_world a)) n = true)
    by now rewrite (hierarchy_isParent _ _ n Hh).
  assert (Hnot : n ∉ collapsedIds (state (api_world a))) by (rewrite Hc; set_solver).
  destruct (collapse (api_world a) n) as [w' ok] eqn:Hcol.
  assert (ok = true) as ->
    by (rewrite (collapse_success _ _ Hpar Hnot) in Hcol; congruence).
  destruct (collapse_spec _ _ _ Hcol) as [Hh' _ _ _ Hc' _ _ _ _ _ _].
  assert (Hstep : api_step collapse a n = MkApi w' true (Some n)).
  { unfold api_step. rewrite Hcol, Hon. reflexivity. }
  rewrite Hstep, (IH _ ({[n]} ∪ done)); cbn [api_world autoLayout pendingLayout].
  - symmetry. apply last_cons_default.
  - reflexivity.
  - congruence.
  - rewrite Hc', Hc. set_solver.
Qed.

(** X18.  The layout trigger of [collapse(nodes)].  With auto layout off,
    [collapse(nodes)] and [expand(nodes)] never arm the debounced layout.
    With auto layout on, [collapse(nodes)] leaves one pending request
    whatever the number of nodes: it is for the last node of the batch
    that was collapsed by it, that is the last compound node of the batch
    (counting a repeated node once, at its first place) that was not
    collapsed when the batch started; a batch that collapses nothing
    leaves the pending request as it was. *)
Theorem api_collapse_arms_layout_for_last_success a (opts : Opts R) (nodes : list string) :
  api_world (api_collapse a nodes)
  = fold_left (fun w n => fst (collapse w n)) nodes (api_world a)
  /\ (autoLayout a = false ->
        pendingLayout (api_collapse a nodes) = pendingLayout a
        /\ pendingLayout (api_expand opts a nodes) = pendingLayout a)
  /\ (autoLayout a = true ->
        pendingLayout (api_collapse a nodes)
        = match last (uniqBy (fun x => x) ∅
                        (List.filter (collapsible (api_world a)) nodes)) with
          | Some n => Some n
          | None => pendingLayout a
          end).
Proof.
  split; [apply api_fold_world|]. split.
  - intros Hoff. split; now apply api_fold_off.
  - intros Hon. apply api_collapse_pending_gen; [exact Hon | reflexivity | set_solver].
Qed.

End Trigger.

(** ** Layout runs: what they leave in place *)

Section LayoutFrame.
Context {R : Type} `{Number R}.
Variable boundingBox : Cy R -> string -> boundingBoxOf R.
Variable layoutStop : layoutOptions R -> Cy R -> Cy R.
Variable colaAvailable : bool.

(** A layout moves nodes and does nothing else to the store. *)
Hypothesis layout_moves_nodes :
  forall options g, positionsOnly (n_id <$> cy_nodes g) g (layoutStop options g).

Implicit Types (w : World R) (g : Cy R) (opts : Opts R) (lopts : LayoutOpts R)
               (id node : string).

Lemma positionsOnly_weaken (moved moved' : list string) g g' :
  (forall id, id ∈ moved -> id ∈ moved') ->
  positionsOnly moved g g' -> positionsOnly moved' g g'.
Proof.
  intros Hsub [Hh Hnh He Hem Han Hp].
  constructor; try assumption. intros id Hid. apply Hp. auto.
Qed.

Lemma originalPositionsOf_lookup g (l : list string) u :
  originalPositionsOf g l !! u = if decide (u ∈ l) then position g u else None.
Proof.
  unfold originalPositionsOf.
  assert (Hgen : forall (m : gmap string (point R)),
            fold_left
              (fun (originalPositions : gmap string (point R)) n =>
                 match position g n with
                 | Some pos => <[n := pos]> originalPositions
                 | None => originalPositions
                 end) l m !! u
            = if decide (u ∈ l)
              then match position g u with Some p => Some p | None => m !! u end
              else m !! u).
  { induction l as [|n l IH]; intros m; cbn [fold_left].
    - now rewrite decide_False by apply not_elem_of_nil.
    - rewrite IH. clear IH.
      set (m' := match position g n with
                 | Some pos => <[n := pos]> m
                 | None => m
                 end).
      destruct (decide (u = n)) as [->|Hne].
      + rewrite (decide_True (P := n ∈ n :: l)) by left. subst m'.
        destruct (position g n) eqn:Hp.
        * rewrite lookup_insert_eq. now destruct (decide (n ∈ l)).
        * now destruct (decide (n ∈ l)).
      + assert (Hm : m' !! u = m !! u).
        { subst m'. destruct (position g n); [now rewrite lookup_insert_ne|reflexivity]. }
        rewrite Hm. destruct (decide (u ∈ l)) as [Hin|Hin].
        * now rewrite (decide_True (P := u ∈ n :: l)) by now right.
        * rewrite (decide_False (P := u ∈ n :: l)); [reflexivity|].
          intros [?|?]%elem_of_cons; contradiction. }
  rewrite Hgen, lookup_empty. destruct (decide (u ∈ l)); [|reflexivity].
  now destruct (position g u).
Qed.

Lemma restoreOriginal_spec (originalPositions : gmap string (point R))
    (l all : list string) g :
  (forall n, n ∈ l -> n ∈ all) ->
  let g' := fold_left
              (fun g n =>
                 match originalPositions !! n with
                 | Some pos => setPosition g n pos
                 | None => g
                 end) l g in
  positionsOnly all g g'
  /\ (forall u pos, u ∈ l -> originalPositions !! u = Some pos ->
        position g' u = (fun _ => pos) <$> position g u).
Proof.
  revert g. induction l as [|n l IH]; intros g Hsub; cbn [fold_left].
  - split; [apply positionsOnly_refl|]. intros u pos Hu. now apply elem_of_nil in Hu.
  - set (g1 := match originalPositions !! n with
               | Some pos => setPosition g n pos
               | None => g
               end).
    assert (Hg1 : positionsOnly all g g1).
    { subst g1. destruct (originalPositions !! n); [|apply positionsOnly_refl].
      apply positionsOnly_setPosition, Hsub. left. }
    destruct (IH g1) as [Hpo Hpos]; [intros m Hm; apply Hsub; now right|].
    split; [eapply positionsOnly_trans; [exact Hg1 | exact Hpo]|].
    intros u pos Hu Hlook. destruct (decide (u ∈ l)) as [Hin|Hin].
    + rewrite (Hpos u pos Hin Hlook). subst g1.
      destruct (originalPositions !! n); [|reflexivity].
      rewrite position_setPosition. destruct (decide (u = n)); [|reflexivity].
      now destruct (position g u).
    + apply elem_of_cons in Hu as [->|Hu]; [|contradiction].
      assert (Hkeep : forall m g0, n ∉ m ->
                position (fold_left
                            (fun g n =>
                               match originalPositions !! n with
                               | Some pos => setPosition g n pos
                               | None => g
                               end) m g0) n = position g0 n).
      { clear. induction m as [|x m IHm]; intros g0 Hn; cbn [fold_left]; [reflexivity|].
        apply not_elem_of_cons in Hn as [Hne Hn]. rewrite IHm by exact Hn.
        destruct (originalPositions !! x); [|reflexivity].
        rewrite position_setPosition. now rewrite decide_False. }
      rewrite Hkeep by exact Hin. subst g1. rewrite Hlook, position_setPosition.
      now rewrite decide_True.
Qed.

Lemma localLayoutRestored_spec w opts lopts node :
  let wr := localLayoutRestored layoutStop colaAvailable w opts lopts node in
  state wr = state w
  /\ positionsOnly (n_id <$> cy_nodes (cy w)) (cy w) (cy wr)
  /\ (forall u, u ∈ getVisibleNodes w -> u ∉ affectedNodes w node ->
        position (cy wr) u = position (cy w) u).
Proof.
  intros wr. subst wr. unfold localLayoutRestored.
  set (affected := affectedNodes w node).
  set (unaffected := collDifference (getVisibleNodes w) affected).
  set (options := colaOptions lopts _).
  pose proof (layout_moves_nodes options (cy w)) as Hlay.
  set (g1 := layoutStop options (cy w)) in *.
  assert (Hvis : forall n, n ∈ getVisibleNodes w -> n ∈ n_id <$> cy_nodes (cy w)).
  { intros n. unfold getVisibleNodes. intros (x & -> & Hx)%list_elem_of_fmap.
    apply list_elem_of_fmap_2.
    apply list_elem_of_In, filter_In in Hx as [Hx _]. now apply list_elem_of_In. }
  assert (Hun : forall n, n ∈ unaffected -> n ∈ getVisibleNodes w /\ n ∉ affected).
  { intros n Hn. subst unaffected. unfold collDifference in Hn.
    apply list_elem_of_In, filter_In in Hn as [Hn Hno].
    split; [now apply list_elem_of_In | now apply bool_decide_eq_true in Hno]. }
  destruct (restoreOriginal_spec (originalPositionsOf (cy w) unaffected) unaffected
              (n_id <$> cy_nodes (cy w)) g1) as [Hpo Hpos].
  { intros n Hn. apply Hvis. now apply Hun. }
  cbn [cy state withCy]. split; [reflexivity|]. split.
  - eapply positionsOnly_trans; [exact Hlay | exact Hpo].
  - intros u Hu Hno.
    assert (Hin : u ∈ unaffected).
    { subst unaffected. unfold collDifference. apply list_elem_of_In, filter_In.
      split; [now apply list_elem_of_In | now apply bool_decide_eq_true]. }
    assert (Hnode : isNode (cy w) u = true) by (apply isNode_true; now apply Hvis).
    apply isNode_position in Hnode as [p Hp].
    rewrite (Hpos u p Hin).
    + destruct Hlay as [Hh _ _ _ _ _].
      assert (Hn1 : isNode g1 u = true).
      { rewrite (hierarchy_isNode _ _ u Hh). apply isNode_position. eauto. }
      apply isNode_position in Hn1 as [p1 ->]. now rewrite Hp.
    + rewrite originalPositionsOf_lookup, decide_True by exact Hin. exact Hp.
Qed.

Lemma layoutRun_frame w opts g1 :
  positionsOnly (n_id <$> cy_nodes (cy w)) (cy w) g1 ->
  let w' := fst (resolveOverlaps boundingBox (withCy w g1) opts) in
  state w' = state w
  /\ hierarchy (cy w') = hierarchy (cy w)
  /\ cy_edges (cy w') = cy_edges (cy w)
  /\ (forall id, isHiddenEle w' id = isHiddenEle w id).
Proof.
  intros Hpo w'. subst w'.
  destruct (resolveOverlaps_frame boundingBox (withCy w g1) opts)
    as (Hs & Hh & He & _ & _ & Hvis & _).
  pose proof Hpo as [Hh1 _ He1 _ _ _].
  split; [exact Hs|]. split; [now rewrite Hh|]. split; [now rewrite He|].
  intros id. rewrite Hvis.
  now apply (isHiddenEle_positionsOnly (n_id <$> cy_nodes (cy w)) w (withCy w g1)).
Qed.

(** X19.  Locality of [runLocalLayout], for any layout that only moves
    nodes.  A run keeps the engine state, the hierarchy, the edges and the
    visibility of every element.  When the layout stops, every visible
    node outside the affected set (the node, its visible neighbours and
    its visible children) is put back where it was before overlap
    resolution starts; overlap resolution may then move visible nodes
    without children, so an unaffected visible compound node ends exactly
    where it was. *)
Theorem runLocalLayout_restores_unaffected_nodes w opts lopts node :
  let w' := runLocalLayout boundingBox layoutStop colaAvailable w opts lopts node in
  let wr := localLayoutRestored layoutStop colaAvailable w opts lopts node in
  state w' = state w
  /\ hierarchy (cy w') = hierarchy (cy w)
  /\ cy_edges (cy w') = cy_edges (cy w)
  /\ (forall id, isHiddenEle w' id = isHiddenEle w id)
  /\ (2 <= length (affectedNodes w node) ->
      w' = fst (resolveOverlaps boundingBox wr opts)
      /\ (forall u, u ∈ getVisibleNodes w -> u ∉ affectedNodes w node ->
            position (cy wr) u = position (cy w) u))
  /\ (forall u, u ∈ getVisibleNodes w -> u ∉ affectedNodes w node ->
        isParent (cy w) u = true -> position (cy w') u = position (cy w) u).
Proof.
  intros w' wr. subst w'. unfold runLocalLayout.
  destruct (localLayoutRestored_spec w opts lopts node) as (Hs & Hpo & Hback).
  fold wr in Hs, Hpo, Hback.
  destruct (length (affectedNodes w node) <? 2)%nat eqn:Hlen.
  - apply Nat.ltb_lt in Hlen.
    destruct (resolveOverlaps_frame boundingBox w opts)
      as (Hs' & Hh' & He' & _ & _ & Hvis' & Hpos').
    split; [exact Hs'|]. split; [exact Hh'|]. split; [exact He'|]. split; [exact Hvis'|].
    split; [lia|]. intros u _ _ Hpar. apply Hpos'. auto.
  - apply Nat.ltb_ge in Hlen.
    assert (Hwr : wr = withCy w (cy wr)) by (unfold withCy; rewrite <- Hs; now destruct wr).
    destruct (layoutRun_frame w opts (cy wr) Hpo) as (Hs' & Hh' & He' & Hvis').
    rewrite <- Hwr in Hs', Hh', He', Hvis'.
    split; [exact Hs'|]. split; [exact Hh'|]. split; [exact He'|]. split; [exact Hvis'|].
    split; [intros _; split; [reflexivity | exact Hback]|].
    intros u Hu Hno Hpar.
    destruct (resolveOverlaps_frame boundingBox wr opts) as (_ & _ & _ & _ & _ & _ & Hpos).
    rewrite Hpos; [now apply Hback|].
    right. left. destruct Hpo as [Hh _ _ _ _ _].
    now rewrite (hierarchy_isParent _ _ u Hh).
Qed.

(** X20.  [runLayout] with a layout that only moves nodes keeps the engine
    state, the hierarchy, the edges and the visibility of every element:
    a layout run never collapses, expands, hides or shows anything. *)
Theorem runLayout_changes_positions_only w opts lopts :
  let w' := runLayout boundingBox layoutStop colaAvailable w opts lopts in
  state w' = state w
  /\ hierarchy (cy w') = hierarchy (cy w)
  /\ cy_edges (cy w') = cy_edges (cy w)
  /\ (forall id, isHiddenEle w' id = isHiddenEle w id).
Proof.
  intros w'. subst w'. unfold runLayout. apply layoutRun_frame, layout_moves_nodes.
Qed.

End LayoutFrame.

Section LayoutTimer.
Context {R : Type} `{Number R}.
Variable boundingBox : Cy R -> string -> boundingBoxOf R.
Variable layoutStop : layoutOptions R -> Cy R -> Cy R.
Variable colaAvailable : bool.

Hypothesis layout_moves_nodes :
  forall options g, positionsOnly (n_id <$> cy_nodes g) g (layoutStop options g).

Implicit Types (w : World R) (opts : Opts R) (lopts : LayoutOpts R) (a : @Api R).

Lemma runLocalLayout_frame w opts lopts node :
  let w' := runLocalLayout boundingBox layoutStop colaAvailable w opts lopts node in
  state w' = state w
  /\ hierarchy (cy w') = hierarchy (cy w)
  /\ cy_edges (cy w') = cy_edges (cy w)
  /\ (forall id, isHiddenEle w' id = isHiddenEle w id).
Proof.
  intros w'. subst w'. unfold runLocalLayout.
  destruct (length (affectedNodes w node) <? 2)%nat.
  - destruct (resolveOverlaps_frame boundingBox w opts)
      as (Hs & Hh & He & _ & _ & Hvis & _).
    split; [exact Hs|]. split; [exact Hh|]. split; [exact He | exact Hvis].
  - destruct (localLayoutRestored_spec layoutStop colaAvailable layout_moves_nodes
                w opts lopts node) as (Hs & Hpo & _).
    set (wr := localLayoutRestored layoutStop colaAvailable w opts lopts node) in *.
    assert (Hwr : wr = withCy w (cy wr))
      by (unfold withCy; rewrite <- Hs; now destruct wr).
    destruct (layoutRun_frame boundingBox w opts (cy wr) Hpo) as (Hs' & Hh' & He' & Hvis').
    rewrite <- Hwr in Hs', Hh', He', Hvis'.
    split; [exact Hs'|]. split; [exact Hh'|]. split; [exact He' | exact Hvis'].
Qed.

(** X29.  The automatic layout, for any layout that only moves nodes.
    When the debounce timer fires, the pending local layout runs and the
    request is cleared; what is collapsed, the records, the hierarchy, the
    edges and the visibility of every element are as they were before the
    timer fired, and the auto-layout switch keeps its value. *)
Theorem debounced_layout_keeps_engine_state opts lopts a :
  let a' := timerFires boundingBox layoutStop colaAvailable opts lopts a in
  pendingLayout a' = None
  /\ autoLayout a' = autoLayout a
  /\ state (api_world a') = state (api_world a)
  /\ hierarchy (cy (api_world a')) = hierarchy (cy (api_world a))
  /\ cy_edges (cy (api_world a')) = cy_edges (cy (api_world a))
  /\ (forall id, isHiddenEle (api_world a') id = isHiddenEle (api_world a) id).
Proof.
  intros a'. subst a'. unfold timerFires.
  destruct (pendingLayout a) as [node|] eqn:Hp.
  - cbn [pendingLayout autoLayout api_world debouncedLayoutRun].
    split; [reflexivity|]. split; [reflexivity|].
    apply runLocalLayout_frame.
  - rewrite Hp. now repeat split.
Qed.

End LayoutTimer.

(** ** Invariants of the store *)

Section StoreInvariants.
Context {R : Type} `{Number R}.

Implicit Types (w : World R) (g : Cy R) (id x nodeId parentId : string) (e : edge).

Lemma uniqueIds_same_ids g g' :
  hierarchy g' = hierarchy g -> edgeEnds g' = edgeEnds g -> uniqueIds g -> uniqueIds g'.
Proof.
  intros Hh He. unfold uniqueIds.
  now rewrite <- !hierarchy_ids, <- !edgeEnds_ids, Hh, He.
Qed.

Lemma uniqueIds_onlyVisibility w w' :
  onlyVisibility w w' -> uniqueIds (cy w) -> uniqueIds (cy w').
Proof. intros [Hh _ He _ _ _ _ _ _]. now apply uniqueIds_same_ids. Qed.

Lemma uniqueIds_addProjectionEdge g id s t :
  uniqueIds g -> uniqueIds (addProjectionEdge g id s t).
Proof.
  intros Hu. unfold addProjectionEdge.
  destruct (hasElementWithId g id) eqn:Hid; [exact Hu|]. simpl.
  destruct (negb (isNode g s) || negb (isNode g t)); [exact Hu|].
  unfold uniqueIds in *. simpl. rewrite fmap_app, app_assoc. simpl.
  apply NoDup_app. split; [exact Hu|]. split; [|apply NoDup_singleton].
  intros x Hx ->%list_elem_of_singleton.
  unfold hasElementWithId in Hid. apply orb_false_iff in Hid as [Hn He].
  apply elem_of_app in Hx as [Hx|Hx].
  - apply isNode_true in Hx. congruence.
  - apply isEdge_true in Hx. congruence.
Qed.

Lemma uniqueIds_projectGroups parentId (groups : list (string * list edge))
    (acc : Cy R * list string * nat) :
  uniqueIds acc.1.1 -> uniqueIds (fold_left (projectGroup parentId) groups acc).1.1.
Proof.
  revert acc. induction groups as [|entry groups IH]; intros [[g ids] k] Hu;
    cbn [fold_left]; [exact Hu|].
  apply IH. unfold projectGroup. simpl. now apply uniqueIds_addProjectionEdge.
Qed.

Lemma uniqueIds_createProjections w parentId (D : list string) :
  uniqueIds (cy w) -> uniqueIds (cy (createProjections w parentId D)).
Proof.
  intros Hu. unfold createProjections.
  set (sc := scanEdges (cy w) (descendantIdSet parentId D) D).
  rewrite (fold_left_fmap_arg hideElement e_id).
  set (w1 := fold_left hideElement (e_id <$> internalEdges sc) w).
  assert (Hu1 : uniqueIds (cy w1)).
  { apply (uniqueIds_onlyVisibility w); [apply hideAll_onlyVisibility | exact Hu]. }
  pose proof (uniqueIds_projectGroups parentId
                (groupEdges (descendantIdSet parentId D) (externalEdges sc))
                (cy w1, [], O) Hu1) as Hu2.
  destruct (fold_left (projectGroup parentId) _ (cy w1, [], O)) as [[g2 ids] k].
  exact Hu2.
Qed.

Lemma uniqueIds_collapse w nodeId :
  uniqueIds (cy w) -> uniqueIds (cy (fst (collapse w nodeId))).
Proof.
  intros Hu. destruct (collapse w nodeId) as [w' [|]] eqn:Hc; cbn [fst].
  2:{ now rewrite (collapse_false_same _ _ _ Hc). }
  destruct (collapse_true_inv _ _ _ Hc) as [Hp Hn].
  rewrite (collapse_success _ _ Hp Hn) in Hc. injection Hc as <-.
  cbn [cy withCy withCollapsedIds].
  apply (uniqueIds_same_ids
           (cy (createProjections (beforeProjections w nodeId) nodeId
                                  (descendants (cy w) nodeId)))); [reflexivity..|].
  apply uniqueIds_createProjections.
  destruct (beforeProjections_spec w nodeId) as [Hh _ He _ _ _ _ _ _ _ _].
  now apply (uniqueIds_same_ids (cy w)).
Qed.

Lemma NoDup_filter_fmap {A} (key : A -> string) (p : A -> bool) (l : list A) :
  NoDup (key <$> l) -> NoDup (key <$> List.filter p l).
Proof. apply NoDup_fmap_filter. Qed.

Lemma elem_of_filter_fmap {A} (key : A -> string) (p : A -> bool) (l : list A) x :
  x ∈ key <$> List.filter p l -> x ∈ key <$> l.
Proof.
  intros (y & -> & Hy)%list_elem_of_fmap. apply list_elem_of_fmap_2.
  apply list_elem_of_In, filter_In in Hy as [Hy _]. now apply list_elem_of_In.
Qed.

Lemma uniqueIds_remove g id : uniqueIds g -> uniqueIds (remove g id).
Proof.
  unfold uniqueIds, remove. intros (Hn & Hdisj & He)%NoDup_app.
  destruct (isNode g id); simpl; apply NoDup_app.
  - split; [now apply NoDup_filter_fmap|]. split; [|now apply NoDup_filter_fmap].
    intros x Hx%elem_of_filter_fmap Hx'%elem_of_filter_fmap. now apply (Hdisj x).
  - split; [exact Hn|]. split; [|now apply NoDup_filter_fmap].
    intros x Hx Hx'%elem_of_filter_fmap. now apply (Hdisj x).
Qed.

Lemma uniqueIds_removeProjections w nodeId :
  uniqueIds (cy w) -> uniqueIds (cy (removeProjections w nodeId)).
Proof.
  intros Hu. unfold removeProjections.
  destruct (projectionEdgesMap (state w) !! nodeId) as [data|]; [|exact Hu].
  cbn [cy withCy withProjectionEdgesMap].
  apply (fold_left_inv (fun g => uniqueIds g)); [|exact Hu].
  intros a b _ Ha. destruct (hasElementWithId a b); [|exact Ha].
  now apply uniqueIds_remove.
Qed.

Lemma uniqueIds_expand w opts nodeId :
  uniqueIds (cy w) -> uniqueIds (cy (fst (expand w opts nodeId))).
Proof.
  intros Hu. unfold expand.
  destruct (decide (nodeId ∈ collapsedIds (state w))); [|exact Hu]. cbn [fst].
  fold (afterShow w nodeId).
  pose proof (uniqueIds_onlyVisibility _ _ (afterShow_onlyVisibility w nodeId) Hu) as Ha.
  apply (uniqueIds_removeProjections _ nodeId) in Ha.
  set (wb := removeProjections (afterShow w nodeId) nodeId) in *.
  destruct (restoreLocalPositions_spec wb opts nodeId) as [Hh _ He _ _ _ _ _ _].
  cbn [cy withCy withCollapsedIds withHiddenElementsMap].
  apply (uniqueIds_same_ids (cy wb)); [exact Hh | | exact Ha].
  unfold edgeEnds. cbn [emit cy_edges]. now rewrite He.
Qed.

End StoreInvariants.

(** ** What the loop of [expand] shows *)

Section ShowLoop.
Context {R : Type} `{Number R}.

Implicit Types (w : World R) (g : Cy R) (id x y nodeId parentId : string) (e : edge).

Lemma showAll_shows_element nodeId (l : list string) w0 w x :
  onlyVisibility w0 w ->
  x ∈ l -> hasElementWithId (cy w0) x = true -> showable w0 nodeId x = true ->
  isHiddenEle (fold_left (showDescendant nodeId) l w) x = false.
Proof.
  intros Hov Hx Hex Hsh. revert w Hov Hx.
  induction l as [|d l IH]; intros w Hov Hx; [now apply elem_of_nil in Hx|].
  cbn [fold_left].
  pose proof (onlyVisibility_trans _ _ _ Hov (showDescendant_onlyVisibility nodeId w d))
    as Hov'.
  destruct (decide (x ∈ l)) as [Hin|Hin]; [now apply IH|].
  apply elem_of_cons in Hx as [->|Hx]; [|contradiction].
  apply showAll_never_hides, showDescendant_shows_element.
  - now rewrite (hasElementWithId_onlyVisibility _ _ _ Hov).
  - now rewrite (showable_onlyVisibility _ _ _ _ Hov).
Qed.

Lemma showEdges_newly_shown (es : list edge) w y :
  isHiddenEle w y = true ->
  isHiddenEle (fold_left showEdgeIfVisible es w) y = false ->
  exists e, e ∈ es /\ e_id e = y.
Proof.
  revert w. induction es as [|e es IH]; intros w Hh Hv; cbn [fold_left] in Hv;
    [congruence|].
  destruct (decide (e_id e = y)) as [Heq|Hne]; [exists e; split; [left | exact Heq]|].
  destruct (IH (showEdgeIfVisible w e)) as (e' & He' & Hid); [| exact Hv |].
  - unfold showEdgeIfVisible. destruct (_ && _); [|exact Hh].
    rewrite isHiddenEle_showElement. rewrite decide_False by congruence. exact Hh.
  - exists e'. split; [now right | exact Hid].
Qed.

(** An id that the loop makes visible is a recorded descendant that passed
    the guard, or the id of an edge. *)
Lemma showAll_newly_shown nodeId (l : list string) w0 w y :
  onlyVisibility w0 w ->
  isHiddenEle w y = true ->
  isHiddenEle (fold_left (showDescendant nodeId) l w) y = false ->
  (y ∈ l /\ hasElementWithId (cy w0) y = true /\ showable w0 nodeId y = true)
  \/ isEdge (cy w0) y = true.
Proof.
  revert w. induction l as [|d l IH]; intros w Hov Hh Hv; cbn [fold_left] in Hv;
    [congruence|].
  pose proof (onlyVisibility_trans _ _ _ Hov (showDescendant_onlyVisibility nodeId w d))
    as Hov'.
  destruct (isHiddenEle (showDescendant nodeId w d) y) eqn:Hstep.
  { destruct (IH _ Hov' Hstep Hv) as [(Hin & Hex & Hsh)|Hedge]; [left|now right].
    split; [now right | now split]. }
  clear IH Hv. unfold showDescendant in Hstep.
  destruct (hasElementWithId (cy w) d) eqn:Hex; [|congruence].
  destruct (showable w nodeId d) eqn:Hsh; [|congruence].
  destruct (decide (y = d)) as [->|Hne].
  { left. split; [left|]. split.
    - now rewrite <- (hasElementWithId_onlyVisibility _ _ _ Hov).
    - now rewrite <- (showable_onlyVisibility _ _ _ _ Hov). }
  right.
  destruct (showEdges_newly_shown (nodeEdges (cy (showElement w d)) d)
              (showElement w d) y) as (e & He & Hid); [| exact Hstep |].
  - rewrite isHiddenEle_showElement. now rewrite decide_False.
  - apply elem_of_nodeEdges in He as [He _].
    pose proof (onlyVisibility_trans _ _ _ Hov (showElement_onlyVisibility w d))
      as [_ _ Hed _ _ _ _ _ _].
    rewrite <- (isEdge_ends _ _ y Hed). apply isEdge_true. rewrite <- Hid.
    now apply list_elem_of_fmap_2.
Qed.

(** The edges of the store after a successful [expand]. *)
Lemma expand_edges w opts nodeId w' :
  (forall id, id ∈ recordedProjIds w nodeId -> isNode (cy w) id = false) ->
  expand w opts nodeId = (w', true) ->
  cy_edges (cy w')
  = List.filter (fun e => bool_decide (e_id e ∉ recordedProjIds w nodeId))
                (cy_edges (cy (afterShow w nodeId))).
Proof.
  intros Hids He. pose proof (expand_true_inv _ _ _ _ He) as Hin.
  rewrite (expand_success _ _ _ Hin) in He. injection He as <-.
  fold (afterShow w nodeId).
  destruct (afterShow_onlyVisibility w nodeId) as [Hh0 _ _ _ _ _ _ _ Hpr0].
  set (wa := afterShow w nodeId) in *.
  destruct (restoreLocalPositions_spec (removeProjections wa nodeId) opts nodeId)
    as [_ _ Hed2 _ _ _ _ _ _].
  cbn [cy state withCy withCollapsedIds withHiddenElementsMap emit cy_edges].
  rewrite Hed2. unfold removeProjections, recordedProjIds in *. rewrite Hpr0.
  destruct (projectionEdgesMap (state w) !! nodeId) as [data|].
  - cbn [cy withCy withProjectionEdgesMap].
    destruct (removeAll_edges (projIds data) (cy wa)) as [_ Hrm]; [|exact Hrm].
    intros id Hid. rewrite (hierarchy_isNode _ _ _ Hh0). now apply Hids.
  - symmetry. apply filter_all. intros e _. apply bool_decide_eq_true, not_elem_of_nil.
Qed.

End ShowLoop.

(** ** The store and visibility at reachable states *)

Section Reached.
Context {R : Type} `{Number R}.

Implicit Types (w : World R) (g : Cy R) (id x y nodeId parentId : string) (e : edge).

Lemma node_not_edge g x : uniqueIds g -> isNode g x = true -> isEdge g x = true -> False.
Proof.
  unfold uniqueIds. intros (_ & Hdisj & _)%NoDup_app Hn He.
  apply isNode_true in Hn. apply isEdge_true in He. now apply (Hdisj x).
Qed.

Lemma original_edge_present g0 w e :
  List.filter (fun t : string * string * string * bool => negb (reserved t.1.1.1))
              (edgeEnds (cy w)) = edgeEnds g0 ->
  e ∈ cy_edges g0 ->
  exists e1, e1 ∈ cy_edges (cy w) /\ ends e1 = ends e.
Proof.
  intros Horig He.
  assert (Hin : ends e ∈ edgeEnds g0) by (unfold edgeEnds; now apply list_elem_of_fmap_2).
  rewrite <- Horig in Hin. apply list_elem_of_In, filter_In in Hin as [Hin _].
  apply list_elem_of_In, list_elem_of_fmap in Hin as (e1 & Heq & Hin).
  exists e1. now split.
Qed.

Lemma storeInv_init g0 : wellFormed g0 -> storeInv g0 (MkWorld g0 initState).
Proof.
  intros [Hu Hrn Hre Hends Hplain Hvis]. constructor; cbn [cy state].
  - exact Hu.
  - apply filter_all. intros t (e & -> & He)%list_elem_of_fmap.
    unfold noReservedEdges in Hre. rewrite Forall_forall in Hre.
    change ((ends e).1.1.1) with (e_id e). now rewrite (Hre e He).
  - intros e He Hr. unfold noReservedEdges in Hre. rewrite Forall_forall in Hre.
    rewrite (Hre e He) in Hr. discriminate.
  - intros e He _ _. unfold isHiddenEle. cbn [cy state initState hiddenIds].
    rewrite bool_decide_eq_false_2 by set_solver. cbn [orb].
    rewrite dataHidden_alt.
    assert (Hno : nodeHidden g0 (e_id e) = None).
    { destruct (nodeHidden g0 (e_id e)) eqn:Hn; [|reflexivity]. exfalso.
      apply (node_not_edge g0 (e_id e) Hu).
      - apply isNode_nodeHidden. eauto.
      - apply isEdge_true. now apply list_elem_of_fmap_2. }
    rewrite Hno, (getEdge_unique _ _ (uniqueIds_edges _ Hu) He).
    now destruct (Hplain e He).
  - intros x Hx Hh. exfalso. unfold isHiddenEle in Hh. cbn [cy state initState hiddenIds] in Hh.
    rewrite bool_decide_eq_false_2 in Hh by set_solver. cbn [orb] in Hh.
    unfold dataHidden in Hh. unfold isNode in Hx. apply bool_decide_eq_true in Hx as [n Hn].
    rewrite Hn in Hh. apply getNode_Some in Hn as [Hn _]. rewrite (Hvis n Hn) in Hh.
    discriminate.
Qed.

Lemma recordedProjIds_reserved g0 w nodeId id :
  engineInv g0 w -> id ∈ recordedProjIds w nodeId -> reserved id = true.
Proof.
  intros [_ _ _ Hpr]. unfold recordedProjIds.
  destruct (projectionEdgesMap (state w) !! nodeId) as [data|] eqn:Hd.
  - now apply (Hpr nodeId data).
  - intros Hin. now apply elem_of_nil in Hin.
Qed.

Lemma storeInv_collapse g0 w nodeId w' :
  wellFormed g0 -> engineInv g0 w -> storeInv g0 w ->
  collapse w nodeId = (w', true) -> storeInv g0 w'.
Proof.
  intros Hwf Hinv [Hu Horig Hproj Hev Hhr] Hc.
  destruct Hinv as [Hh0 _ _ _].
  pose proof (uniqueIds_collapse w nodeId Hu) as Hu'. rewrite Hc in Hu'. cbn [fst] in Hu'.
  destruct (collapse_true_inv _ _ _ Hc) as [_ Hnot].
  destruct (collapse_spec _ _ _ Hc) as [Hh _ _ _ Hcol _ _ Hpr _ _ _].
  destruct (collapse_edges _ _ _ Hc) as (Hrec & old & new & He & Hold & Hnew).
  rewrite Forall_forall in Hnew.
  pose proof (fun x => isHiddenEle_collapse _ _ _ x Hc) as Hvis.
  assert (Hother : forall m, m <> nodeId -> recordedProjIds w' m = recordedProjIds w m).
  { intros m Hm. unfold recordedProjIds. rewrite Hpr. now rewrite lookup_insert_ne. }
  constructor.
  - exact Hu'.
  - unfold edgeEnds at 1. rewrite He, fmap_app, List.filter_app, Hold, Horig.
    rewrite filter_none; [apply app_nil_r|].
    intros t (e & -> & Hin)%list_elem_of_fmap. change ((ends e).1.1.1) with (e_id e).
    destruct (Hnew e Hin) as (Hid & _). rewrite Hrec in Hid.
    apply list_elem_of_fmap in Hid as (k & -> & _). now rewrite proj_id_reserved.
  - intros e Hin Hr. rewrite He in Hin. apply elem_of_app in Hin as [Hin|Hin].
    + assert (Hin' : ends e ∈ edgeEnds (cy w))
        by (rewrite <- Hold; now apply list_elem_of_fmap_2).
      apply list_elem_of_fmap in Hin' as (e0 & Hends & Hin0).
      destruct (Hproj e0 Hin0) as (Hp & m & Hm & Hid).
      { now rewrite <- (e_id_ends _ _ Hends). }
      split; [now rewrite (isProjection_ends _ _ Hends)|].
      exists m. split; [rewrite Hcol; set_solver|].
      rewrite Hother by (intros ->; contradiction).
      now rewrite (e_id_ends _ _ Hends).
    + destruct (Hnew e Hin) as (Hid & Hp & _). split; [exact Hp|].
      exists nodeId. split; [rewrite Hcol; set_solver | exact Hid].
  - intros e Hin Hs Ht. rewrite Hvis in Hs, Ht |- *.
    apply orb_false_iff in Hs as [[Hs HsD]%orb_false_iff _].
    apply orb_false_iff in Ht as [[Ht HtD]%orb_false_iff _].
    rewrite (Hev e Hin Hs Ht). cbn [orb].
    destruct (original_edge_present g0 w e Horig Hin) as (e1 & He1 & Hends1).
    apply orb_false_iff. split.
    + apply bool_decide_eq_false. intros HD.
      apply (descendants_isNode _ _ _ (uniqueIds_nodes _ Hu)) in HD.
      apply (node_not_edge (cy w) (e_id e) Hu HD). apply isEdge_true.
      rewrite <- (e_id_ends _ _ Hends1). now apply list_elem_of_fmap_2.
    + apply bool_decide_eq_false.
      intros (e2 & d & He2 & Hid & Hd & Htd)%elem_of_subtreeEdgeIds.
      rewrite <- (e_id_ends _ _ Hends1) in Hid.
      apply (unique_edge _ _ _ (uniqueIds_edges _ Hu) He2 He1) in Hid as ->.
      rewrite (touches_ends _ _ d Hends1) in Htd.
      apply bool_decide_eq_false in HsD, HtD.
      apply touches_iff in Htd as [->| ->]; contradiction.
  - intros x Hx Hhid. rewrite Hvis in Hhid.
    apply orb_true_iff in Hhid as [[Hhid|Hhid]%orb_true_iff|Hhid].
    + destruct (Hhr x Hx Hhid) as (a & Ha & Hd). exists a.
      split; [rewrite Hcol; set_solver | exact Hd].
    + apply bool_decide_eq_true in Hhid. exists nodeId.
      split; [rewrite Hcol; set_solver|].
      now rewrite <- (hierarchy_descendants _ _ nodeId Hh0).
    + exfalso. apply bool_decide_eq_true in Hhid.
      apply elem_of_subtreeEdgeIds in Hhid as (e2 & d & He2 & Hid & _).
      apply (node_not_edge (cy w) x Hu).
      * now rewrite (hierarchy_isNode _ _ x Hh0).
      * apply isEdge_true. rewrite <- Hid. now apply list_elem_of_fmap_2.
Qed.

Lemma filter_comm_list {A} (f k : A -> bool) (l : list A) :
  List.filter f (List.filter k l) = List.filter k (List.filter f l).
Proof.
  rewrite !filter_filter_and. apply filter_ext_in. intros x _. apply andb_comm.
Qed.

Lemma storeInv_expand g0 opts w nodeId w' :
  wellFormed g0 -> reachable g0 opts w -> storeInv g0 w ->
  expand w opts nodeId = (w', true) -> storeInv g0 w'.
Proof.
  intros Hwf Hreach [Hu Horig Hproj Hev Hhr] He.
  pose proof Hwf as [Hu0 Hrn Hre Hends Hplain _].
  pose proof (reachable_engineInv g0 opts w Hrn Hreach) as Hinv.
  destruct (reachable_records g0 opts w Hrn Hreach) as (Hdom & _).
  pose proof Hinv as [Hh0 Hrec _ _].
  pose proof (uniqueIds_expand w opts nodeId Hu) as Hu'. rewrite He in Hu'. cbn [fst] in Hu'.
  pose proof (expand_true_inv _ _ _ _ He) as Hin.
  destruct (expand_state _ _ _ _ He) as (Hcol & _ & _ & Hpr & _).
  assert (Hids : forall id, id ∈ recordedProjIds w nodeId -> isNode (cy w) id = false).
  { intros id Hid. apply reserved_not_node.
    - now apply (hierarchy_noReservedNodes g0).
    - now apply (recordedProjIds_reserved g0 w nodeId). }
  pose proof (expand_edges _ _ _ _ Hids He) as Hedges.
  pose proof (fun x => isHiddenEle_expand _ _ _ _ x Hids He) as Hvis.
  pose proof (afterShow_onlyVisibility w nodeId) as Hov.
  pose proof Hov as [_ _ Hed _ _ _ _ _ _].
  assert (Hl : hiddenElementsMap (state w) !! nodeId = Some (descendants g0 nodeId)).
  { rewrite <- Hdom in Hin. apply elem_of_dom in Hin as [l Hl].
    now rewrite Hl, (Hrec nodeId l Hl). }
  assert (Hother : forall m, m <> nodeId -> recordedProjIds w' m = recordedProjIds w m).
  { intros m Hm. unfold recordedProjIds. rewrite Hpr. now rewrite lookup_delete_ne. }
  assert (Hnode : forall x, isNode g0 x = true -> isHiddenEle w' x = isHiddenEle (afterShow w nodeId) x).
  { intros x Hx. rewrite Hvis. rewrite decide_False; [reflexivity|].
    intros Hid. apply Hids in Hid. rewrite (hierarchy_isNode _ _ x Hh0) in Hid. congruence. }
  assert (Hends' : edgeEnds (cy w')
                   = List.filter (fun t : string * string * string * bool =>
                                    bool_decide (t.1.1.1 ∉ recordedProjIds w nodeId))
                                 (edgeEnds (cy w))).
  { unfold edgeEnds at 1. rewrite Hedges.
    pose proof (ends_filter_ids
                  (fun id => bool_decide (id ∉ recordedProjIds w nodeId))
                  (cy_edges (cy (afterShow w nodeId)))) as Hflt.
    cbv beta in Hflt. rewrite Hflt. fold (edgeEnds (cy (afterShow w nodeId))).
    now rewrite Hed. }
  constructor.
  - exact Hu'.
  - rewrite Hends', filter_comm_list, Horig. apply filter_all.
    intros t (e & -> & Hine)%list_elem_of_fmap. change ((ends e).1.1.1) with (e_id e).
    apply bool_decide_eq_true. intros Hid.
    apply (recordedProjIds_reserved g0 w nodeId _ Hinv) in Hid.
    unfold noReservedEdges in Hre. rewrite Forall_forall in Hre.
    rewrite (Hre e Hine) in Hid. discriminate.
  - intros e Hine Hr.
    assert (Hin' : ends e ∈ edgeEnds (cy w')) by (unfold edgeEnds; now apply list_elem_of_fmap_2).
    rewrite Hends' in Hin'. apply list_elem_of_In, filter_In in Hin' as [Hin' Hno].
    apply bool_decide_eq_true in Hno. change ((ends e).1.1.1) with (e_id e) in Hno.
    apply list_elem_of_In, list_elem_of_fmap in Hin' as (e0 & Hends0 & Hin0).
    destruct (Hproj e0 Hin0) as (Hp & m & Hm & Hid).
    { now rewrite <- (e_id_ends _ _ Hends0). }
    rewrite <- (e_id_ends _ _ Hends0) in Hid.
    split; [now rewrite (isProjection_ends _ _ Hends0)|].
    assert (Hmn : m <> nodeId) by (intros ->; contradiction).
    exists m. split; [rewrite Hcol; set_solver | now rewrite Hother].
  - intros e Hine Hs Ht.
    destruct (Hends e Hine) as [Hsn Htn].
    rewrite (Hnode _ Hsn) in Hs. rewrite (Hnode _ Htn) in Ht.
    apply (expand_tail_never_hides w opts nodeId w' _ Hids He).
    destruct (original_edge_present g0 w e Horig Hine) as (e1 & He1 & Hends1).
    rewrite <- (e_id_ends _ _ Hends1).
    unfold afterShow in *. rewrite Hl in *. cbn [default from_option id] in *.
    set (l := descendants g0 nodeId) in *.
    assert (Hcase : forall y, touches e y = true -> isNode g0 y = true ->
              isHiddenEle (fold_left (showDescendant nodeId) l w) y = false ->
              (y ∈ l /\ hasElementWithId (cy w) y = true /\ showable w nodeId y = true)
              \/ isHiddenEle w y = false).
    { intros y _ Hy Hvy. destruct (isHiddenEle w y) eqn:Hwy; [|now right]. left.
      destruct (showAll_newly_shown nodeId l w w y (onlyVisibility_refl w) Hwy Hvy)
        as [Hok|Hedge]; [exact Hok|].
      exfalso. apply (node_not_edge (cy w) y Hu); [|exact Hedge].
      now rewrite (hierarchy_isNode _ _ y Hh0). }
    assert (Hs' := Hcase (e_source e) (proj2 (touches_iff e _) (or_introl eq_refl)) Hsn Hs).
    assert (Ht' := Hcase (e_target e) (proj2 (touches_iff e _) (or_intror eq_refl)) Htn Ht).
    apply (showAll_shows_edge nodeId l w w e1 (onlyVisibility_refl w) He1).
    + rewrite (isProjection_ends _ _ Hends1). now destruct (Hplain e Hine).
    + intros y Hy. rewrite (touches_ends _ _ y Hends1) in Hy.
      apply touches_iff in Hy as [->| ->]; assumption.
    + destruct Hs' as [Hok|Hsv]; [left; exists (e_source e)|].
      { split; [|exact Hok]. rewrite (touches_ends _ _ _ Hends1).
        apply touches_iff. now left. }
      destruct Ht' as [Hok|Htv]; [left; exists (e_target e)|].
      { split; [|exact Hok]. rewrite (touches_ends _ _ _ Hends1).
        apply touches_iff. now right. }
      right. rewrite (e_id_ends _ _ Hends1). now apply Hev.
  - intros x Hx Hh. rewrite (Hnode x Hx) in Hh.
    assert (Hw : isHiddenEle w x = true).
    { destruct (isHiddenEle w x) eqn:Hwx; [reflexivity|].
      unfold afterShow in Hh. rewrite showAll_never_hides in Hh by exact Hwx. discriminate. }
    destruct (Hhr x Hx Hw) as (a & Ha & Hd).
    destruct (decide (a = nodeId)) as [->|Hne].
    2:{ exists a. split; [rewrite Hcol; set_solver | exact Hd]. }
    unfold afterShow in Hh. rewrite Hl in Hh. cbn [default from_option id] in Hh.
    assert (Hex : hasElementWithId (cy w) x = true).
    { unfold hasElementWithId. now rewrite (hierarchy_isNode _ _ x Hh0), Hx. }
    destruct (showable w nodeId x) eqn:Hsh.
    { rewrite (showAll_shows_element nodeId _ w w x (onlyVisibility_refl w) Hd Hex Hsh) in Hh.
      discriminate. }
    unfold showable in Hsh. rewrite (hierarchy_parent _ _ x Hh0) in Hsh.
    destruct (parent g0 x) as [p|] eqn:Hp; [|discriminate].
    apply orb_false_iff in Hsh as [Hpn Hpc].
    apply String.eqb_neq in Hpn. apply negb_false_iff, bool_decide_eq_true in Hpc.
    exists p. split; [rewrite Hcol; set_solver|].
    apply children_descendants; [now apply uniqueIds_nodes|].
    now apply children_parent; [apply uniqueIds_nodes|].
Qed.

Lemma reachable_storeInv g0 opts w :
  wellFormed g0 -> reachable g0 opts w -> storeInv g0 w.
Proof.
  intros Hwf. induction 1 as [|w nodeId Hreach IH|w nodeId Hreach IH].
  - now apply storeInv_init.
  - destruct (collapse w nodeId) as [w' [|]] eqn:Hc; cbn [fst].
    + apply (storeInv_collapse g0 w nodeId w' Hwf); [|exact IH | exact Hc].
      apply (reachable_engineInv g0 opts); [now destruct Hwf | exact Hreach].
    + now rewrite (collapse_false_same _ _ _ Hc).
  - destruct (expand w opts nodeId) as [w' [|]] eqn:He; cbn [fst].
    + now apply (storeInv_expand g0 opts w nodeId w' Hwf).
    + now rewrite (expand_false_same _ _ _ _ He).
Qed.

End Reached.

(** ** Reachable states: the store, visibility, and the way back *)

Section ReachedTheorems.
Context {R : Type} `{Number R}.

Implicit Types (w : World R) (g : Cy R) (id x y nodeId parentId : string) (e : edge).

(** X21.  At every state the engine reaches from a well-formed graph, ids
    are still unique and the hierarchy is the initial one; the edges
    without the generated prefix are the original edges, in their order
    and with their endpoints; every other edge is a projection edge that
    the record of a currently collapsed node lists. *)
Theorem engine_keeps_the_original_edges g0 opts w :
  wellFormed g0 -> reachable g0 opts w ->
  uniqueIds (cy w)
  /\ hierarchy (cy w) = hierarchy g0
  /\ List.filter (fun t : string * string * string * bool => negb (reserved t.1.1.1))
                 (edgeEnds (cy w))
     = edgeEnds g0
  /\ (forall e, e ∈ cy_edges (cy w) -> reserved (e_id e) = true ->
        e_isProjection e = true
        /\ exists n, isCollapsedNode w n = true /\ e_id e ∈ recordedProjIds w n).
Proof.
  intros Hwf Hreach.
  destruct (reachable_storeInv g0 opts w Hwf Hreach) as [Hu Horig Hproj _ _].
  destruct (reachable_engineInv g0 opts w (wf_nodes _ Hwf) Hreach) as [Hh _ _ _].
  split; [exact Hu|]. split; [exact Hh|]. split; [exact Horig|].
  intros e He Hr. destruct (Hproj e He Hr) as (Hp & n & Hn & Hid).
  split; [exact Hp|]. exists n. split; [now apply bool_decide_eq_true | exact Hid].
Qed.

(** X22.  At every state the engine reaches from a well-formed graph, an
    original edge whose two endpoints are visible is visible: no edge
    between two visible nodes is left hidden. *)
Theorem visible_endpoints_have_visible_edge g0 opts w e :
  wellFormed g0 -> reachable g0 opts w ->
  e ∈ cy_edges g0 ->
  isHiddenEle w (e_source e) = false -> isHiddenEle w (e_target e) = false ->
  isHiddenEle w (e_id e) = false.
Proof.
  intros Hwf Hreach. destruct (reachable_storeInv g0 opts w Hwf Hreach) as [_ _ _ Hev _].
  apply Hev.
Qed.

(** X23.  At every state the engine reaches from a well-formed graph, a
    hidden node is a descendant of a collapsed node: nothing is hidden
    without a collapsed ancestor, and a node without parent is never
    hidden. *)
Theorem hidden_node_has_collapsed_ancestor g0 opts w x :
  wellFormed g0 -> reachable g0 opts w ->
  isNode g0 x = true -> isHiddenEle w x = true ->
  (exists a, isCollapsedNode w a = true /\ x ∈ descendants g0 a)
  /\ is_Some (parent g0 x).
Proof.
  intros Hwf Hreach Hx Hh.
  destruct (reachable_storeInv g0 opts w Hwf Hreach) as [_ _ _ _ Hhr].
  destruct (Hhr x Hx Hh) as (a & Ha & Hd).
  split; [exists a; split; [now apply bool_decide_eq_true | exact Hd]|].
  destruct (descendant_parent g0 a x (uniqueIds_nodes _ (wf_ids _ Hwf)) Hd) as (p & -> & _).
  eauto.
Qed.

Lemma nothing_collapsed g0 opts w :
  wellFormed g0 -> reachable g0 opts w ->
  collapsedIds (state w) = ∅ ->
  (forall x, isNode g0 x = true -> isHiddenEle w x = false)
  /\ (forall e, e ∈ cy_edges g0 -> isHiddenEle w (e_id e) = false)
  /\ edgeEnds (cy w) = edgeEnds g0
  /\ hierarchy (cy w) = hierarchy g0.
Proof.
  intros Hwf Hreach Hnone.
  destruct (reachable_storeInv g0 opts w Hwf Hreach) as [_ Horig Hproj Hev Hhr].
  destruct (reachable_engineInv g0 opts w (wf_nodes _ Hwf) Hreach) as [Hh _ _ _].
  assert (Hnodes : forall x, isNode g0 x = true -> isHiddenEle w x = false).
  { intros x Hx. destruct (isHiddenEle w x) eqn:Hhid; [|reflexivity].
    destruct (Hhr x Hx Hhid) as (a & Ha & _). rewrite Hnone in Ha. set_solver. }
  split; [exact Hnodes|]. split; [|split; [|exact Hh]].
  - intros e He. destruct (wf_endpoints _ Hwf e He) as [Hs Ht].
    apply Hev; [exact He | now apply Hnodes | now apply Hnodes].
  - rewrite <- Horig. symmetry. apply filter_all.
    intros t (e & -> & He)%list_elem_of_fmap. change ((ends e).1.1.1) with (e_id e).
    destruct (reserved (e_id e)) eqn:Hr; [|reflexivity].
    destruct (Hproj e He Hr) as (_ & n & Hn & _). rewrite Hnone in Hn. set_solver.
Qed.

(** X24.  The fully expanded graph is the original one.  At a state the
    engine reaches from a well-formed graph in which no node is collapsed,
    every node and every edge of the graph is visible, and the store holds
    the original edges and nothing else: no projection edge is left
    behind. *)
Theorem fully_expanded_graph_is_the_original g0 opts w :
  wellFormed g0 -> reachable g0 opts w ->
  (forall n, isCollapsedNode w n = false) ->
  (forall x, isNode g0 x = true -> isHiddenEle w x = false)
  /\ (forall e, e ∈ cy_edges g0 -> isHiddenEle w (e_id e) = false)
  /\ edgeEnds (cy w) = edgeEnds g0
  /\ hierarchy (cy w) = hierarchy g0.
Proof.
  intros Hwf Hreach Hnone. apply (nothing_collapsed g0 opts w Hwf Hreach).
  apply set_eq. intros n. specialize (Hnone n). apply bool_decide_eq_false in Hnone.
  set_solver.
Qed.

Lemma reachable_collapseEach g0 opts (l : list string) w :
  reachable g0 opts w ->
  reachable g0 opts (fold_left (fun w n => fst (collapse w n)) l w).
Proof.
  revert w. induction l as [|n l IH]; intros w Hw; cbn [fold_left]; [exact Hw|].
  apply IH. now apply reach_collapse.
Qed.

Lemma reachable_expandEach g0 opts (l : list string) w :
  reachable g0 opts w ->
  reachable g0 opts (fold_left (fun w n => fst (expand w opts n)) l w).
Proof.
  revert w. induction l as [|n l IH]; intros w Hw; cbn [fold_left]; [exact Hw|].
  apply IH. now apply reach_expand.
Qed.

(** X25.  [collapseAll] followed by [expandAll] on a fresh engine over a
    well-formed graph brings everything back: no node is collapsed, every
    node and every edge of the graph is visible, and the edges of the
    store are the original ones. *)
Theorem collapseAll_expandAll_round_trip g0 opts :
  wellFormed g0 ->
  let w1 := collapseAll (MkWorld g0 initState) in
  let w2 := expandAll w1 opts in
  (forall n, isNode g0 n = true -> isParent g0 n = true -> isCollapsedNode w1 n = true)
  /\ (forall n, isCollapsedNode w2 n = false)
  /\ (forall x, isNode g0 x = true -> isHiddenEle w2 x = false)
  /\ (forall e, e ∈ cy_edges g0 -> isHiddenEle w2 (e_id e) = false)
  /\ edgeEnds (cy w2) = edgeEnds g0
  /\ hierarchy (cy w2) = hierarchy g0.
Proof.
  intros Hwf w1 w2.
  set (w0 := MkWorld g0 initState) in *.
  pose proof (collapseEach_spec (sortByDepth (cy w0) (compounds (cy w0))) w0) as Hspec1.
  cbv zeta in Hspec1.
  change (fold_left (fun w n => fst (collapse w n))
                    (sortByDepth (cy w0) (compounds (cy w0))) w0) with w1 in Hspec1.
  destruct Hspec1 as (Hh1 & _ & Hsup1 & Hp1 & _).
  assert (Hr1 : reachable g0 opts w1).
  { subst w1. unfold collapseAll. apply reachable_collapseEach. apply reach_init. }
  pose proof (expandEach_spec opts (collapsedNodes w1) w1) as Hspec2.
  cbv zeta in Hspec2.
  change (fold_left (fun w n => fst (expand w opts n)) (collapsedNodes w1) w1)
    with w2 in Hspec2.
  destruct Hspec2 as (Hc2 & _ & _).
  assert (Hr2 : reachable g0 opts w2).
  { subst w2. unfold expandAll. now apply reachable_expandEach. }
  assert (Hnone : collapsedIds (state w2) = ∅).
  { apply set_eq. intros n. rewrite Hc2. split; [|set_solver].
    intros [Hin Hout]%elem_of_difference. exfalso. apply Hout.
    apply elem_of_list_to_set, elem_of_collapsedNodes. split; [|exact Hin].
    apply Hsup1 in Hin. cbn [w0 state initState collapsedIds] in Hin.
    apply elem_of_union in Hin as [Hin|Hin]; [|set_solver].
    apply elem_of_list_to_set in Hin.
    apply elem_of_sortByDepth, elem_of_compounds in Hin as [Hin _].
    now rewrite <- (hierarchy_ids (cy w1)), Hh1, hierarchy_ids. }
  split.
  - intros n Hn Hpar. apply bool_decide_eq_true. apply Hp1; [|exact Hpar].
    apply elem_of_sortByDepth, elem_of_compounds.
    split; [now apply isNode_true | exact Hpar].
  - split; [intros n; apply bool_decide_eq_false; rewrite Hnone; set_solver|].
    apply (nothing_collapsed g0 opts w2 Hwf Hr2 Hnone).
Qed.

End ReachedTheorems.

(** ** Scenarios on the test fixtures *)

Module Scenarios.
Import Fixtures.

(** Well-formedness of a concrete store, by computation. *)
Ltac store_ok :=
  unfold uniqueIds, uniqueEdgeIds, uniqueNodeIds, noReservedNodes; compute_done.

(** Collapsing the leaf [external1] and expanding the expanded [parent1]
    change nothing. *)
Lemma invalid_operations_are_noops_witness :
  let w := start testGraph in
  collapse w "external1" = (w, false)
  /\ expand w defaultOpts "parent1" = (w, false)
  /\ isCollapsedNode (fst (collapse w "external1")) "external1" = false.
Proof.
  intros w.
  destruct (invalid_operations_are_noops w defaultOpts "external1")
    as (Hcollapse & _ & Hleaf & _).
  destruct (invalid_operations_are_noops w defaultOpts "parent1") as (_ & Hexpand & _).
  split; [apply Hcollapse; left; reflexivity|].
  split; [apply Hexpand; reflexivity|].
  apply Hleaf; reflexivity.
Defined.

(** The aggregation test: two children with an edge to the same external
    node yield one projection, [parent1 -> external1]. *)
Example aggregation_test :
  let w' := fst (collapse (start testGraph) "parent1") in
  getProjectedEdges w' "parent1" = ["_proj_parent1_0"; "_proj_parent1_1"]
  /\ ends <$> List.filter (fun e => e_isProjection e) (cy_edges (cy w'))
     = [("_proj_parent1_0", "parent1", "external1", true);
        ("_proj_parent1_1", "child3", "parent1", true)]
  /\ isHiddenEle w' "e1" = true /\ isHiddenEle w' "e2" = true.
Proof. vm_compute. repeat split; reflexivity. Qed.

(** The position test: [child1] is back at (100, 200) after the round trip. *)
Example position_test :
  let w1 := fst (collapse (start testGraph) "parent1") in
  position (cy (fst (expand w1 plainOpts "parent1"))) "child1" = Some (at_ 100 200).
Proof. vm_compute. reflexivity. Qed.

(** The nesting test on three levels. *)
Example nesting_test :
  let w1 := fst (collapse (start nestedGraph) "parent") in
  let w2 := fst (collapse w1 "grandparent") in
  let w3 := fst (expand w2 defaultOpts "grandparent") in
  isHiddenEle w3 "parent" = false
  /\ isCollapsedNode w3 "parent" = true
  /\ isHiddenEle w3 "child" = true.
Proof. vm_compute. repeat split; reflexivity. Qed.

(** The edge [e1] from [child1] to [external1] when [parent1] collapses. *)
Lemma boundary_edges_are_projected_witness :
  let w := start testGraph in
  let w' := fst (collapse w "parent1") in
  (exists data, projectionEdgesMap (state w') !! "parent1" = Some data
                /\ "e1" ∈ originalIds data
                /\ NoDup (originalIds data)
                /\ length (projIds data) = length (collapseGroups w "parent1"))
  /\ (exists key es, groupKey (descendantIdSet "parent1" (descendants (cy w) "parent1"))
                              (mkEdge "e1" "child1" "external1") = Some key
                     /\ (key, es) ∈ collapseGroups w "parent1"
                     /\ "e1" ∈ e_id <$> es)
  /\ isHiddenEle w' "e1" = true.
Proof.
  intros w w'.
  apply (boundary_edges_are_projected w "parent1" w'
           (mkEdge "e1" "child1" "external1") "child1").
  - store_ok.
  - vm_compute. reflexivity.
  - compute_done.
  - compute_done.
  - reflexivity.
  - vm_compute. reflexivity.
Defined.

(** C3 as stated fails for an edge whose inside endpoint is the collapsing
    node itself: in [parentEdgeGraph] the edge [pX] from [P] to the external
    node [X] has exactly one endpoint inside, yet after [collapse] of [P] it
    is not hidden and not among the recorded original ids. *)
Lemma parent_edge_not_classified :
  let w := start parentEdgeGraph in
  let w' := fst (collapse w "P") in
  let pX := mkEdge "pX" "P" "X" in
  snd (collapse w "P") = true
  /\ pX ∈ cy_edges (cy w)
  /\ touches pX "P" = true
  /\ isBoundary (descendantIdSet "P" (descendants (cy w) "P")) pX = true
  /\ isHiddenEle w' "pX" = false
  /\ (originalIds <$> projectionEdgesMap (state w') !! "P") = Some ["cX"; "Xc"].
Proof.
  intros w w' pX. repeat split; try (vm_compute; reflexivity). compute_done.
Qed.

(** The edge between the two children of [parent] when [parent] collapses:
    it is scanned from [child1], recorded nowhere, and hidden. *)
Lemma internal_edges_not_projected_witness :
  let w := start internalEdgeGraph in
  let w' := fst (collapse w "parent") in
  let internal := mkEdge "internal" "child1" "child2" in
  (forall data, projectionEdgesMap (state w') !! "parent" = Some data ->
                "internal" ∉ originalIds data)
  /\ (forall key es, (key, es) ∈ collapseGroups w "parent" ->
                     "internal" ∉ e_id <$> es)
  /\ groupKey (descendantIdSet "parent" (descendants (cy w) "parent")) internal = None
  /\ isHiddenEle w' "internal" = true
  /\ getProjectedEdges w' "parent" = [].
Proof.
  intros w w' internal.
  destruct (internal_edges_not_projected w "parent" w' internal)
    as (Horiginal & Hgroups & Hkey & Hhidden).
  - store_ok.
  - vm_compute. reflexivity.
  - compute_done.
  - vm_compute. reflexivity.
  - split; [exact Horiginal|]. split; [exact Hgroups|]. split; [exact Hkey|].
    split; [|reflexivity].
    apply (Hhidden "child1"); [compute_done | reflexivity].
Defined.

(** C4 as stated fails for a loop on the collapsing node: both endpoints of
    [loop] are inside the subtree of [P], and after [collapse] of [P] it is
    not hidden. *)
Lemma parent_loop_not_hidden :
  let w := start parentEdgeGraph in
  let w' := fst (collapse w "P") in
  let loop := mkEdge "loop" "P" "P" in
  snd (collapse w "P") = true
  /\ loop ∈ cy_edges (cy w)
  /\ isInternal (descendantIdSet "P" (descendants (cy w) "P")) loop = true
  /\ isHiddenEle w' "loop" = false.
Proof.
  intros w w' loop. repeat split; try (vm_compute; reflexivity). compute_done.
Qed.

(** [parent1] is visible before and after its collapse. *)
Lemma collapse_keeps_own_visibility_witness :
  let w := start testGraph in
  let w' := fst (collapse w "parent1") in
  isHiddenEle w "parent1" = false /\ isHiddenEle w' "parent1" = false.
Proof.
  intros w w'. split; [reflexivity|].
  apply (collapse_keeps_own_visibility w "parent1" w').
  - store_ok.
  - reflexivity.
  - compute_done.
  - vm_compute. reflexivity.
  - reflexivity.
Defined.

(** C10 as stated fails when the node is already hidden: after
    [collapse(grandparent)], [collapse(parent)] succeeds and [parent] is
    hidden right after it. *)
Lemma hidden_node_stays_hidden :
  let w1 := fst (collapse (start nestedGraph) "grandparent") in
  snd (collapse w1 "parent") = true
  /\ isHiddenEle (fst (collapse w1 "parent")) "parent" = true.
Proof. vm_compute. split; reflexivity. Qed.

(** Edges to and from the same external node give two projections, one
    per direction. *)
Example both_directions_test :
  let w' := fst (collapse (start parentEdgeGraph) "P") in
  ends <$> List.filter (fun e => e_isProjection e) (cy_edges (cy w'))
  = [("_proj_P_0", "P", "X", true); ("_proj_P_1", "X", "P", true)].
Proof. vm_compute. reflexivity. Qed.

(** C5 fails on the code.  With four levels, [outer > inner > mid > leaf]:
    after [collapse(inner); collapse(outer); expand(outer)] the node [inner]
    is still collapsed and [mid] is hidden, but [leaf], a descendant of
    [inner], is shown: its direct parent [mid] is not itself collapsed,
    which is all the guard of [expand] looks at. *)
Lemma deep_descendant_shown :
  let w1 := fst (collapse (start deepGraph) "inner") in
  let w2 := fst (collapse w1 "outer") in
  let w3 := fst (expand w2 defaultOpts "outer") in
  snd (collapse (start deepGraph) "inner") = true
  /\ snd (collapse w1 "outer") = true
  /\ snd (expand w2 defaultOpts "outer") = true
  /\ descendants (cy w3) "inner" = ["mid"; "leaf"]
  /\ isCollapsedNode w3 "inner" = true
  /\ isHiddenEle w3 "mid" = true
  /\ isHiddenEle w3 "leaf" = false.
Proof. vm_compute. repeat split; reflexivity. Qed.

(** C2 fails on the code.  The group key is split at every colon and only
    the second piece is kept, so the external ids [a:b] and [a:c] are both
    read back as [a]: the two groups produce two projection edges from [P]
    to the unrelated node [a], and none to [a:b] or [a:c]. *)
Lemma colon_ids_duplicate_projection :
  let w' := fst (collapse (start colonGraph) "P") in
  snd (collapse (start colonGraph) "P") = true
  /\ fst <$> collapseGroups (start colonGraph) "P" = ["out:a:b"; "out:a:c"]
  /\ getProjectedEdges w' "P" = ["_proj_P_0"; "_proj_P_1"]
  /\ ends <$> List.filter (fun e => e_isProjection e) (cy_edges (cy w'))
     = [("_proj_P_0", "P", "a", true); ("_proj_P_1", "P", "a", true)].
Proof. vm_compute. repeat split; reflexivity. Qed.

(** Exact arithmetic: subtracting and re-adding is the identity up to [Qeq]. *)
Lemma Q_restore (p c : Q) : Qeq (nadd p (nsub c p)) c.
Proof. simpl. ring. Qed.

(** The round trip of [parent1] over exact rationals, without animation:
    [child1] is back at (100, 200). *)
Lemma collapse_expand_round_trip_witness :
  let w := start testGraph in
  let w1 := fst (collapse w "parent1") in
  let w2 := fst (expand w1 plainOpts "parent1") in
  (forall d, d ∈ descendants (cy w) "parent1" -> isHiddenEle w2 d = false)
  /\ position (cy w2) "child1" = Some (roundTrip (at_ 50 50) (at_ 100 200))
  /\ closePoint Qeq (roundTrip (at_ 50 50) (at_ 100 200)) (at_ 100 200).
Proof.
  intros w w1 w2.
  destruct (collapse_expand_round_trip w plainOpts "parent1" w1)
    as (_ & Hhidden & Hposition).
  - store_ok.
  - store_ok.
  - intros d _. reflexivity.
  - vm_compute. reflexivity.
  - split; [exact Hhidden|]. split; [|split; apply Q_restore].
    apply (Hposition "child1" (at_ 100 200) (at_ 50 50)).
    + compute_done.
    + reflexivity.
    + reflexivity.
Defined.

(** C1 as stated fails over doubles.  [P] is at x = 2^70 and its child [c]
    at x = 100; [P] does not move.  The offset 100 - 2^70 rounds to -2^70,
    so [expand] puts [c] at 2^70 + (-2^70) = 0, a hundred units from where
    it was. *)
Lemma round_trip_loses_small_offset :
  let w := MkWorld farGraph initState in
  let w1 := fst (collapse w "P") in
  let w2 := fst (expand w1 plainFloatOpts "P") in
  snd (collapse w "P") = true
  /\ snd (expand w1 plainFloatOpts "P") = true
  /\ "c" ∈ descendants (cy w) "P"
  /\ position (cy w1) "P" = position (cy w) "P"
  /\ position (cy w) "c" = Some (atF 100 0)
  /\ position (cy w2) "c" = Some (atF 0 0)
  /\ ~ closePoint within1 (atF 0 0) (atF 100 0).
Proof.
  intros w w1 w2.
  split; [vm_compute; reflexivity|]. split; [vm_compute; reflexivity|].
  split; [compute_done|]. split; [vm_compute; reflexivity|].
  split; [vm_compute; reflexivity|]. split; [vm_compute; reflexivity|].
  intros [Hx _]. vm_compute in Hx. discriminate Hx.
Qed.

(** A child with a generated projection id does not survive the round
    trip: [expand] removes what the recorded projection ids name. *)
Example reserved_child_removed :
  let w1 := fst (collapse (start reservedChildGraph) "P") in
  let w2 := fst (expand w1 plainOpts "P") in
  snd (expand w1 plainOpts "P") = true
  /\ isNode (cy w1) "_proj_P_0" = true
  /\ isNode (cy w2) "_proj_P_0" = false.
Proof. vm_compute. repeat split; reflexivity. Qed.

(** With [animate] on (the default of the extension) the child keeps its
    position and the restored position is the target of a queued animation. *)
Example round_trip_animated :
  let w1 := fst (collapse (start testGraph) "parent1") in
  let w2 := fst (expand w1 defaultOpts "parent1") in
  position (cy w2) "child1" = Some (at_ 100 200)
  /\ cy_animations (cy w2)
     = [Animation "child1" (at_ 100 200) 300%N; Animation "child2" origin 300%N].
Proof. vm_compute. split; reflexivity. Qed.

(** The records of the two unrelated parents of the test graph. *)
Lemma records_disjoint_unless_nested_witness :
  let w1 := fst (collapse (start testGraph) "parent1") in
  let w2 := fst (collapse w1 "parent2") in
  recordIds w2 "parent1" = {["child1"; "child2"]}
  /\ recordIds w2 "parent2" = {["child3"]}
  /\ recordIds w2 "parent1" ## recordIds w2 "parent2".
Proof.
  intros w1 w2. split; [vm_compute; reflexivity|]. split; [vm_compute; reflexivity|].
  apply (records_disjoint_unless_nested testGraph defaultOpts w2 "parent1" "parent2").
  - store_ok.
  - store_ok.
  - apply reach_collapse, reach_collapse, reach_init.
  - discriminate.
  - compute_done.
  - compute_done.
Defined.

(** C9 as stated fails for nested collapses: after [collapse(parent)] and
    [collapse(grandparent)] both nodes are collapsed and both records hold
    the id [child]. *)
Lemma nested_records_overlap :
  let w1 := fst (collapse (start nestedGraph) "parent") in
  let w2 := fst (collapse w1 "grandparent") in
  reachable nestedGraph defaultOpts w2
  /\ isCollapsedNode w2 "parent" = true
  /\ isCollapsedNode w2 "grandparent" = true
  /\ hiddenElementsMap (state w2) !! "parent" = Some ["child"]
  /\ hiddenElementsMap (state w2) !! "grandparent" = Some ["parent"; "child"]
  /\ "child" ∈ recordIds w2 "parent"
  /\ "child" ∈ recordIds w2 "grandparent"
  /\ ~ recordIds w2 "parent" ## recordIds w2 "grandparent".
Proof.
  intros w1 w2.
  assert (H1 : "child" ∈ recordIds w2 "parent") by compute_done.
  assert (H2 : "child" ∈ recordIds w2 "grandparent") by compute_done.
  split; [apply reach_collapse, reach_collapse, reach_init|].
  repeat split; try (vm_compute; reflexivity); try assumption.
  intros Hdisj. exact (Hdisj "child" H1 H2).
Qed.

(** Two overlapping leaves are pushed apart by the first pass; the second
    pass finds nothing. *)
Example overlaps_resolved :
  let '(w', ok) := resolveOverlaps squareBox (start overlapGraph) plainOpts in
  hasOverlaps squareBox (start overlapGraph) = true
  /\ ok = true
  /\ snd (overlapLoop squareBox (paddingOr10 plainOpts) 50 (start overlapGraph) 0) = 2
  /\ hasOverlaps squareBox w' = false
  /\ cy_emitted (cy w') = [].
Proof. vm_compute. repeat split; reflexivity. Qed.


(** With boxes that never move the cap is hit: three passes, the
    notification, and [false]. *)
Example overlaps_exhausted :
  let opts := MkOpts false None (Some 3) None in
  let '(w', ok) := resolveOverlaps fixedBox (start overlapGraph) opts in
  ok = false
  /\ snd (overlapLoop fixedBox (paddingOr10 opts) 3 (start overlapGraph) 0) = 3
  /\ hasOverlaps fixedBox w' = true
  /\ cy_emitted (cy w') = [EvLayoutResetRequired].
Proof. vm_compute. repeat split; reflexivity. Qed.

(** *** Further scenarios *)

Lemma recorded_not_nodes (w : World Q) nodeId :
  Forall (fun x => isNode (cy w) x = false) (recordedProjIds w nodeId) ->
  forall data x, projectionEdgesMap (state w) !! nodeId = Some data ->
                 x ∈ projIds data -> isNode (cy w) x = false.
Proof.
  unfold recordedProjIds. intros Hall data x Hd. rewrite Hd in Hall.
  revert x. now apply Forall_forall.
Qed.

Ltac fresh_ok :=
  apply noReserved_fresh; [store_ok | unfold noReservedEdges; compute_done].

(** Collapsing [parent1] hides its child [child1] and the edge [e1]. *)
Lemma collapse_hides_exactly_the_subtree_witness :
  let w := start testGraph in
  let w' := fst (collapse w "parent1") in
  isHiddenEle w' "child1" = true /\ isHiddenEle w' "e1" = true.
Proof.
  intros w w'.
  destruct (collapse_hides_exactly_the_subtree w "parent1" w') as (_ & Hd & He & _).
  - vm_compute. reflexivity.
  - split.
    + apply Hd. compute_done.
    + apply (He (mkEdge "e1" "child1" "external1") "child1");
        [compute_done | compute_done | reflexivity].
Defined.

(** Collapsing [parent1] leaves [child1] where it is and the record of
    [parent2] empty. *)
Lemma collapse_touches_one_record_witness :
  let w := start testGraph in
  let w' := fst (collapse w "parent1") in
  position (cy w') "child1" = position (cy w) "child1"
  /\ hiddenElementsMap (state w') !! "parent1" = Some (descendants (cy w) "parent1")
  /\ hiddenElementsMap (state w') !! "parent2" = hiddenElementsMap (state w) !! "parent2".
Proof.
  intros w w'.
  destruct (collapse_touches_one_record w "parent1" w')
    as (_ & Hpos & _ & _ & _ & Hrec & Hother).
  - vm_compute. reflexivity.
  - split; [apply Hpos|]. split; [exact Hrec|].
    destruct (Hother "parent2") as [Hh _]; [discriminate | exact Hh].
Defined.

(** Expanding [parent1] again deletes its record. *)
Lemma expand_discards_the_record_witness :
  let w1 := fst (collapse (start testGraph) "parent1") in
  let w2 := fst (expand w1 defaultOpts "parent1") in
  isCollapsedNode w2 "parent1" = false /\ getProjectedEdges w2 "parent1" = [].
Proof.
  intros w1 w2.
  destruct (expand_discards_the_record w1 defaultOpts "parent1" w2)
    as (Hcol & _ & _ & _ & _ & _ & Hproj & _).
  - vm_compute. reflexivity.
  - now split.
Defined.

(** [parent1] is moved from (50, 50) to (60, 70) while collapsed: on
    expand [child1], saved at the offset (50, 150), lands at (110, 220). *)
Lemma expand_places_children_at_saved_offsets_witness :
  let w1 := fst (collapse (start testGraph) "parent1") in
  let moved := withCy w1 (setPosition (cy w1) "parent1" (at_ 60 70)) in
  let w2 := fst (expand moved plainOpts "parent1") in
  position (cy w2) "child1" = Some (at_ 110 220)
  /\ position (cy w2) "external1" = position (cy moved) "external1".
Proof.
  intros w1 moved w2.
  destruct (expand_places_children_at_saved_offsets moved plainOpts "parent1" w2)
    as (_ & Hchild & Hother & _).
  - apply recorded_not_nodes. compute_done.
  - vm_compute. reflexivity.
  - split.
    + pose proof (Hchild "child1"
                    (default ∅ (savedPositionsMap (state moved) !! "parent1"))
                    (at_ 60 70)
                    (Local (inject_Z 100 - inject_Z 50)%Q (inject_Z 200 - inject_Z 50)%Q))
        as Hc.
      cbv zeta in Hc. cbn [animate plainOpts] in Hc. rewrite Hc.
      * vm_compute. reflexivity.
      * vm_compute. reflexivity.
      * reflexivity.
      * compute_done.
      * vm_compute. reflexivity.
    + apply Hother. compute_done.
Defined.


(** After collapsing [parent1], expanding it leaves [external1] visible. *)
Lemma expand_never_hides_witness :
  let w1 := fst (collapse (start testGraph) "parent1") in
  isHiddenEle (fst (expand w1 defaultOpts "parent1")) "external1" = false.
Proof.
  intros w1.
  apply (expand_never_hides w1 defaultOpts "parent1").
  - apply Forall_forall. compute_done.
  - vm_compute. reflexivity.
  - reflexivity.
Defined.

(** [parent] then [grandparent] are collapsed; expanding [grandparent]
    leaves the projection edge of [parent] hidden. *)
Lemma expand_leaves_projection_edges_hidden_witness :
  let w1 := fst (collapse (start nestedGraph) "parent") in
  let w2 := fst (collapse w1 "grandparent") in
  let w3 := fst (expand w2 defaultOpts "grandparent") in
  isNode (cy w3) "parent" = true /\ isHiddenEle w3 "parent" = false
  /\ isHiddenEle w3 "external" = false
  /\ isHiddenEle w3 "_proj_parent_0" = true.
Proof.
  intros w1 w2 w3.
  split; [reflexivity|]. split; [reflexivity|]. split; [reflexivity|].
  destruct (expand_leaves_projection_edges_hidden w2 defaultOpts "grandparent"
              (Edge "_proj_parent_0" "parent" "external" true true)) as [_ Hhid].
  - unfold uniqueEdgeIds. compute_done.
  - compute_done.
  - reflexivity.
  - compute_done.
  - compute_done.
  - exact Hhid.
Defined.

(** Collapsing and expanding [parent1] gives back the edges of the test
    graph. *)
Lemma collapse_expand_restores_edges_witness :
  let w1 := fst (collapse (start testGraph) "parent1") in
  edgeEnds (cy (fst (expand w1 plainOpts "parent1"))) = edgeEnds testGraph.
Proof.
  intros w1.
  apply (collapse_expand_restores_edges (start testGraph) plainOpts "parent1" w1).
  - fresh_ok.
  - vm_compute. reflexivity.
Defined.

(** Collapsing and expanding [parent1] shows [e1] again. *)
Lemma collapse_expand_shows_edges_again_witness :
  let w1 := fst (collapse (start testGraph) "parent1") in
  isHiddenEle (fst (expand w1 plainOpts "parent1")) "e1" = false.
Proof.
  intros w1.
  apply (collapse_expand_shows_edges_again (start testGraph) plainOpts "parent1" w1
           (mkEdge "e1" "child1" "external1")).
  - store_ok.
  - fresh_ok.
  - intros d _. reflexivity.
  - vm_compute. reflexivity.
  - compute_done.
  - reflexivity.
  - exists "child1". split; [compute_done | reflexivity].
  - intros y Hy. apply touches_iff in Hy as [-> | ->].
    + left. compute_done.
    + right. split; reflexivity.
Defined.


(** After collapsing [parent1] its record holds its descendants. *)
Lemma records_exist_exactly_while_collapsed_witness :
  let w := fst (collapse (start testGraph) "parent1") in
  hiddenElementsMap (state w) !! "parent1" = Some (descendants testGraph "parent1")
  /\ (is_Some (hiddenElementsMap (state w) !! "parent2") -> False).
Proof.
  intros w.
  destruct (records_exist_exactly_while_collapsed testGraph defaultOpts w "parent1")
    as (_ & _ & _ & Hrec); [store_ok | apply reach_collapse, reach_init |].
  destruct (records_exist_exactly_while_collapsed testGraph defaultOpts w "parent2")
    as ([_ Hnone] & _); [store_ok | apply reach_collapse, reach_init |].
  split.
  - now apply Hrec.
  - intros Hsome. apply Hnone in Hsome. vm_compute in Hsome. discriminate Hsome.
Defined.

Lemma pileLayout_moves_nodes options g :
  positionsOnly (n_id <$> cy_nodes g) g (pileLayout options g).
Proof.
  assert (Hget : forall id,
             getNode (pileLayout options g) id
             = (fun n => Node (n_id n) (n_parent n) (at_ 7 7) (n_hidden n))
                 <$> getNode g id).
  { intros id. unfold getNode, pileLayout. cbn [cy_nodes].
    induction (cy_nodes g) as [|n l IH]; [reflexivity|].
    cbn [List.map List.find n_id].
    destruct (String.eqb (n_id n) id); [reflexivity | exact IH]. }
  constructor.
  - unfold hierarchy, pileLayout. cbn [cy_nodes].
    induction (cy_nodes g) as [|n l IH]; [reflexivity|].
    cbn [List.map]. rewrite !fmap_cons. f_equal. exact IH.
  - intros id. unfold nodeHidden. rewrite Hget. now destruct (getNode g id).
  - reflexivity.
  - reflexivity.
  - reflexivity.
  - intros id Hid. unfold position. rewrite Hget.
    destruct (getNode g id) as [n|] eqn:Hn; [|reflexivity].
    exfalso. apply Hid. unfold getNode in Hn.
    apply find_some in Hn as [Hin Heq]. apply String.eqb_eq in Heq. subst id.
    apply list_elem_of_fmap_2, list_elem_of_In, Hin.
Qed.

Lemma wellFormed_by_lists (g : Cy Q) :
  uniqueIds g -> noReservedNodes g -> noReservedEdges g ->
  Forall (fun e => isNode g (e_source e) = true /\ isNode g (e_target e) = true)
         (cy_edges g) ->
  Forall (fun e => e_isProjection e = false /\ e_hidden e = false) (cy_edges g) ->
  Forall (fun n => n_hidden n = false) (cy_nodes g) ->
  wellFormed g.
Proof.
  intros H1 H2 H3 H4 H5 H6.
  constructor; [exact H1 | exact H2 | exact H3 | | |]; now apply Forall_forall.
Qed.

Ltac wellFormed_ok :=
  apply wellFormed_by_lists;
  [ store_ok | store_ok | unfold noReservedEdges; compute_done
  | compute_done | compute_done | compute_done ].

Lemma testGraph_wellFormed : wellFormed testGraph.
Proof. wellFormed_ok. Qed.

Lemma nestedGraph_wellFormed : wellFormed nestedGraph.
Proof. wellFormed_ok. Qed.


(** With [outer] collapsed no leaf of the deep graph is visible and
    [resolveOverlaps] changes nothing. *)
Lemma resolveOverlaps_nothing_to_compare_witness :
  let w := fst (collapse (start deepGraph) "outer") in
  resolveOverlaps squareBox w plainOpts = (w, true).
Proof.
  intros w.
  destruct (resolveOverlaps_nothing_to_compare squareBox w plainOpts) as [_ Hres].
  - vm_compute. lia.
  - exact Hres.
Defined.

(** The two leaves of [overlapGraph] are apart once [resolveOverlaps]
    has returned true. *)
Lemma resolveOverlaps_true_means_no_overlap_witness :
  let w' := fst (resolveOverlaps squareBox (start overlapGraph) plainOpts) in
  boxesOverlap (squareBox (cy w') "a") (squareBox (cy w') "b") = false.
Proof.
  intros w'.
  destruct (resolveOverlaps_true_means_no_overlap squareBox (start overlapGraph)
              plainOpts w' 0 1 "a" "b") as [Hbox _].
  - vm_compute. reflexivity.
  - discriminate.
  - vm_compute. reflexivity.
  - vm_compute. reflexivity.
  - vm_compute. reflexivity.
  - exact Hbox.
Defined.

(** A local layout around [child1] with a layout that piles up every
    node: the compound [parent1], which is not a neighbour, is back at
    (50, 50) afterwards, and nothing becomes hidden. *)
Lemma runLocalLayout_restores_unaffected_nodes_witness :
  let w := start testGraph in
  let w' := runLocalLayout squareBox pileLayout false w plainOpts plainLayoutOpts
              "child1" in
  position (pileLayout (LayoutOptions "cose" false 200%N false None None [] 0%Q None)
              (cy w)) "parent1" = Some (at_ 7 7)
  /\ position (cy w') "parent1" = Some (at_ 50 50)
  /\ isHiddenEle w' "child1" = false.
Proof.
  intros w w'.
  destruct (runLocalLayout_restores_unaffected_nodes squareBox pileLayout false
              pileLayout_moves_nodes w plainOpts plainLayoutOpts "child1")
    as (_ & _ & _ & Hhid & _ & Hpar).
  split; [reflexivity|]. split.
  - fold w' in Hpar. rewrite Hpar; [reflexivity | compute_done | compute_done | reflexivity].
  - fold w' in Hhid. rewrite (Hhid "child1"). reflexivity.
Defined.

(** A global layout with the same layout leaves the engine state and the
    visibility alone. *)
Lemma runLayout_changes_positions_only_witness :
  let w := fst (collapse (start testGraph) "parent1") in
  let w' := runLayout squareBox pileLayout false w plainOpts plainLayoutOpts in
  state w' = state w /\ isHiddenEle w' "child1" = true.
Proof.
  intros w w'.
  destruct (runLayout_changes_positions_only squareBox pileLayout false
              pileLayout_moves_nodes w plainOpts plainLayoutOpts)
    as (Hst & _ & _ & Hhid).
  split; [exact Hst|]. fold w' in Hhid. rewrite (Hhid "child1"). reflexivity.
Defined.

(** With [parent1] collapsed the store holds the three edges of the test
    graph beside the projection edges. *)
Lemma engine_keeps_the_original_edges_witness :
  let w := fst (collapse (start testGraph) "parent1") in
  List.filter (fun t : string * string * string * bool => negb (reserved t.1.1.1))
              (edgeEnds (cy w))
  = edgeEnds testGraph.
Proof.
  intros w.
  destruct (engine_keeps_the_original_edges testGraph defaultOpts w)
    as (_ & _ & Hedges & _).
  - exact testGraph_wellFormed.
  - apply reach_collapse, reach_init.
  - exact Hedges.
Defined.

(** With [parent2] collapsed the edge [e1] between the visible nodes
    [child1] and [external1] is visible. *)
Lemma visible_endpoints_have_visible_edge_witness :
  let w := fst (collapse (start testGraph) "parent2") in
  isHiddenEle w "e1" = false.
Proof.
  intros w.
  apply (visible_endpoints_have_visible_edge testGraph defaultOpts w
           (mkEdge "e1" "child1" "external1")).
  - exact testGraph_wellFormed.
  - apply reach_collapse, reach_init.
  - compute_done.
  - reflexivity.
  - reflexivity.
Defined.

(** With [parent1] collapsed the hidden node [child1] has a collapsed
    ancestor. *)
Lemma hidden_node_has_collapsed_ancestor_witness :
  let w := fst (collapse (start testGraph) "parent1") in
  exists a, isCollapsedNode w a = true /\ "child1" ∈ descendants testGraph a.
Proof.
  intros w.
  destruct (hidden_node_has_collapsed_ancestor testGraph defaultOpts w "child1")
    as [Hanc _].
  - exact testGraph_wellFormed.
  - apply reach_collapse, reach_init.
  - reflexivity.
  - reflexivity.
  - exact Hanc.
Defined.

(** After collapsing and expanding [parent] in the nested graph nothing
    is collapsed, and the edges are those of the nested graph. *)
Lemma fully_expanded_graph_is_the_original_witness :
  let w1 := fst (collapse (start nestedGraph) "parent") in
  let w2 := fst (expand w1 defaultOpts "parent") in
  edgeEnds (cy w2) = edgeEnds nestedGraph
  /\ isHiddenEle w2 "child" = false.
Proof.
  intros w1 w2.
  destruct (fully_expanded_graph_is_the_original nestedGraph defaultOpts w2)
    as (Hnodes & _ & Hedges & _).
  - exact nestedGraph_wellFormed.
  - apply reach_expand, reach_collapse, reach_init.
  - intros n. unfold isCollapsedNode.
    replace (collapsedIds (state w2)) with (∅ : gset string)
      by (vm_compute; reflexivity).
    reflexivity.
  - split; [exact Hedges | apply Hnodes; reflexivity].
Defined.

(** [collapseAll] then [expandAll] on the nested graph: everything is
    visible again and the edges are those of the nested graph. *)
Lemma collapseAll_expandAll_round_trip_witness :
  let w1 := collapseAll (start nestedGraph) in
  let w2 := expandAll w1 defaultOpts in
  isCollapsedNode w1 "parent" = true
  /\ isHiddenEle w2 "child" = false
  /\ isHiddenEle w2 "e1" = false
  /\ edgeEnds (cy w2) = edgeEnds nestedGraph.
Proof.
  intros w1 w2.
  destruct (collapseAll_expandAll_round_trip nestedGraph defaultOpts
              nestedGraph_wellFormed)
    as (Hall & _ & Hnodes & Hedges & Hends & _).
  split; [apply Hall; reflexivity|].
  split; [apply Hnodes; reflexivity|].
  split; [|exact Hends].
  apply (Hedges (mkEdge "e1" "child" "external")). compute_done.
Defined.

(** Collapsing [parent1] in the test graph, whose ids have no colon. *)
Lemma projections_unique_without_colons_witness :
  let w' := fst (collapse (start testGraph) "parent1") in
  exists old new,
    cy_edges (cy w') = old ++ new
    /\ ends <$> old = edgeEnds testGraph
    /\ NoDup ((fun e => (e_source e, e_target e)) <$> new).
Proof.
  intros w'.
  destruct (projections_unique_without_colons (start testGraph) "parent1" w')
    as (old & new & Happ & Hold & Hnd & _).
  - unfold uniqueEdgeIds. compute_done.
  - apply Forall_forall. compute_done.
  - vm_compute. reflexivity.
  - exists old, new. split; [exact Happ|]. split; [exact Hold | exact Hnd].
Defined.

(** [parent] and [grandparent] are collapsed; expanding [grandparent]
    leaves [parent] collapsed and [child] hidden. *)
Lemma expand_keeps_inner_children_hidden_witness :
  let w1 := fst (collapse (start nestedGraph) "parent") in
  let w2 := fst (collapse w1 "grandparent") in
  let w3 := fst (expand w2 defaultOpts "grandparent") in
  isCollapsedNode w3 "parent" = true /\ isHiddenEle w3 "child" = true.
Proof.
  intros w1 w2 w3.
  destruct (expand_keeps_inner_children_hidden w2 defaultOpts "grandparent" "parent"
              "child") as [Hcol Hhid].
  - unfold uniqueIds. compute_done.
  - discriminate.
  - compute_done.
  - compute_done.
  - compute_done.
  - split; [exact Hcol | exact Hhid].
Defined.

(** Collapsing [P] leaves its own edge [pX] out of the record and out of
    the hidden set. *)
Lemma unvisited_edges_untouched_witness :
  let w' := fst (collapse (start parentEdgeGraph) "P") in
  "pX" ∈ hiddenIds (state w') <-> "pX" ∈ hiddenIds (state (start parentEdgeGraph)).
Proof.
  intros w'.
  destruct (unvisited_edges_untouched (start parentEdgeGraph) "P" w'
              (mkEdge "pX" "P" "X")) as [_ Hhid].
  - store_ok.
  - vm_compute. reflexivity.
  - compute_done.
  - apply Forall_forall. compute_done.
  - exact Hhid.
Defined.

(** With auto layout on, collapsing [parent1] arms the timer; when it
    fires, [parent1] is still collapsed and [child1] still hidden. *)
Lemma debounced_layout_keeps_engine_state_witness :
  let a := api_collapse (createCore (start testGraph) true) ["parent1"] in
  let a' := timerFires squareBox pileLayout false plainOpts plainLayoutOpts a in
  pendingLayout a = Some "parent1"
  /\ pendingLayout a' = None
  /\ api_isCollapsed a' "parent1" = true
  /\ api_isHidden a' "child1" = true.
Proof.
  intros a a'.
  destruct (debounced_layout_keeps_engine_state squareBox pileLayout false
              pileLayout_moves_nodes plainOpts plainLayoutOpts a)
    as (Hp & _ & Hst & _ & _ & Hhid).
  fold a' in Hp, Hst, Hhid.
  split; [reflexivity|]. split; [exact Hp|]. split.
  - unfold api_isCollapsed, isCollapsedNode. rewrite Hst. reflexivity.
  - unfold api_isHidden. rewrite (Hhid "child1"). reflexivity.
Defined.

End Scenarios.
